(** * The validator-set lifecycle engine of the staking keeper

    A shallow embedding of the keeper code of [x/stake/keeper]
    (the validator store with its indices, the state transitions, the
    unbonding queue and [ApplyAndReturnValidatorSetUpdates]) and the
    properties of it that the specification states.

    The key-value store is one logical store with five keyspaces; each
    keyspace is a finite map here, and the store is passed from call to
    call.  Code that can panic returns a result that is a value or a
    panic. *)

From Stdlib Require Import ZArith String List Lia.
From stdpp Require Import gmap list sorting strings.

Local Open Scope Z_scope.

(** ** Data *)

(** [sdk.ValAddress]: an operator address of [sdk.AddrLen] = 20 bytes, as the
    big-endian number the bytes spell; [bytes.Compare] on two addresses of the
    same length is then the order of [N]. *)
Abbreviation ValAddress := N (only parsing).

(** Consensus addresses and side-chain consensus addresses are byte strings
    too, both used as keys of the one by-consensus-address keyspace. *)
Abbreviation ConsAddress := N (only parsing).

(** [sdk.Dec] by its raw integer ([RawInt]); block times and durations in
    nanoseconds. *)
Abbreviation Dec := Z (only parsing).
Abbreviation Time := Z (only parsing).

(** Go's [int64] addition. *)
Definition wrap64 (z : Z) : Z := (z + 2 ^ 63) mod 2 ^ 64 - 2 ^ 63.

(** [crypto.PubKey] is an interface value: the key bytes and what its
    [Address()] method answers. *)
Record PubKey := mkPubKey { pk_bytes : N; pk_address : ConsAddress }.

Inductive BondStatus := Unbonded | Unbonding | Bonded.

Record Commission := mkCommission {
  Rate : Dec;
  MaxRate : Dec;
  MaxChangeRate : Dec;
  UpdateTime : Time
}.

(** [types.Validator].  [ConsPubKey] is a nilable interface: [None] is
    nil.  The field [Commission] of the source is [ValCommission] here, the
    name being taken by the type. *)
Record Validator := mkValidator {
  OperatorAddr : ValAddress;
  ConsPubKey : option PubKey;
  SideConsAddr : ConsAddress;
  SideChainId : string;
  Jailed : bool;
  Status : BondStatus;
  Tokens : Dec;
  DelegatorShares : Dec;
  BondHeight : Z;
  BondIntraTxCounter : Z;
  UnbondingHeight : Z;
  UnbondingMinTime : Time;
  ValCommission : Commission
}.

Definition set_Jailed (b : bool) (v : Validator) : Validator :=
  mkValidator (OperatorAddr v) (ConsPubKey v) (SideConsAddr v) (SideChainId v)
    b (Status v) (Tokens v) (DelegatorShares v) (BondHeight v)
    (BondIntraTxCounter v) (UnbondingHeight v) (UnbondingMinTime v)
    (ValCommission v).

Definition set_Status (s : BondStatus) (v : Validator) : Validator :=
  mkValidator (OperatorAddr v) (ConsPubKey v) (SideConsAddr v) (SideChainId v)
    (Jailed v) s (Tokens v) (DelegatorShares v) (BondHeight v)
    (BondIntraTxCounter v) (UnbondingHeight v) (UnbondingMinTime v)
    (ValCommission v).

Definition set_BondHeight (h : Z) (v : Validator) : Validator :=
  mkValidator (OperatorAddr v) (ConsPubKey v) (SideConsAddr v) (SideChainId v)
    (Jailed v) (Status v) (Tokens v) (DelegatorShares v) h
    (BondIntraTxCounter v) (UnbondingHeight v) (UnbondingMinTime v)
    (ValCommission v).

Definition set_BondIntraTxCounter (c : Z) (v : Validator) : Validator :=
  mkValidator (OperatorAddr v) (ConsPubKey v) (SideConsAddr v) (SideChainId v)
    (Jailed v) (Status v) (Tokens v) (DelegatorShares v) (BondHeight v)
    c (UnbondingHeight v) (UnbondingMinTime v) (ValCommission v).

Definition set_Unbonding (h : Z) (t : Time) (v : Validator) : Validator :=
  mkValidator (OperatorAddr v) (ConsPubKey v) (SideConsAddr v) (SideChainId v)
    (Jailed v) (Status v) (Tokens v) (DelegatorShares v) (BondHeight v)
    (BondIntraTxCounter v) h t (ValCommission v).

(** [types.Pool]: the chain-wide loose and bonded token totals. *)
Record Pool := mkPool { LooseTokens : Dec; BondedTokens : Dec }.

Record Params := mkParams {
  MaxValidators : nat;      (* uint16 in the source *)
  UnbondingTime : Time
}.

(** [abci.ValidatorUpdate]: consensus public key and power. *)
Record ValidatorUpdate := mkUpdate { upd_PubKey : PubKey; upd_Power : Z }.

(** What leaves the keeper: calls of the staking hooks and events published
    to the pub/sub server. *)
Inductive Event :=
| OnValidatorBonded (cons : ConsAddress) (operator : ValAddress)
| OnSideChainValidatorBonded (side : ConsAddress) (operator : ValAddress)
| OnValidatorBeginUnbonding (cons : ConsAddress) (operator : ValAddress)
| OnSideChainValidatorBeginUnbonding (side : ConsAddress) (operator : ValAddress)
| ValidatorUpdateEvent (isFromTx : bool) (v : Validator)
| ValidatorRemovedEvent (isFromTx : bool) (operator : ValAddress)
    (sideChainId : string).

(** Whether an event is a call of a staking hook. *)
Definition is_hook_call (e : Event) : bool :=
  match e with
  | ValidatorUpdateEvent _ _ | ValidatorRemovedEvent _ _ _ => false
  | _ => true
  end.

(** The store behind [ctx.KVStore(k.storeKey)], one map per keyspace, and the
    events emitted so far (latest last). *)
Record State := mkState {
  validators : gmap N Validator;            (* ValidatorsKey *)
  validatorsByConsAddr : gmap N N;          (* ValidatorsByConsAddrKey *)
  validatorsByPower : gmap (Z * Z * Z * N) N; (* ValidatorsByPowerIndexKey *)
  lastValidatorPower : gmap N Z;            (* LastValidatorPowerKey *)
  validatorQueue : gmap Z (list N);         (* ValidatorQueueKey *)
  lastTotalPower : Z;
  intraTxCounter : Z;
  pool : Pool;
  params : Params;
  emitted : list Event
}.

(** [sdk.Context]: what the keeper reads of it. *)
Record Context := mkContext {
  BlockHeight : Z;
  BlockTime : Time;
  IsDeliverTx : bool;
  HasTx : bool               (* ctx.Tx() != nil *)
}.

(** [Keeper]: whether [k.hooks] and [k.PbsbServer] are set. *)
Record Keeper := mkKeeper { hooks : bool; PbsbServer : bool }.

Definition with_validators (m : gmap N Validator) (s : State) : State :=
  mkState m (validatorsByConsAddr s) (validatorsByPower s)
    (lastValidatorPower s) (validatorQueue s) (lastTotalPower s)
    (intraTxCounter s) (pool s) (params s) (emitted s).

Definition with_validatorsByConsAddr (m : gmap N N) (s : State) : State :=
  mkState (validators s) m (validatorsByPower s)
    (lastValidatorPower s) (validatorQueue s) (lastTotalPower s)
    (intraTxCounter s) (pool s) (params s) (emitted s).

Definition with_validatorsByPower (m : gmap (Z * Z * Z * N) N) (s : State)
  : State :=
  mkState (validators s) (validatorsByConsAddr s) m
    (lastValidatorPower s) (validatorQueue s) (lastTotalPower s)
    (intraTxCounter s) (pool s) (params s) (emitted s).

Definition with_lastValidatorPower (m : gmap N Z) (s : State) : State :=
  mkState (validators s) (validatorsByConsAddr s) (validatorsByPower s)
    m (validatorQueue s) (lastTotalPower s)
    (intraTxCounter s) (pool s) (params s) (emitted s).

Definition with_validatorQueue (m : gmap Z (list N)) (s : State) : State :=
  mkState (validators s) (validatorsByConsAddr s) (validatorsByPower s)
    (lastValidatorPower s) m (lastTotalPower s)
    (intraTxCounter s) (pool s) (params s) (emitted s).

Definition with_lastTotalPower (p : Z) (s : State) : State :=
  mkState (validators s) (validatorsByConsAddr s) (validatorsByPower s)
    (lastValidatorPower s) (validatorQueue s) p
    (intraTxCounter s) (pool s) (params s) (emitted s).

Definition with_intraTxCounter (c : Z) (s : State) : State :=
  mkState (validators s) (validatorsByConsAddr s) (validatorsByPower s)
    (lastValidatorPower s) (validatorQueue s) (lastTotalPower s)
    c (pool s) (params s) (emitted s).

Definition with_pool (p : Pool) (s : State) : State :=
  mkState (validators s) (validatorsByConsAddr s) (validatorsByPower s)
    (lastValidatorPower s) (validatorQueue s) (lastTotalPower s)
    (intraTxCounter s) p (params s) (emitted s).

Definition emit (e : Event) (s : State) : State :=
  mkState (validators s) (validatorsByConsAddr s) (validatorsByPower s)
    (lastValidatorPower s) (validatorQueue s) (lastTotalPower s)
    (intraTxCounter s) (pool s) (params s) (emitted s ++ [e]).

(** ** Panics *)

Inductive Res (A : Type) : Type :=
| Ok (a : A)
| Panic (msg : string).
Arguments Ok {A} a.
Arguments Panic {A} msg.

Definition bind {A B : Type} (r : Res A) (k : A → Res B) : Res B :=
  match r with
  | Ok a => k a
  | Panic msg => Panic msg
  end.

Notation "'let*' x ':=' c 'in' k" := (bind c (fun x => k))
  (at level 10, x pattern, c at level 100, k at level 200,
   only parsing).

(** ** Methods of [types.Validator] and [types.Pool] *)

(** Modelled from the spec: [IsSideChainValidator] of [x/stake/types], which
    is not among the sources; the consensus identity is a consensus public key
    on the main chain or a side-chain consensus address, and a validator
    is a side-chain validator when it names a side chain. *)
Definition IsSideChainValidator (v : Validator) : bool :=
  negb (String.eqb (SideChainId v) "").

Definition IsUnbonding (v : Validator) : bool :=
  match Status v with Unbonding => true | _ => false end.

(** [validator.ConsAddress()] is [sdk.ConsAddress(v.ConsPubKey.Address())]: a
    method call through the interface, which panics on nil. *)
Definition ConsAddressOf (v : Validator) : Res ConsAddress :=
  match ConsPubKey v with
  | Some pk => Ok (pk_address pk)
  | None => Panic "nil pointer dereference"
  end.

(** Modelled from the spec: [BondedTokens] of [x/stake/types]; the bonded
    power of a validator is its tokens while it is bonded and zero
    otherwise. *)
Definition BondedTokensOf (v : Validator) : Dec :=
  match Status v with Bonded => Tokens v | _ => 0 end.

(** Modelled from the spec: [UpdateStatus] of [x/stake/types]; a status
    change updates the pool and the status only, moving the validator's
    tokens between the loose and the bonded total when it enters or leaves
    [Bonded]. *)
Definition UpdateStatus (v : Validator) (p : Pool) (new : BondStatus)
  : Validator * Pool :=
  let p' :=
    match Status v, new with
    | Bonded, Bonded => p
    | Bonded, _ => mkPool (LooseTokens p + Tokens v) (BondedTokens p - Tokens v)
    | _, Bonded => mkPool (LooseTokens p - Tokens v) (BondedTokens p + Tokens v)
    | _, _ => p
    end in
  (set_Status new v, p').

(** Modelled from the spec: the consensus-update record carries the
    validator's consensus identity and its new power, zero meaning
    removal ([ABCIValidatorUpdate], [ABCIValidatorUpdateZero]). *)
Definition ABCIValidatorUpdate (pk : PubKey) (v : Validator) : ValidatorUpdate :=
  mkUpdate pk (BondedTokensOf v).

Definition ABCIValidatorUpdateZero (pk : PubKey) (v : Validator)
  : ValidatorUpdate :=
  mkUpdate pk 0.

(** Modelled from the spec: the power-index key
    [GetValidatorsByPowerIndexKey], encoding power, bond height, intra-tx
    counter and operator address; the jailed flag is no part of it. *)
Definition GetValidatorsByPowerIndexKey (v : Validator) : Z * Z * Z * N :=
  (Tokens v, BondHeight v, BondIntraTxCounter v, OperatorAddr v).

(** The order in which the reverse iterator meets two keys: power
    descending, then bond height, counter and address ascending. *)
Definition power_key_before (a b : Z * Z * Z * N) : Prop :=
  let '(pa, ha, ca, oa) := a in
  let '(pb, hb, cb, ob) := b in
  pb < pa ∨ (pa = pb ∧ (ha < hb ∨ (ha = hb ∧ (ca < cb ∨
    (ca = cb ∧ (oa ≤ ob)%N))))).

Global Instance power_key_before_dec a b : Decision (power_key_before a b).
Proof.
  destruct a as [[[pa ha] ca] oa], b as [[[pb hb] cb] ob]; simpl.
  apply _.
Defined.

(** ** The validator store *)

Definition GetValidator (s : State) (addr : ValAddress) : option Validator :=
  validators s !! addr.

Definition mustGetValidator (s : State) (addr : ValAddress) : Res Validator :=
  match GetValidator s addr with
  | Some v => Ok v
  | None => Panic "validator record not found for address"
  end.

Definition GetValidatorByConsAddr (s : State) (consAddr : ConsAddress)
  : option Validator :=
  match validatorsByConsAddr s !! consAddr with
  | None => None
  | Some opAddr => GetValidator s opAddr
  end.

(** The publish step shared by [SetValidator] and [RemoveValidator]. *)
Definition publish (k : Keeper) (ctx : Context) (e : Event) (s : State)
  : State :=
  if PbsbServer k && IsDeliverTx ctx then emit e s else s.

Definition SetValidator (k : Keeper) (ctx : Context) (v : Validator)
  (s : State) : State :=
  publish k ctx (ValidatorUpdateEvent (HasTx ctx) v)
    (with_validators (<[OperatorAddr v := v]> (validators s)) s).

Definition SetValidatorByConsAddr (v : Validator) (s : State) : Res State :=
  if IsSideChainValidator v then
    Ok (with_validatorsByConsAddr
          (<[SideConsAddr v := OperatorAddr v]> (validatorsByConsAddr s)) s)
  else
    let* consAddr := ConsAddressOf v in
    Ok (with_validatorsByConsAddr
          (<[consAddr := OperatorAddr v]> (validatorsByConsAddr s)) s).

Definition SetValidatorByPowerIndex (v : Validator) (s : State) : State :=
  if Jailed v then s
  else with_validatorsByPower
         (<[GetValidatorsByPowerIndexKey v := OperatorAddr v]>
            (validatorsByPower s)) s.

Definition DeleteValidatorByPowerIndex (v : Validator) (s : State) : State :=
  with_validatorsByPower
    (delete (GetValidatorsByPowerIndexKey v) (validatorsByPower s)) s.

Definition SetNewValidatorByPowerIndex (v : Validator) (s : State) : State :=
  with_validatorsByPower
    (<[GetValidatorsByPowerIndexKey v := OperatorAddr v]>
       (validatorsByPower s)) s.

(** *** Token and share mutations

    The share/token conversions are methods of [types.Validator], which is
    not among the sources; the keeper functions are embedded for any
    conversion.  [counterBits] is the width of the signed integer type of
    the intra-tx counter. *)
Section TokenMutations.
Variable counterBits : Z.
Variable AddTokensFromDel :
  Validator → Pool → Z → Res (Validator * Pool * Dec).
Variable RemoveDelShares :
  Validator → Pool → Dec → Res (Validator * Pool * Dec).
Variable RemoveTokens : Validator → Pool → Dec → Res (Validator * Pool).

(** Go's [counter+1] at the counter's type. *)
Definition counterSucc (c : Z) : Z :=
  (c + 1 + 2 ^ (counterBits - 1)) mod 2 ^ counterBits
  - 2 ^ (counterBits - 1).

Definition AddValidatorTokensAndShares (k : Keeper) (ctx : Context)
    (validator : Validator) (tokensToAdd : Z) (s : State)
  : Res (Validator * Dec * State) :=
  let pool0 := pool s in
  let s := DeleteValidatorByPowerIndex validator s in
  let* (validator, pool1, addedShares) :=
    AddTokensFromDel validator pool0 tokensToAdd in
  let counter := intraTxCounter s in
  let validator := set_BondIntraTxCounter counter validator in
  let s := with_intraTxCounter (counterSucc counter) s in
  let s := SetValidator k ctx validator s in
  let s := with_pool pool1 s in
  let s := SetValidatorByPowerIndex validator s in
  Ok (validator, addedShares, s).

Definition RemoveValidatorTokensAndShares (k : Keeper) (ctx : Context)
    (validator : Validator) (sharesToRemove : Dec) (s : State)
  : Res (Validator * Dec * State) :=
  let pool0 := pool s in
  let s := DeleteValidatorByPowerIndex validator s in
  let* (validator, pool1, removedTokens) :=
    RemoveDelShares validator pool0 sharesToRemove in
  let s := SetValidator k ctx validator s in
  let s := with_pool pool1 s in
  let s := SetValidatorByPowerIndex validator s in
  Ok (validator, removedTokens, s).

Definition RemoveValidatorTokens (k : Keeper) (ctx : Context)
    (validator : Validator) (tokensToRemove : Dec) (s : State)
  : Res (Validator * State) :=
  let pool0 := pool s in
  let s := DeleteValidatorByPowerIndex validator s in
  let* (validator, pool1) :=
    RemoveTokens validator pool0 tokensToRemove in
  let s := SetValidator k ctx validator s in
  let s := with_pool pool1 s in
  let s := SetValidatorByPowerIndex validator s in
  Ok (validator, s).
End TokenMutations.

(** *** Commission

    [ValidateNewRate] is a method of [types.Commission], not among the
    sources: it answers an error or nil. *)
Section CommissionUpdate.
Variable Error : Type.
Variable ValidateNewRate : Commission → Dec → Time → option Error.

(** The function only reads its arguments; the state it hands back is the
    store as it leaves the call. *)
Definition UpdateValidatorCommission (ctx : Context) (validator : Validator)
    (newRate : Dec) (s : State) : Commission * option Error * State :=
  let commission := ValCommission validator in
  let blockTime := BlockTime ctx in
  match ValidateNewRate commission newRate blockTime with
  | Some err => (commission, Some err, s)
  | None =>
      (mkCommission newRate (MaxRate commission) (MaxChangeRate commission)
         blockTime, None, s)
  end.
End CommissionUpdate.

(** *** Removal *)

Definition RemoveValidator (k : Keeper) (ctx : Context) (address : ValAddress)
    (s : State) : Res State :=
  match GetValidator s address with
  | None => Ok s
  | Some validator =>
      let s := with_validators (delete address (validators s)) s in
      let* consKey :=
        if IsSideChainValidator validator then Ok (SideConsAddr validator)
        else ConsAddressOf validator in
      let s := with_validatorsByConsAddr
                 (delete consKey (validatorsByConsAddr s)) s in
      let s := with_validatorsByPower
                 (delete (GetValidatorsByPowerIndexKey validator)
                    (validatorsByPower s)) s in
      Ok (publish k ctx
            (ValidatorRemovedEvent (HasTx ctx) (OperatorAddr validator)
               (SideChainId validator)) s)
  end.

(** *** The unbonding queue *)

Definition GetValidatorQueueTimeSlice (s : State) (timestamp : Time)
  : list ValAddress :=
  default [] (validatorQueue s !! timestamp).

Definition SetValidatorQueueTimeSlice (timestamp : Time)
    (keys : list ValAddress) (s : State) : State :=
  with_validatorQueue (<[timestamp := keys]> (validatorQueue s)) s.

Definition InsertValidatorQueue (val : Validator) (s : State) : State :=
  let timeSlice := GetValidatorQueueTimeSlice s (UnbondingMinTime val) in
  if (length timeSlice =? 0)%nat then
    SetValidatorQueueTimeSlice (UnbondingMinTime val) [OperatorAddr val] s
  else
    SetValidatorQueueTimeSlice (UnbondingMinTime val)
      (timeSlice ++ [OperatorAddr val]) s.

Definition timeslice_before (a b : Time * list ValAddress) : Prop :=
  a.1 ≤ b.1.

Global Instance timeslice_before_dec a b : Decision (timeslice_before a b).
Proof. unfold timeslice_before. apply _. Defined.

(** The timeslices from time 0 to [endTime] inclusive, earliest first, as
    the iterator holds them when it is opened. *)
Definition ValidatorQueueIterator (s : State) (endTime : Time)
  : list (Time * list ValAddress) :=
  merge_sort timeslice_before
    (filter (λ kv, kv.1 ≤ endTime) (map_to_list (validatorQueue s))).

(** ** State transitions *)

(** The hook call at the end of [bondValidator] and
    [beginUnbondingValidator]: nothing when [k.hooks] is nil. *)
Definition callHook (k : Keeper) (validator : Validator)
    (side main : ConsAddress → ValAddress → Event) (s : State) : Res State :=
  if hooks k then
    if IsSideChainValidator validator then
      Ok (emit (side (SideConsAddr validator) (OperatorAddr validator)) s)
    else
      let* consAddr := ConsAddressOf validator in
      Ok (emit (main consAddr (OperatorAddr validator)) s)
  else Ok s.

Definition bondValidator (k : Keeper) (ctx : Context) (validator : Validator)
    (s : State) : Res (Validator * State) :=
  let pool0 := pool s in
  let s := DeleteValidatorByPowerIndex validator s in
  let validator := set_BondHeight (BlockHeight ctx) validator in
  let '(validator, pool1) := UpdateStatus validator pool0 Bonded in
  let s := with_pool pool1 s in
  let s := SetValidator k ctx validator s in
  let s := SetValidatorByPowerIndex validator s in
  let* s := callHook k validator OnSideChainValidatorBonded
              OnValidatorBonded s in
  Ok (validator, s).

Definition beginUnbondingValidator (k : Keeper) (ctx : Context)
    (validator : Validator) (s : State) : Res (Validator * State) :=
  let pool0 := pool s in
  let params0 := params s in
  let s := DeleteValidatorByPowerIndex validator s in
  match Status validator with
  | Bonded =>
      let '(validator, pool1) := UpdateStatus validator pool0 Unbonding in
      let s := with_pool pool1 s in
      let validator :=
        set_Unbonding (BlockHeight ctx)
          (BlockTime ctx + UnbondingTime params0) validator in
      let s := SetValidator k ctx validator s in
      let s := SetValidatorByPowerIndex validator s in
      let s := InsertValidatorQueue validator s in
      let* s := callHook k validator OnSideChainValidatorBeginUnbonding
                  OnValidatorBeginUnbonding s in
      Ok (validator, s)
  | _ => Panic "should not already be unbonded or unbonding"
  end.

Definition completeUnbondingValidator (k : Keeper) (ctx : Context)
    (validator : Validator) (s : State) : Validator * State :=
  let pool0 := pool s in
  let '(validator, pool1) := UpdateStatus validator pool0 Unbonded in
  let s := with_pool pool1 s in
  let s := SetValidator k ctx validator s in
  (validator, s).

Definition bondedToUnbonding (k : Keeper) (ctx : Context)
    (validator : Validator) (s : State) : Res (Validator * State) :=
  match Status validator with
  | Bonded => beginUnbondingValidator k ctx validator s
  | _ => Panic "bad state transition bondedToUnbonding"
  end.

Definition unbondingToBonded (k : Keeper) (ctx : Context)
    (validator : Validator) (s : State) : Res (Validator * State) :=
  match Status validator with
  | Unbonding => bondValidator k ctx validator s
  | _ => Panic "bad state transition unbondingToBonded"
  end.

Definition unbondedToBonded (k : Keeper) (ctx : Context)
    (validator : Validator) (s : State) : Res (Validator * State) :=
  match Status validator with
  | Unbonded => bondValidator k ctx validator s
  | _ => Panic "bad state transition unbondedToBonded"
  end.

Definition unbondingToUnbonded (k : Keeper) (ctx : Context)
    (validator : Validator) (s : State) : Res (Validator * State) :=
  match Status validator with
  | Unbonding => Ok (completeUnbondingValidator k ctx validator s)
  | _ => Panic "bad state transition unbondingToBonded"
  end.

Definition jailValidator (k : Keeper) (ctx : Context) (validator : Validator)
    (s : State) : Res State :=
  if Jailed validator then Panic "cannot jail already jailed validator"
  else
    let validator := set_Jailed true validator in
    let s := SetValidator k ctx validator s in
    Ok (DeleteValidatorByPowerIndex validator s).

Definition unjailValidator (k : Keeper) (ctx : Context) (validator : Validator)
    (s : State) : Res State :=
  if negb (Jailed validator) then
    Panic "cannot unjail already unjailed validator"
  else
    let validator := set_Jailed false validator in
    let s := SetValidator k ctx validator s in
    Ok (SetValidatorByPowerIndex validator s).

(** ** Draining the unbonding queue *)

(** One operator of a timeslice. *)
Definition unbondMature (k : Keeper) (ctx : Context) (s : State)
    (valAddr : ValAddress) : Res State :=
  match GetValidator s valAddr with
  | None => Ok s
  | Some val =>
      if negb (IsUnbonding val) then Ok s
      else
        let* (_, s) := unbondingToUnbonded k ctx val s in
        if DelegatorShares val =? 0
        then RemoveValidator k ctx (OperatorAddr val) s
        else Ok s
  end.

Fixpoint unbondTimeslice (k : Keeper) (ctx : Context)
    (timeslice : list ValAddress) (s : State) : Res State :=
  match timeslice with
  | [] => Ok s
  | valAddr :: rest =>
      let* s := unbondMature k ctx s valAddr in
      unbondTimeslice k ctx rest s
  end.

Fixpoint unbondTimeslices (k : Keeper) (ctx : Context)
    (it : list (Time * list ValAddress)) (s : State) : Res State :=
  match it with
  | [] => Ok s
  | (key, timeslice) :: rest =>
      let* s := unbondTimeslice k ctx timeslice s in
      let s := with_validatorQueue (delete key (validatorQueue s)) s in
      unbondTimeslices k ctx rest s
  end.

Definition UnbondAllMatureValidatorQueue (k : Keeper) (ctx : Context)
    (s : State) : Res State :=
  unbondTimeslices k ctx (ValidatorQueueIterator s (BlockTime ctx)) s.

(** ** The validator-set diff *)

(** The last-validator-power keyspace: a power per operator,
    and the total.  The serialized powers of the source are compared with
    [bytes.Equal]; the encoding is injective, so the powers themselves are
    kept. *)
Definition SetLastValidatorPower (operator : ValAddress) (power : Z)
    (s : State) : State :=
  with_lastValidatorPower (<[operator := power]> (lastValidatorPower s)) s.

Definition DeleteLastValidatorPower (operator : ValAddress) (s : State)
  : State :=
  with_lastValidatorPower (delete operator (lastValidatorPower s)) s.

Definition SetLastTotalPower (power : Z) (s : State) : State :=
  with_lastTotalPower power s.

Definition getLastValidatorsByAddr (s : State) : gmap N Z :=
  lastValidatorPower s.

Definition sortNoLongerBonded (last : gmap N Z) : list ValAddress :=
  merge_sort N.le (map_to_list last).*1.

Definition power_entry_before (a b : (Z * Z * Z * N) * N) : Prop :=
  power_key_before a.1 b.1.

Global Instance power_entry_before_dec a b : Decision (power_entry_before a b).
Proof. unfold power_entry_before. apply _. Defined.

(** [sdk.KVStoreReversePrefixIterator(store, ValidatorsByPowerIndexKey)]: the
    operators of the power index as the iterator yields them, highest power
    first; the iterator holds the entries that were there when it was
    opened. *)
Definition powerIterator (s : State) : list ValAddress :=
  (merge_sort power_entry_before (map_to_list (validatorsByPower s))).*2.

(** The variables of the candidate loop.  Each update is kept with the
    operator in whose turn it was appended; the list the source builds is the
    second components. *)
Record LoopState := mkLoop {
  ls_state : State;
  ls_last : gmap N Z;
  ls_newVals : list Validator;
  ls_updates : list (ValAddress * ValidatorUpdate);
  ls_count : nat;
  ls_totalPower : Z
}.

(** The status switch of the candidate loop.  [BondStatus] has the three
    statuses only, so the [default] branch of the source has no case. *)
Definition applyStateChange (k : Keeper) (ctx : Context)
    (validator : Validator) (s : State) : Res (Validator * State) :=
  match Status validator with
  | Unbonded => unbondedToBonded k ctx validator s
  | Unbonding => unbondingToBonded k ctx validator s
  | Bonded => Ok (validator, s)
  end.

(** One turn of the candidate loop; [None] is [break]. *)
Definition candidateStep (k : Keeper) (ctx : Context) (ls : LoopState)
    (operator : ValAddress) : Res (option LoopState) :=
  let s := ls_state ls in
  let* validator := mustGetValidator s operator in
  if Jailed validator then
    Panic "should never retrieve a jailed validator from the power store"
  else if Tokens validator =? 0 then Ok None
  else
    let* (validator, s) := applyStateChange k ctx validator s in
    let newVals := ls_newVals ls ++ [validator] in
    let newPower := BondedTokensOf validator in
    let changed :=
      match ls_last ls !! operator with
      | None => true
      | Some oldPower => negb (oldPower =? newPower)
      end in
    let updates :=
      if changed then
        match ConsPubKey validator with
        | Some pk =>
            ls_updates ls ++ [(operator, ABCIValidatorUpdate pk validator)]
        | None => ls_updates ls
        end
      else ls_updates ls in
    let s := if changed then SetLastValidatorPower operator newPower s
             else s in
    Ok (Some (mkLoop s (delete operator (ls_last ls)) newVals updates
                (S (ls_count ls)) (wrap64 (ls_totalPower ls + newPower)))).

Fixpoint candidateLoop (k : Keeper) (ctx : Context) (maxValidators : nat)
    (it : list ValAddress) (ls : LoopState) : Res LoopState :=
  match it with
  | [] => Ok ls
  | operator :: rest =>
      if (ls_count ls <? maxValidators)%nat then
        let* r := candidateStep k ctx ls operator in
        match r with
        | None => Ok ls
        | Some ls => candidateLoop k ctx maxValidators rest ls
        end
      else Ok ls
  end.

(** One turn of the loop over the no-longer-bonded operators. *)
Definition removalStep (k : Keeper) (ctx : Context)
    (acc : State * list (ValAddress * ValidatorUpdate))
    (operator : ValAddress)
  : Res (State * list (ValAddress * ValidatorUpdate)) :=
  let '(s, updates) := acc in
  let* validator := mustGetValidator s operator in
  let* (_, s) := bondedToUnbonding k ctx validator s in
  let* s :=
    if Tokens validator =? 0
    then RemoveValidator k ctx (OperatorAddr validator) s
    else Ok s in
  let s := DeleteLastValidatorPower operator s in
  let updates :=
    match ConsPubKey validator with
    | Some pk => updates ++ [(operator, ABCIValidatorUpdateZero pk validator)]
    | None => updates
    end in
  Ok (s, updates).

Fixpoint removalLoop (k : Keeper) (ctx : Context)
    (noLongerBonded : list ValAddress)
    (acc : State * list (ValAddress * ValidatorUpdate))
  : Res (State * list (ValAddress * ValidatorUpdate)) :=
  match noLongerBonded with
  | [] => Ok acc
  | operator :: rest =>
      let* acc := removalStep k ctx acc operator in
      removalLoop k ctx rest acc
  end.

(** The function on a given iteration of the power index. *)
Definition applyUpdatesOver (k : Keeper) (ctx : Context)
    (it : list ValAddress) (s : State)
  : Res (list Validator * list (ValAddress * ValidatorUpdate) * State) :=
  let maxValidators := MaxValidators (params s) in
  let last := getLastValidatorsByAddr s in
  let* ls := candidateLoop k ctx maxValidators it
               (mkLoop s last [] [] 0%nat 0) in
  let noLongerBonded := sortNoLongerBonded (ls_last ls) in
  let* (s, updates) :=
    removalLoop k ctx noLongerBonded (ls_state ls, ls_updates ls) in
  let s := if (0 <? length updates)%nat
           then SetLastTotalPower (ls_totalPower ls) s else s in
  Ok (ls_newVals ls, updates, s).

(** [ApplyAndReturnValidatorSetUpdates], each update with its operator. *)
Definition ApplyAndReturnValidatorSetUpdatesBy (k : Keeper) (ctx : Context)
    (s : State)
  : Res (list Validator * list (ValAddress * ValidatorUpdate) * State) :=
  applyUpdatesOver k ctx (powerIterator s) s.

(** [ApplyAndReturnValidatorSetUpdates] with the results as the source
    returns them. *)
Definition ApplyAndReturnValidatorSetUpdates (k : Keeper) (ctx : Context)
    (s : State) : Res (list Validator * list ValidatorUpdate * State) :=
  let* (newVals, updates, s) := ApplyAndReturnValidatorSetUpdatesBy k ctx s in
  Ok (newVals, updates.*2, s).

(** ** Sample data *)

Definition sampleCommission : Commission := mkCommission 0 100 10 0.

Definition sampleValidator (operator : ValAddress) (key : option PubKey)
    (status : BondStatus) (tokens shares : Dec) : Validator :=
  mkValidator operator key 0%N "" false status tokens shares 0 0 0 0
    sampleCommission.

Definition emptyState (maxValidators : nat) : State :=
  mkState ∅ ∅ ∅ ∅ ∅ 0 0 (mkPool 1000 0) (mkParams maxValidators 100) [].

Definition sampleCtx : Context := mkContext 7 1000 true true.
Definition sampleKeeper : Keeper := mkKeeper true true.

(** Storing a validator with its power-index entry. *)
Definition addValidator (v : Validator) (s : State) : State :=
  SetNewValidatorByPowerIndex v
    (with_validators (<[OperatorAddr v := v]> (validators s)) s).

Definition pkA : PubKey := mkPubKey 11 111.
Definition pkB : PubKey := mkPubKey 22 222.
Definition pkC : PubKey := mkPubKey 33 333.

Definition set_TokensShares (t sh : Dec) (v : Validator) : Validator :=
  mkValidator (OperatorAddr v) (ConsPubKey v) (SideConsAddr v) (SideChainId v)
    (Jailed v) (Status v) t sh (BondHeight v) (BondIntraTxCounter v)
    (UnbondingHeight v) (UnbondingMinTime v) (ValCommission v).

(** A conversion at exchange rate one, for the examples. *)
Definition unitAddTokens (v : Validator) (p : Pool) (amount : Z)
  : Res (Validator * Pool * Dec) :=
  let p' := match Status v with
            | Bonded => mkPool (LooseTokens p - amount) (BondedTokens p + amount)
            | _ => p
            end in
  Ok (set_TokensShares (Tokens v + amount) (DelegatorShares v + amount) v,
      p', amount).

Definition unitRemoveShares (v : Validator) (p : Pool) (shares : Dec)
  : Res (Validator * Pool * Dec) :=
  let p' := match Status v with
            | Bonded => mkPool (LooseTokens p + shares) (BondedTokens p - shares)
            | _ => p
            end in
  Ok (set_TokensShares (Tokens v - shares) (DelegatorShares v - shares) v,
      p', shares).

Inductive CommissionError :=
| ErrCommissionUpdateTime
| ErrCommissionNegative
| ErrCommissionGTMaxRate
| ErrCommissionGTMaxChangeRate.

(** Modelled from the spec: a new commission rate is invalid when it was
    changed too recently (within 24 hours here), is outside the bounds, or
    is too large a single adjustment. *)
Definition ValidateNewRate (c : Commission) (newRate : Dec) (blockTime : Time)
  : option CommissionError :=
  if blockTime - UpdateTime c <? 24 * 3600 * 1000000000
  then Some ErrCommissionUpdateTime
  else if newRate <? 0 then Some ErrCommissionNegative
  else if MaxRate c <? newRate then Some ErrCommissionGTMaxRate
  else if MaxChangeRate c <? Z.abs (newRate - Rate c)
  then Some ErrCommissionGTMaxChangeRate
  else None.

(** * Properties *)

(** ** Removing a validator *)

(** The by-consensus-address key of a validator: the side-chain consensus
    address of a side-chain validator, the address of the consensus public
    key otherwise. *)
Definition consKeyOf (v : Validator) : option ConsAddress :=
  if IsSideChainValidator v then Some (SideConsAddr v)
  else pk_address <$> ConsPubKey v.

(** C10: removing an operator that has no validator record returns without
    a panic and hands back the state as it was, every keyspace included. *)
Theorem RemoveValidator_not_found k ctx s address :
  GetValidator s address = None →
  RemoveValidator k ctx address s = Ok s.
Proof. intros H. unfold RemoveValidator. by rewrite H. Qed.

Lemma RemoveValidator_not_found_witness :
  GetValidator (emptyState 2) 5%N = None
  ∧ RemoveValidator sampleKeeper sampleCtx 5%N (emptyState 2)
    = Ok (emptyState 2).
Proof.
  split; [reflexivity|].
  apply (RemoveValidator_not_found sampleKeeper sampleCtx (emptyState 2) 5%N).
  reflexivity.
Defined.

(** What [RemoveValidator] does for an operator whose record carries its
    consensus identity: it returns, and afterwards the record, its
    by-consensus-address entry and its power-index entry are gone; the only
    notification is the [ValidatorRemovedEvent] published when a pub/sub
    server is set and the context delivers a transaction. *)
Lemma RemoveValidator_found k ctx s address v c :
  GetValidator s address = Some v →
  consKeyOf v = Some c →
  ∃ s', RemoveValidator k ctx address s = Ok s'
    ∧ validators s' !! address = None
    ∧ validatorsByConsAddr s' !! c = None
    ∧ validatorsByPower s' !! GetValidatorsByPowerIndexKey v = None
    ∧ emitted s'
      = emitted s ++
        (if PbsbServer k && IsDeliverTx ctx
         then [ValidatorRemovedEvent (HasTx ctx) (OperatorAddr v)
                 (SideChainId v)]
         else [])
    ∧ filter (λ e, is_hook_call e = true) (emitted s')
      = filter (λ e, is_hook_call e = true) (emitted s).
Proof.
  intros Hget Hc. unfold RemoveValidator. rewrite Hget.
  assert (Hkey : (if IsSideChainValidator v then Ok (SideConsAddr v)
                  else ConsAddressOf v) = Ok c).
  { unfold consKeyOf, ConsAddressOf in *.
    destruct (IsSideChainValidator v); [congruence|].
    destruct (ConsPubKey v); simpl in Hc; congruence. }
  rewrite Hkey. simpl. eexists. split; [reflexivity|].
  unfold publish.
  destruct (PbsbServer k && IsDeliverTx ctx); simpl;
    rewrite !lookup_delete_eq; repeat split; try done.
  - rewrite filter_app, filter_cons_False by done.
    by rewrite filter_nil, app_nil_r.
  - by rewrite app_nil_r.
Qed.

Definition removalState : State :=
  addValidator (sampleValidator 1 (Some pkA) Unbonded 100 100)
    (with_validatorsByConsAddr {[ 111%N := 1%N ]} (emptyState 2)).

Lemma RemoveValidator_found_example :
  ∃ s', RemoveValidator sampleKeeper sampleCtx 1%N removalState = Ok s'
    ∧ validators s' !! 1%N = None
    ∧ validatorsByConsAddr s' !! 111%N = None
    ∧ validatorsByPower s' !! (100, 0, 0, 1%N) = None
    ∧ emitted s' = [ValidatorRemovedEvent true 1%N ""]
    ∧ filter (λ e, is_hook_call e = true) (emitted s') = [].
Proof.
  exact (RemoveValidator_found sampleKeeper sampleCtx removalState 1%N
           (sampleValidator 1 (Some pkA) Unbonded 100 100) 111%N
           eq_refl eq_refl).
Defined.

(** C6: removing an existing validator deletes its record, its
    by-consensus-address entry and its power-index entry, but no staking
    hook is called although the hooks are set: the events emitted are the
    published [ValidatorRemovedEvent] alone, and nothing at all without a
    pub/sub server. *)
Theorem RemoveValidator_calls_no_hook :
  GetValidator removalState 1%N
    = Some (sampleValidator 1 (Some pkA) Unbonded 100 100)
  ∧ (∃ s', RemoveValidator (mkKeeper true true) sampleCtx 1%N removalState
           = Ok s'
       ∧ validators s' !! 1%N = None
       ∧ validatorsByConsAddr s' !! 111%N = None
       ∧ validatorsByPower s' !! (100, 0, 0, 1%N) = None
       ∧ emitted s' = [ValidatorRemovedEvent true 1%N ""]
       ∧ Forall (λ e, is_hook_call e = false) (emitted s'))
  ∧ (∃ s', RemoveValidator (mkKeeper true false) sampleCtx 1%N removalState
           = Ok s'
       ∧ emitted s' = []).
Proof.
  split; [reflexivity|]. split.
  - eexists. split; [reflexivity|]. do 4 (split; [reflexivity|]).
    repeat constructor.
  - eexists. split; reflexivity.
Qed.

(** ** Commission updates *)

(** C8: when the proposed rate fails validation, whatever the reason,
    [UpdateValidatorCommission] returns the error with the commission the
    validator had, and the store is as before: the stored validator and its
    commission are unmodified. *)
Theorem UpdateValidatorCommission_invalid (Error : Type)
    (validate : Commission → Z → Z → option Error)
    ctx validator newRate s err :
  validate (ValCommission validator) newRate (BlockTime ctx) = Some err →
  UpdateValidatorCommission Error validate ctx validator newRate s
  = (ValCommission validator, Some err, s).
Proof.
  intros Hv. unfold UpdateValidatorCommission. by rewrite Hv.
Qed.

Lemma UpdateValidatorCommission_invalid_witness :
  ValidateNewRate
    (ValCommission (sampleValidator 1 (Some pkA) Unbonded 100 100))
    200 (BlockTime (mkContext 7 (100 * 3600 * 1000000000) true true))
  = Some ErrCommissionGTMaxRate
  ∧ UpdateValidatorCommission CommissionError ValidateNewRate
      (mkContext 7 (100 * 3600 * 1000000000) true true)
      (sampleValidator 1 (Some pkA) Unbonded 100 100) 200 removalState
    = (sampleCommission, Some ErrCommissionGTMaxRate, removalState).
Proof.
  split; [reflexivity|].
  apply (UpdateValidatorCommission_invalid CommissionError ValidateNewRate
           (mkContext 7 (100 * 3600 * 1000000000) true true)
           (sampleValidator 1 (Some pkA) Unbonded 100 100) 200 removalState
           ErrCommissionGTMaxRate).
  reflexivity.
Defined.

(** ** The intra-tx counter *)

(** C3, as the code has it: adding tokens gives the validator the current
    intra-tx counter and advances the stored counter by one, so that of two
    validators whose tokens are added one after the other the first carries
    the earlier counter value (short of overflow of the counter); removing
    shares assigns no counter: the stored counter stays and the validator
    is returned as the share conversion left it. *)
Theorem intra_tx_counter_assignment (bits : Z)
    (addTokens removeShares : Validator → Pool → Z → Res (Validator * Pool * Z))
    k ctx s :
  0 < bits →
  intraTxCounter s + 1 < 2 ^ (bits - 1) →
  - 2 ^ (bits - 1) ≤ intraTxCounter s →
  (∀ v n v' sh s',
     AddValidatorTokensAndShares bits addTokens k ctx v n s = Ok (v', sh, s') →
     BondIntraTxCounter v' = intraTxCounter s
     ∧ intraTxCounter s' = intraTxCounter s + 1
     ∧ validators s' !! OperatorAddr v' = Some v'
     ∧ ∀ w m w' sh' s'',
         AddValidatorTokensAndShares bits addTokens k ctx w m s'
           = Ok (w', sh', s'') →
         BondIntraTxCounter v' < BondIntraTxCounter w')
  ∧ (∀ v n v' tk s',
     RemoveValidatorTokensAndShares removeShares k ctx v n s
       = Ok (v', tk, s') →
     intraTxCounter s' = intraTxCounter s
     ∧ ∃ p, removeShares v (pool s) n = Ok (v', p, tk)).
Proof.
  intros Hbits Hhi Hlo.
  assert (Hsucc : counterSucc bits (intraTxCounter s) = intraTxCounter s + 1).
  { unfold counterSucc.
    assert (H2 : 2 ^ bits = 2 * 2 ^ (bits - 1)).
    { rewrite <- Z.pow_succ_r by lia. f_equal. lia. }
    rewrite H2. rewrite Z.mod_small; lia. }
  split.
  - intros v n v' sh s' Hadd.
    unfold AddValidatorTokensAndShares in Hadd.
    destruct (addTokens v (pool s) n) as [[[v1 p1] sh1]|] eqn:E;
      simpl in Hadd; [|discriminate].
    injection Hadd as <- <- <-.
    assert (Hc : intraTxCounter
                   (SetValidatorByPowerIndex
                      (set_BondIntraTxCounter (intraTxCounter s) v1)
                      (with_pool p1
                         (SetValidator k ctx
                            (set_BondIntraTxCounter (intraTxCounter s) v1)
                            (with_intraTxCounter
                               (counterSucc bits (intraTxCounter s))
                               (DeleteValidatorByPowerIndex v s)))))
                 = intraTxCounter s + 1).
    { unfold SetValidatorByPowerIndex, SetValidator, publish.
      rewrite <- Hsucc.
      destruct (Jailed _), (PbsbServer k && IsDeliverTx ctx); reflexivity. }
    split; [reflexivity|]. split; [exact Hc|]. split.
    + unfold SetValidatorByPowerIndex, SetValidator, publish.
      destruct (Jailed _), (PbsbServer k && IsDeliverTx ctx); simpl;
        apply lookup_insert_eq.
    + intros w m w' sh' s'' Hadd2.
      unfold AddValidatorTokensAndShares in Hadd2.
      match type of Hadd2 with
      | context [addTokens w ?p m] =>
          destruct (addTokens w p m) as [[[w1 q1] sh2]|] eqn:E2
      end; simpl in Hadd2; [|discriminate].
      injection Hadd2 as <- <- <-.
      simpl BondIntraTxCounter at 1.
      change (intraTxCounter s
              < intraTxCounter
                  (DeleteValidatorByPowerIndex w
                     (SetValidatorByPowerIndex
                        (set_BondIntraTxCounter (intraTxCounter s) v1)
                        (with_pool p1
                           (SetValidator k ctx
                              (set_BondIntraTxCounter (intraTxCounter s) v1)
                              (with_intraTxCounter
                                 (counterSucc bits (intraTxCounter s))
                                 (DeleteValidatorByPowerIndex v s))))))).
      unfold DeleteValidatorByPowerIndex at 1. simpl intraTxCounter at 2.
      rewrite Hc. lia.
  - intros v n v' tk s' Hrem.
    unfold RemoveValidatorTokensAndShares in Hrem.
    destruct (removeShares v (pool s) n) as [[[v1 p1] tk1]|] eqn:E;
      simpl in Hrem; [|discriminate].
    injection Hrem as <- <- <-. split.
    + unfold SetValidatorByPowerIndex, SetValidator, publish.
      destruct (Jailed _), (PbsbServer k && IsDeliverTx ctx); reflexivity.
    + eexists. reflexivity.
Qed.

Definition counterState : State := with_intraTxCounter 5 removalState.

Lemma intra_tx_counter_assignment_witness :
  0 < 16
  ∧ intraTxCounter counterState + 1 < 2 ^ (16 - 1)
  ∧ - 2 ^ (16 - 1) ≤ intraTxCounter counterState
  ∧ ∀ v n v' sh s',
      AddValidatorTokensAndShares 16 unitAddTokens sampleKeeper sampleCtx
        v n counterState = Ok (v', sh, s') →
      BondIntraTxCounter v' = 5 ∧ intraTxCounter s' = 5 + 1.
Proof.
  assert (H1 : 0 < 16) by lia.
  assert (H2 : intraTxCounter counterState + 1 < 2 ^ (16 - 1))
    by (vm_compute; reflexivity).
  assert (H3 : - 2 ^ (16 - 1) ≤ intraTxCounter counterState)
    by (vm_compute; discriminate).
  repeat split; try assumption;
    destruct (intra_tx_counter_assignment 16 unitAddTokens unitRemoveShares
                sampleKeeper sampleCtx counterState H1 H2 H3) as [Hadd _];
    destruct (Hadd v n v' sh s' H) as (Ha & Hb & _); assumption.
Defined.

(** C3 as stated fails for the removal of shares.  The tokens of validator
    1 are added, then those of validator 2, then shares of validator 1 are
    removed: validator 1 changed last and has the power of validator 2, yet
    it keeps the earlier counter value 5, and the stored counter is not
    advanced. *)
Lemma RemoveValidatorTokensAndShares_keeps_counter :
  ∃ a1 sh1 s1 b1 sh2 s2 a2 tk s3,
    AddValidatorTokensAndShares 16 unitAddTokens sampleKeeper sampleCtx
      (sampleValidator 1 (Some pkA) Unbonded 100 100) 10 counterState
      = Ok (a1, sh1, s1)
    ∧ AddValidatorTokensAndShares 16 unitAddTokens sampleKeeper sampleCtx
        (sampleValidator 2 (Some pkB) Unbonded 90 90) 10 s1
      = Ok (b1, sh2, s2)
    ∧ RemoveValidatorTokensAndShares unitRemoveShares sampleKeeper sampleCtx
        a1 10 s2
      = Ok (a2, tk, s3)
    ∧ Tokens a2 = Tokens b1
    ∧ BondIntraTxCounter a2 = 5
    ∧ BondIntraTxCounter b1 = 6
    ∧ intraTxCounter s2 = 7
    ∧ intraTxCounter s3 = 7.
Proof.
  do 9 eexists.
  split; [reflexivity|]. split; [reflexivity|]. split; [reflexivity|].
  repeat split.
Qed.

(** ** The power index and the jailed flag *)

(** Every entry of the power index belongs to a stored validator that is
    not jailed, under that validator's own key. *)
Definition power_index_sound (s : State) : Prop :=
  ∀ key op, validatorsByPower s !! key = Some op →
    ∃ v, validators s !! op = Some v
      ∧ GetValidatorsByPowerIndexKey v = key
      ∧ Jailed v = false.

Lemma power_index_sound_no_jailed s op w :
  power_index_sound s →
  validators s !! op = Some w → Jailed w = true →
  ∀ key, validatorsByPower s !! key ≠ Some op.
Proof.
  intros Hs Hw Hj key Hk.
  destruct (Hs key op Hk) as (v & Hv & _ & Hnj). congruence.
Qed.

Lemma SetValidator_validators k ctx v s :
  validators (SetValidator k ctx v s) = <[OperatorAddr v := v]> (validators s).
Proof.
  unfold SetValidator, publish.
  by destruct (PbsbServer k && IsDeliverTx ctx).
Qed.

Lemma SetValidator_validatorsByPower k ctx v s :
  validatorsByPower (SetValidator k ctx v s) = validatorsByPower s.
Proof.
  unfold SetValidator, publish.
  by destruct (PbsbServer k && IsDeliverTx ctx).
Qed.

Lemma SetValidatorByPowerIndex_sound v s :
  power_index_sound s →
  validators s !! OperatorAddr v = Some v →
  power_index_sound (SetValidatorByPowerIndex v s).
Proof.
  intros Hs Hv. unfold SetValidatorByPowerIndex.
  destruct (Jailed v) eqn:Hj; [assumption|].
  intros key op. simpl. rewrite lookup_insert.
  case_decide as Hk.
  - intros [= <-]. exists v. by rewrite <- Hk.
  - apply Hs.
Qed.

Lemma jailValidator_sound k ctx v s s' :
  power_index_sound s →
  validators s !! OperatorAddr v = Some v →
  jailValidator k ctx v s = Ok s' →
  power_index_sound s'.
Proof.
  intros Hs Hv. unfold jailValidator.
  destruct (Jailed v) eqn:Hj; [discriminate|]. intros [= <-].
  intros key op. unfold DeleteValidatorByPowerIndex. simpl.
  rewrite SetValidator_validators, SetValidator_validatorsByPower.
  rewrite lookup_delete. case_decide as Hk; [discriminate|].
  intros Hin. destruct (Hs key op Hin) as (v0 & Hv0 & Hkey & Hnj).
  destruct (decide (op = OperatorAddr v)) as [->|Hne].
  - exfalso. apply Hk. rewrite <- Hkey.
    assert (v0 = v) by congruence. by subst v0.
  - exists v0. simpl. by rewrite lookup_insert_ne.
Qed.

Lemma unjailValidator_sound k ctx v s s' :
  power_index_sound s →
  validators s !! OperatorAddr v = Some v →
  unjailValidator k ctx v s = Ok s' →
  power_index_sound s'
  ∧ validatorsByPower s' !! GetValidatorsByPowerIndexKey v
    = Some (OperatorAddr v).
Proof.
  intros Hs Hv. unfold unjailValidator.
  destruct (Jailed v) eqn:Hj; [|discriminate]. simpl. intros [= <-].
  unfold SetValidatorByPowerIndex. simpl. split.
  - intros key op. simpl.
    rewrite SetValidator_validators, SetValidator_validatorsByPower.
    simpl. rewrite lookup_insert. case_decide as Hk.
    + intros [= <-]. exists (set_Jailed false v).
      by rewrite lookup_insert_eq.
    + intros Hin. destruct (Hs key op Hin) as (v0 & Hv0 & Hkey & Hnj).
      destruct (decide (op = OperatorAddr v)) as [->|Hne]; [congruence|].
      exists v0. by rewrite lookup_insert_ne.
  - rewrite SetValidator_validatorsByPower. apply lookup_insert_eq.
Qed.

(** C4, as the code has it: while every power-index entry belongs to a
    stored validator that is not jailed, a jailed validator has no entry;
    [SetValidatorByPowerIndex], [jailValidator] and [unjailValidator],
    applied to a stored validator, keep it so; after [jailValidator] the
    validator has no entry, after [unjailValidator] and after
    [SetValidatorByPowerIndex] of a validator that is not jailed it has its
    entry.  ([SetNewValidatorByPowerIndex] does not look at the flag.) *)
Theorem power_index_excludes_jailed k ctx s v :
  power_index_sound s →
  validators s !! OperatorAddr v = Some v →
  (∀ op w key, validators s !! op = Some w → Jailed w = true →
     validatorsByPower s !! key ≠ Some op)
  ∧ power_index_sound (SetValidatorByPowerIndex v s)
  ∧ (Jailed v = false →
     validatorsByPower (SetValidatorByPowerIndex v s)
       !! GetValidatorsByPowerIndexKey v = Some (OperatorAddr v))
  ∧ (Jailed v = false →
     ∃ s', jailValidator k ctx v s = Ok s'
       ∧ power_index_sound s'
       ∧ validators s' !! OperatorAddr v = Some (set_Jailed true v)
       ∧ ∀ key, validatorsByPower s' !! key ≠ Some (OperatorAddr v))
  ∧ (Jailed v = true →
     ∃ s', unjailValidator k ctx v s = Ok s'
       ∧ power_index_sound s'
       ∧ validators s' !! OperatorAddr v = Some (set_Jailed false v)
       ∧ validatorsByPower s' !! GetValidatorsByPowerIndexKey v
         = Some (OperatorAddr v)).
Proof.
  intros Hs Hv. split; [|split; [|split; [|split]]].
  - intros op w key Hw Hj. by eapply power_index_sound_no_jailed.
  - by apply SetValidatorByPowerIndex_sound.
  - intros Hj. unfold SetValidatorByPowerIndex. rewrite Hj. simpl.
    apply lookup_insert_eq.
  - intros Hj.
    assert (Hrun : ∃ s', jailValidator k ctx v s = Ok s').
    { unfold jailValidator. rewrite Hj. eauto. }
    destruct Hrun as [s' Hrun]. exists s'. split; [exact Hrun|].
    pose proof (jailValidator_sound k ctx v s s' Hs Hv Hrun) as Hs'.
    assert (Hst : validators s' !! OperatorAddr v = Some (set_Jailed true v)).
    { unfold jailValidator in Hrun. rewrite Hj in Hrun.
      injection Hrun as <-. unfold DeleteValidatorByPowerIndex. simpl.
      rewrite SetValidator_validators. apply lookup_insert_eq. }
    split; [exact Hs'|]. split; [exact Hst|].
    intros key. by eapply power_index_sound_no_jailed.
  - intros Hj.
    assert (Hrun : ∃ s', unjailValidator k ctx v s = Ok s').
    { unfold unjailValidator. rewrite Hj. eauto. }
    destruct Hrun as [s' Hrun]. exists s'. split; [exact Hrun|].
    destruct (unjailValidator_sound k ctx v s s' Hs Hv Hrun) as [Hs' Hin].
    split; [exact Hs'|]. split; [|exact Hin].
    unfold unjailValidator in Hrun. rewrite Hj in Hrun.
    injection Hrun as <-. unfold SetValidatorByPowerIndex. simpl.
    rewrite SetValidator_validators. apply lookup_insert_eq.
Qed.

Definition jailedValidator : Validator :=
  set_Jailed true (sampleValidator 1 (Some pkA) Bonded 100 100).

Definition jailedState : State :=
  with_validators {[ 1%N := jailedValidator ]} (emptyState 2).

Lemma jailedState_sound : power_index_sound jailedState.
Proof. intros key op H. simpl in H. by rewrite lookup_empty in H. Qed.

Lemma power_index_excludes_jailed_witness :
  power_index_sound jailedState
  ∧ validators jailedState !! OperatorAddr jailedValidator
    = Some jailedValidator
  ∧ ∃ s', unjailValidator sampleKeeper sampleCtx jailedValidator jailedState
          = Ok s'
      ∧ validatorsByPower s' !! (100, 0, 0, 1%N) = Some 1%N.
Proof.
  split; [exact jailedState_sound|]. split; [reflexivity|].
  destruct (power_index_excludes_jailed sampleKeeper sampleCtx jailedState
              jailedValidator jailedState_sound eq_refl)
    as (_ & _ & _ & _ & Hun).
  destruct (Hun eq_refl) as (s' & Hrun & _ & _ & Hin).
  exists s'. split; [exact Hrun | exact Hin].
Defined.

(** C4 as stated fails: [SetNewValidatorByPowerIndex] inserts the entry of
    a jailed validator; and a stored validator that is not jailed, bonded
    and with tokens, has no entry as long as only [SetValidator] ran. *)
Lemma SetNewValidatorByPowerIndex_inserts_jailed :
  power_index_sound jailedState
  ∧ validators (SetNewValidatorByPowerIndex jailedValidator jailedState)
      !! 1%N = Some jailedValidator
  ∧ Jailed jailedValidator = true
  ∧ validatorsByPower (SetNewValidatorByPowerIndex jailedValidator jailedState)
      !! GetValidatorsByPowerIndexKey jailedValidator = Some 1%N
  ∧ validatorsByPower
      (SetValidator sampleKeeper sampleCtx
         (sampleValidator 2 (Some pkB) Bonded 90 90) jailedState) = ∅.
Proof.
  split; [exact jailedState_sound|]. repeat split.
Qed.

(** ** Draining the unbonding queue twice *)

Lemma publish_validatorQueue k ctx e s :
  validatorQueue (publish k ctx e s) = validatorQueue s.
Proof. unfold publish. by destruct (PbsbServer k && IsDeliverTx ctx). Qed.

Lemma RemoveValidator_validatorQueue k ctx address s s' :
  RemoveValidator k ctx address s = Ok s' →
  validatorQueue s' = validatorQueue s.
Proof.
  unfold RemoveValidator. destruct (GetValidator s address) as [v|].
  - destruct (if IsSideChainValidator v then Ok (SideConsAddr v)
              else ConsAddressOf v) as [c|]; simpl; [|discriminate].
    intros [= <-]. by rewrite publish_validatorQueue.
  - by intros [= <-].
Qed.

Lemma unbondMature_validatorQueue k ctx s valAddr s' :
  unbondMature k ctx s valAddr = Ok s' →
  validatorQueue s' = validatorQueue s.
Proof.
  unfold unbondMature. destruct (GetValidator s valAddr) as [val|].
  - destruct (negb (IsUnbonding val)); [by intros [= <-]|].
    unfold unbondingToUnbonded.
    destruct (Status val); simpl; try discriminate.
    destruct (DelegatorShares val =? 0).
    + intros H. apply RemoveValidator_validatorQueue in H. rewrite H.
      unfold SetValidator. by rewrite publish_validatorQueue.
    + intros [= <-]. unfold SetValidator. by rewrite publish_validatorQueue.
  - by intros [= <-].
Qed.

Lemma unbondTimeslice_validatorQueue k ctx timeslice s s' :
  unbondTimeslice k ctx timeslice s = Ok s' →
  validatorQueue s' = validatorQueue s.
Proof.
  revert s. induction timeslice as [|a rest IH]; intros s; simpl.
  - by intros [= <-].
  - destruct (unbondMature k ctx s a) as [s1|] eqn:E; simpl; [|discriminate].
    intros H. rewrite (IH _ H). by eapply unbondMature_validatorQueue.
Qed.

(** Every timeslice the iterator held is deleted, and nothing else of the
    queue changes. *)
Lemma unbondTimeslices_validatorQueue k ctx it s s' :
  unbondTimeslices k ctx it s = Ok s' →
  ∀ t, validatorQueue s' !! t
       = if decide (t ∈ it.*1) then None else validatorQueue s !! t.
Proof.
  revert s. induction it as [|[key ts] rest IH]; intros s H t;
    simpl in H.
  - injection H as <-. rewrite decide_False; [done|]. apply not_elem_of_nil.
  - destruct (unbondTimeslice k ctx ts s) as [s1|] eqn:E; simpl in H;
      [|discriminate].
    rewrite (IH _ H t). simpl validatorQueue.
    rewrite (unbondTimeslice_validatorQueue _ _ _ _ _ E).
    rewrite fmap_cons. simpl fst.
    destruct (decide (t = key)) as [->|Hne].
    + rewrite lookup_delete_eq.
      rewrite (decide_True (P := key ∈ key :: rest.*1))
        by apply list_elem_of_here.
      by case_decide.
    + rewrite lookup_delete_ne by done.
      destruct (decide (t ∈ rest.*1)) as [Hin|Hnin].
      * by rewrite decide_True by (by apply list_elem_of_further).
      * rewrite decide_False; [done|].
        rewrite elem_of_cons. intros [Heq|Hin2]; [exact (Hne Heq) | exact (Hnin Hin2)].
Qed.

Lemma ValidatorQueueIterator_keys s endTime t :
  t ∈ (ValidatorQueueIterator s endTime).*1
  ↔ t ≤ endTime ∧ is_Some (validatorQueue s !! t).
Proof.
  unfold ValidatorQueueIterator. rewrite merge_sort_Permutation.
  rewrite list_elem_of_fmap. split.
  - intros ([k v] & -> & Hin). apply list_elem_of_filter in Hin.
    destruct Hin as [Hle Hin]. apply elem_of_map_to_list in Hin.
    simpl in *. eauto.
  - intros [Hle [v Hv]]. exists (t, v). split; [done|].
    apply list_elem_of_filter. split; [done|].
    by apply elem_of_map_to_list.
Qed.

Lemma ValidatorQueueIterator_nil s endTime :
  (∀ t, t ≤ endTime → validatorQueue s !! t = None) →
  ValidatorQueueIterator s endTime = [].
Proof.
  intros Hnone.
  destruct (ValidatorQueueIterator s endTime) as [|[t ts] rest] eqn:E;
    [done|].
  assert (Hin : t ∈ (ValidatorQueueIterator s endTime).*1).
  { rewrite E. simpl. apply list_elem_of_here. }
  apply ValidatorQueueIterator_keys in Hin. destruct Hin as [Hle [v Hv]].
  rewrite (Hnone t Hle) in Hv. discriminate.
Qed.

(** After a completed drain no timeslice up to the block time is left. *)
Lemma UnbondAllMatureValidatorQueue_empties k ctx s s' :
  UnbondAllMatureValidatorQueue k ctx s = Ok s' →
  ∀ t, t ≤ BlockTime ctx → validatorQueue s' !! t = None.
Proof.
  unfold UnbondAllMatureValidatorQueue. intros H t Hle.
  rewrite (unbondTimeslices_validatorQueue _ _ _ _ _ H t).
  case_decide as Hin; [done|].
  destruct (validatorQueue s !! t) as [v|] eqn:E; [|done].
  exfalso. apply Hin. apply ValidatorQueueIterator_keys. eauto.
Qed.

(** C7: a second drain at the same block time, after a first one that
    returned, returns the state it was given: no transition, no removal, no
    hook call or published event. *)
Theorem UnbondAllMatureValidatorQueue_idempotent k ctx s s' :
  UnbondAllMatureValidatorQueue k ctx s = Ok s' →
  UnbondAllMatureValidatorQueue k ctx s' = Ok s'.
Proof.
  intros H. unfold UnbondAllMatureValidatorQueue.
  rewrite ValidatorQueueIterator_nil; [reflexivity|].
  by eapply UnbondAllMatureValidatorQueue_empties.
Qed.

Definition drainState : State :=
  with_validatorQueue {[ 500 := [1%N; 9%N] ]}
    (with_validators
       {[ 1%N := set_Unbonding 3 500
                   (sampleValidator 1 (Some pkA) Unbonding 0 0) ]}
       (emptyState 2)).

Lemma UnbondAllMatureValidatorQueue_idempotent_witness :
  ∃ s', UnbondAllMatureValidatorQueue sampleKeeper sampleCtx drainState = Ok s'
    ∧ UnbondAllMatureValidatorQueue sampleKeeper sampleCtx s' = Ok s'.
Proof.
  destruct (UnbondAllMatureValidatorQueue sampleKeeper sampleCtx drainState)
    as [s'|msg] eqn:E.
  - exists s'. split; [reflexivity|].
    exact (UnbondAllMatureValidatorQueue_idempotent sampleKeeper sampleCtx
             drainState s' E).
  - vm_compute in E. discriminate.
Defined.

(** ** What the loops keep of the validator records *)

(** The part of a validator record that no state transition changes. *)
Definition core_of (v : Validator) : N * option PubKey * Z * bool :=
  (OperatorAddr v, ConsPubKey v, Tokens v, Jailed v).

Definition cores (s : State) : gmap N (N * option PubKey * Z * bool) :=
  core_of <$> validators s.

(** Every record is filed under its own operator address, as [SetValidator]
    files it. *)
Definition store_keyed (s : State) : Prop :=
  map_Forall (λ op v, OperatorAddr v = op) (validators s).

Lemma store_keyed_lookup s op v :
  store_keyed s → validators s !! op = Some v → OperatorAddr v = op.
Proof. intros H Hv. exact (H op v Hv). Qed.

Lemma store_keyed_cores s s' :
  cores s' ⊆ cores s → store_keyed s → store_keyed s'.
Proof.
  intros Hsub Hk op v' Hv'.
  assert (Hc : cores s' !! op = Some (core_of v')).
  { unfold cores. by rewrite lookup_fmap, Hv'. }
  pose proof (lookup_weaken _ _ _ _ Hc Hsub) as Hc0.
  unfold cores in Hc0. rewrite lookup_fmap in Hc0.
  destruct (validators s !! op) as [v|] eqn:Hv; [|discriminate].
  simpl in Hc0. injection Hc0 as Ho _ _ _.
  pose proof (Hk op v Hv) as Hop. simpl in Hop. congruence.
Qed.

Lemma cores_lookup_Some s op v :
  validators s !! op = Some v → cores s !! op = Some (core_of v).
Proof. intros H. unfold cores. by rewrite lookup_fmap, H. Qed.

Lemma cores_lookup_inv s op c :
  cores s !! op = Some c →
  ∃ v, validators s !! op = Some v ∧ core_of v = c.
Proof.
  unfold cores. rewrite lookup_fmap.
  destruct (validators s !! op) as [v|]; [|discriminate].
  intros [= <-]. eauto.
Qed.

Lemma cores_insert_same s s' v v' :
  validators s' = <[OperatorAddr v := v']> (validators s) →
  validators s !! OperatorAddr v = Some v →
  core_of v' = core_of v →
  cores s' = cores s.
Proof.
  intros Hs' Hv Hc. unfold cores. rewrite Hs', fmap_insert, Hc.
  apply insert_id. by rewrite lookup_fmap, Hv.
Qed.

Lemma callHook_validators k v side main s s' :
  callHook k v side main s = Ok s' → validators s' = validators s.
Proof.
  unfold callHook. destruct (hooks k); [|by intros [= <-]].
  destruct (IsSideChainValidator v); [by intros [= <-]|].
  destruct (ConsAddressOf v); simpl; [|discriminate]. by intros [= <-].
Qed.

Lemma callHook_lastValidatorPower k v side main s s' :
  callHook k v side main s = Ok s' →
  lastValidatorPower s' = lastValidatorPower s.
Proof.
  unfold callHook. destruct (hooks k); [|by intros [= <-]].
  destruct (IsSideChainValidator v); [by intros [= <-]|].
  destruct (ConsAddressOf v); simpl; [|discriminate]. by intros [= <-].
Qed.

Lemma bondValidator_validators k ctx v s v1 s1 :
  bondValidator k ctx v s = Ok (v1, s1) →
  v1 = set_Status Bonded (set_BondHeight (BlockHeight ctx) v)
  ∧ validators s1 = <[OperatorAddr v := v1]> (validators s).
Proof.
  unfold bondValidator. simpl.
  match goal with
  | |- context [callHook ?k ?w ?a ?b ?st] =>
      destruct (callHook k w a b st) as [s2|] eqn:E
  end; simpl; [|discriminate].
  intros [= <- <-]. split; [reflexivity|].
  apply callHook_validators in E. rewrite E.
  unfold SetValidatorByPowerIndex. simpl.
  destruct (Jailed v); simpl; by rewrite SetValidator_validators.
Qed.

Lemma applyStateChange_validators k ctx v s v1 s1 :
  applyStateChange k ctx v s = Ok (v1, s1) →
  validators s !! OperatorAddr v = Some v →
  core_of v1 = core_of v ∧ Status v1 = Bonded ∧ cores s1 = cores s.
Proof.
  unfold applyStateChange, unbondedToBonded, unbondingToBonded.
  intros H Hv. destruct (Status v) eqn:Hst.
  - apply bondValidator_validators in H. destruct H as [-> Hs1].
    split; [done|]. split; [done|]. by eapply cores_insert_same.
  - apply bondValidator_validators in H. destruct H as [-> Hs1].
    split; [done|]. split; [done|]. by eapply cores_insert_same.
  - injection H as <- <-. done.
Qed.

Lemma beginUnbondingValidator_validators k ctx v s v1 s1 :
  beginUnbondingValidator k ctx v s = Ok (v1, s1) →
  core_of v1 = core_of v
  ∧ validators s1 = <[OperatorAddr v := v1]> (validators s).
Proof.
  unfold beginUnbondingValidator.
  destruct (Status v); try discriminate. simpl.
  match goal with
  | |- context [callHook ?k ?w ?a ?b ?st] =>
      destruct (callHook k w a b st) as [s2|] eqn:E
  end; simpl; [|discriminate].
  intros [= <- <-]. split; [reflexivity|].
  apply callHook_validators in E. rewrite E.
  unfold InsertValidatorQueue, SetValidatorQueueTimeSlice.
  match goal with |- context [if ?b then _ else _] => destruct b end;
    simpl; unfold SetValidatorByPowerIndex; simpl;
    destruct (Jailed v); simpl; by rewrite SetValidator_validators.
Qed.

Lemma RemoveValidator_validators k ctx address s s' :
  RemoveValidator k ctx address s = Ok s' →
  validators s' = delete address (validators s).
Proof.
  unfold RemoveValidator. destruct (GetValidator s address) as [v|] eqn:Hg.
  - destruct (if IsSideChainValidator v then Ok (SideConsAddr v)
              else ConsAddressOf v) as [c|]; simpl; [|discriminate].
    intros [= <-]. unfold publish.
    by destruct (PbsbServer k && IsDeliverTx ctx).
  - intros [= <-]. symmetry. by apply delete_id.
Qed.

(** ** The candidate loop *)

(** A turn that does not break: the record met, the record after the status
    switch, and what the turn changes of the loop variables. *)
Lemma candidateStep_Some k ctx ls op ls1 :
  candidateStep k ctx ls op = Ok (Some ls1) →
  ∃ v v1 s1 new,
    validators (ls_state ls) !! op = Some v
    ∧ Jailed v = false ∧ Tokens v ≠ 0
    ∧ applyStateChange k ctx v (ls_state ls) = Ok (v1, s1)
    ∧ validators (ls_state ls1) = validators s1
    ∧ ls_last ls1 = delete op (ls_last ls)
    ∧ ls_count ls1 = S (ls_count ls)
    ∧ ls_newVals ls1 = ls_newVals ls ++ [v1]
    ∧ ls_updates ls1 = ls_updates ls ++ new
    ∧ (new = [] ∨ ∃ pk, ConsPubKey v1 = Some pk
                     ∧ new = [(op, ABCIValidatorUpdate pk v1)]).
Proof.
  unfold candidateStep, mustGetValidator, GetValidator.
  destruct (validators (ls_state ls) !! op) as [v|] eqn:Hv; simpl;
    [|discriminate].
  destruct (Jailed v) eqn:Hj; [discriminate|].
  destruct (Tokens v =? 0) eqn:Ht; [discriminate|].
  apply Z.eqb_neq in Ht.
  destruct (applyStateChange k ctx v (ls_state ls)) as [[v1 s1]|] eqn:Ha;
    simpl; [|discriminate].
  intros [= <-]. simpl.
  set (changed := match ls_last ls !! op with
                  | Some oldPower => negb (oldPower =? BondedTokensOf v1)
                  | None => true
                  end).
  exists v, v1, s1.
  exists (if changed then
            match ConsPubKey v1 with
            | Some pk => [(op, ABCIValidatorUpdate pk v1)]
            | None => []
            end
          else []).
  repeat split; try done.
  - by destruct changed.
  - destruct changed; [|by rewrite app_nil_r].
    destruct (ConsPubKey v1); [done|by rewrite app_nil_r].
  - destruct changed; [|by left].
    destruct (ConsPubKey v1) as [pk|]; [|by left]. right. eauto.
Qed.

Lemma candidateStep_break k ctx ls op v :
  validators (ls_state ls) !! op = Some v →
  Jailed v = false → Tokens v = 0 →
  candidateStep k ctx ls op = Ok None.
Proof.
  intros Hv Hj Ht. unfold candidateStep, mustGetValidator, GetValidator.
  rewrite Hv. simpl. rewrite Hj, Ht. reflexivity.
Qed.

Lemma candidateStep_cores k ctx ls op ls1 :
  store_keyed (ls_state ls) →
  candidateStep k ctx ls op = Ok (Some ls1) →
  cores (ls_state ls1) = cores (ls_state ls).
Proof.
  intros Hk H. apply candidateStep_Some in H.
  destruct H as (v & v1 & s1 & new & Hv & _ & _ & Ha & Hs1 & _).
  pose proof (store_keyed_lookup _ _ _ Hk Hv) as Hop.
  apply applyStateChange_validators in Ha; [|by rewrite Hop].
  destruct Ha as (_ & _ & Hc). unfold cores in *. by rewrite Hs1.
Qed.

Lemma store_keyed_same_cores s s' :
  cores s' = cores s → store_keyed s → store_keyed s'.
Proof. intros H. apply store_keyed_cores. by rewrite H. Qed.

(** A loop that stops at once: nothing visited, nothing appended. *)
Ltac loop_stays :=
  exists [], []; repeat split;
  try done; try (by rewrite app_nil_r); try apply sublist_nil_l;
  try (simpl; lia).

(** The loop visits a prefix of the iteration; every update it appends
    carries the operator of a visited turn, in order, and the visited
    operators leave the working copy of the last bonded set. *)
Lemma candidateLoop_spec k ctx max it ls ls' :
  candidateLoop k ctx max it ls = Ok ls' →
  ∃ visited new,
    visited `sublist_of` it
    ∧ (∀ op, ls_last ls' !! op
             = if decide (op ∈ visited) then None else ls_last ls !! op)
    ∧ ls_updates ls' = ls_updates ls ++ new
    ∧ new.*1 `sublist_of` visited
    ∧ ls_count ls' = (ls_count ls + length visited)%nat
    ∧ ((ls_count ls ≤ max)%nat → (ls_count ls' ≤ max)%nat).
Proof.
  revert ls. induction it as [|op rest IH]; intros ls H; simpl in H.
  - injection H as <-. loop_stays.
  - destruct (ls_count ls <? max)%nat eqn:Hlt.
    + apply Nat.ltb_lt in Hlt.
      destruct (candidateStep k ctx ls op) as [[ls1|]|] eqn:Hstep;
        simpl in H; [| |discriminate].
      * destruct (IH _ H) as (visited & new & Hsub & Hlast & Hupd & Htags
                              & Hcount & Hmax).
        apply candidateStep_Some in Hstep.
        destruct Hstep as (v & v1 & s1 & new1 & _ & _ & _ & _ & _ & Hl1 & Hc1
                           & _ & Hu1 & Hnew1).
        exists (op :: visited), (new1 ++ new). repeat split.
        -- by apply sublist_skip.
        -- intros op'. rewrite Hlast, Hl1.
           destruct (decide (op' = op)) as [->|Hne].
           ++ rewrite lookup_delete_eq.
              rewrite (decide_True (P := op ∈ op :: visited))
                by apply list_elem_of_here.
              by case_decide.
           ++ rewrite lookup_delete_ne by done.
              destruct (decide (op' ∈ visited)) as [Hin|Hnin].
              ** by rewrite decide_True by (by apply list_elem_of_further).
              ** rewrite decide_False; [done|]. rewrite elem_of_cons.
                 intros [Heq|Hin2]; [exact (Hne Heq) | exact (Hnin Hin2)].
        -- rewrite Hupd, Hu1. by rewrite app_assoc.
        -- rewrite fmap_app.
           destruct Hnew1 as [->|(pk & _ & ->)]; simpl.
           ++ by apply sublist_cons.
           ++ by apply sublist_skip.
        -- rewrite Hcount, Hc1. simpl. lia.
        -- intros _. apply Hmax. lia.
      * injection H as <-. loop_stays.
    + injection H as <-. loop_stays.
Qed.

Lemma candidateLoop_cores k ctx max it ls ls' :
  store_keyed (ls_state ls) →
  candidateLoop k ctx max it ls = Ok ls' →
  cores (ls_state ls') = cores (ls_state ls).
Proof.
  revert ls. induction it as [|op rest IH]; intros ls Hk H; simpl in H.
  - by injection H as <-.
  - destruct (ls_count ls <? max)%nat; [|by injection H as <-].
    destruct (candidateStep k ctx ls op) as [[ls1|]|] eqn:Hstep;
      simpl in H; [| |discriminate].
    + pose proof (candidateStep_cores _ _ _ _ _ Hk Hstep) as Hc.
      rewrite <- Hc. apply IH; [|done]. by eapply store_keyed_same_cores.
    + by injection H as <-.
Qed.

Lemma cores_transfer s s' op v' :
  cores s' ⊆ cores s →
  validators s' !! op = Some v' →
  ∃ v, validators s !! op = Some v ∧ core_of v = core_of v'.
Proof.
  intros Hsub Hv'. apply cores_lookup_Some in Hv'.
  apply cores_lookup_inv. by eapply lookup_weaken.
Qed.

Lemma candidateLoop_break_at k ctx max pre z rest ls v :
  store_keyed (ls_state ls) →
  validators (ls_state ls) !! z = Some v →
  Jailed v = false → Tokens v = 0 →
  candidateLoop k ctx max (pre ++ z :: rest) ls
  = candidateLoop k ctx max pre ls.
Proof.
  revert ls v. induction pre as [|a pre IH]; intros ls v Hk Hv Hj Ht; simpl.
  - destruct (ls_count ls <? max)%nat; [|done].
    by rewrite (candidateStep_break k ctx ls z v).
  - destruct (ls_count ls <? max)%nat; [|done].
    destruct (candidateStep k ctx ls a) as [[ls1|]|] eqn:Hstep; simpl;
      [|done|done].
    pose proof (candidateStep_cores _ _ _ _ _ Hk Hstep) as Hc.
    assert (Hk1 : store_keyed (ls_state ls1))
      by (by eapply store_keyed_same_cores).
    destruct (cores_transfer (ls_state ls1) (ls_state ls) z v)
      as (v1 & Hv1 & Hcore); [by rewrite Hc|done|].
    injection Hcore as _ _ Ht1 Hj1.
    apply (IH ls1 v1); [done|done|congruence|congruence].
Qed.

(** The validators the loop appends to the bonded set are bonded and were
    met in the iteration; every update it appends carries the consensus
    public key of the record of its operator. *)
Lemma candidateLoop_outputs k ctx max it ls ls' :
  store_keyed (ls_state ls) →
  candidateLoop k ctx max it ls = Ok ls' →
  (∃ nv, ls_newVals ls' = ls_newVals ls ++ nv
     ∧ Forall (λ w, OperatorAddr w ∈ it ∧ Status w = Bonded) nv)
  ∧ ∀ op u, (op, u) ∈ ls_updates ls' →
      (op, u) ∈ ls_updates ls
      ∨ ∃ v, validators (ls_state ls) !! op = Some v
          ∧ ConsPubKey v = Some (upd_PubKey u).
Proof.
  revert ls. induction it as [|a rest IH]; intros ls Hk H; simpl in H.
  - injection H as <-. split; [|by left].
    exists []. by rewrite app_nil_r.
  - assert (Hstay : ls' = ls →
      (∃ nv, ls_newVals ls' = ls_newVals ls ++ nv
         ∧ Forall (λ w, OperatorAddr w ∈ a :: rest ∧ Status w = Bonded) nv)
      ∧ ∀ op u, (op, u) ∈ ls_updates ls' →
          (op, u) ∈ ls_updates ls
          ∨ ∃ v, validators (ls_state ls) !! op = Some v
              ∧ ConsPubKey v = Some (upd_PubKey u)).
    { intros ->. split; [|by left]. exists []. by rewrite app_nil_r. }
    destruct (ls_count ls <? max)%nat; [|injection H as <-; by apply Hstay].
    destruct (candidateStep k ctx ls a) as [[ls1|]|] eqn:Hstep;
      simpl in H; [|injection H as <-; by apply Hstay|discriminate].
    clear Hstay.
    pose proof (candidateStep_cores _ _ _ _ _ Hk Hstep) as Hc.
    assert (Hk1 : store_keyed (ls_state ls1))
      by (by eapply store_keyed_same_cores).
    destruct (IH _ Hk1 H) as [(nv & Hnv & Hall) Hupd].
    apply candidateStep_Some in Hstep.
    destruct Hstep as (v & v1 & s1 & new1 & Hv & _ & _ & Ha & _ & _ & _
                       & Hn1 & Hu1 & Hnew1).
    pose proof (store_keyed_lookup _ _ _ Hk Hv) as Hop.
    apply applyStateChange_validators in Ha; [|by rewrite Hop].
    destruct Ha as (Hcore & Hst & _). injection Hcore as Ho1 Hpk1 _ _.
    split.
    + exists (v1 :: nv). split.
      * rewrite Hnv, Hn1. by rewrite <- app_assoc.
      * constructor.
        -- split; [|done]. rewrite Ho1, Hop. apply list_elem_of_here.
        -- eapply Forall_impl; [exact Hall|]. intros w [Hin Hb].
           split; [by apply list_elem_of_further|done].
    + intros op u Hin. destruct (Hupd op u Hin) as [Hold|(v' & Hv' & Hpk')].
      * rewrite Hu1 in Hold. apply elem_of_app in Hold.
        destruct Hold as [Hold|Hnew]; [by left|]. right.
        destruct Hnew1 as [->|(pk & Hpk & ->)].
        -- by apply elem_of_nil in Hnew.
        -- apply list_elem_of_singleton in Hnew. injection Hnew as -> ->.
           exists v. split; [done|]. simpl. congruence.
      * right.
        destruct (cores_transfer (ls_state ls) (ls_state ls1) op v')
          as (v0 & Hv0 & Hcore0); [by rewrite Hc|done|].
        injection Hcore0 as _ Hpk0 _ _. exists v0. split; [done|congruence].
Qed.

(** ** The loop over the no-longer-bonded operators *)

Lemma removalStep_spec k ctx s ups op s1 ups1 :
  removalStep k ctx (s, ups) op = Ok (s1, ups1) →
  ∃ v v1,
    validators s !! op = Some v
    ∧ Status v = Bonded
    ∧ core_of v1 = core_of v
    ∧ validators s1
      = (if Tokens v =? 0 then delete (OperatorAddr v) else id)
          (<[OperatorAddr v := v1]> (validators s))
    ∧ ups1 = ups ++ match ConsPubKey v with
                    | Some pk => [(op, ABCIValidatorUpdateZero pk v)]
                    | None => []
                    end.
Proof.
  unfold removalStep, mustGetValidator, GetValidator.
  destruct (validators s !! op) as [v|] eqn:Hv; simpl; [|discriminate].
  unfold bondedToUnbonding.
  destruct (Status v) eqn:Hst; simpl; try discriminate.
  destruct (beginUnbondingValidator k ctx v s) as [[v1 s2]|] eqn:Hb;
    simpl; [|discriminate].
  apply beginUnbondingValidator_validators in Hb. destruct Hb as [Hcore Hs2].
  destruct (Tokens v =? 0) eqn:Ht.
  - destruct (RemoveValidator k ctx (OperatorAddr v) s2) as [s3|] eqn:Hr;
      simpl; [|discriminate].
    apply RemoveValidator_validators in Hr.
    intros [= <- <-]. exists v, v1. rewrite Ht. repeat split; try done.
    + unfold DeleteLastValidatorPower. simpl. by rewrite Hr, Hs2.
    + destruct (ConsPubKey v); [done|by rewrite app_nil_r].
  - simpl. intros [= <- <-]. exists v, v1. rewrite Ht.
    repeat split; try done.
    destruct (ConsPubKey v); [done|by rewrite app_nil_r].
Qed.

Lemma removalStep_cores k ctx s ups op s1 ups1 :
  store_keyed s →
  removalStep k ctx (s, ups) op = Ok (s1, ups1) →
  ∃ v, validators s !! op = Some v
    ∧ cores s1 = (if Tokens v =? 0 then delete op (cores s) else cores s).
Proof.
  intros Hk H. apply removalStep_spec in H.
  destruct H as (v & v1 & Hv & _ & Hcore & Hs1 & _).
  pose proof (store_keyed_lookup _ _ _ Hk Hv) as Hop.
  exists v. split; [done|]. unfold cores. rewrite Hs1, Hop.
  assert (Hins : core_of <$> <[op := v1]> (validators s)
                 = core_of <$> validators s).
  { rewrite fmap_insert, Hcore. apply insert_id.
    by rewrite lookup_fmap, Hv. }
  destruct (Tokens v =? 0); simpl.
  - by rewrite fmap_delete, Hins.
  - exact Hins.
Qed.

Lemma removalStep_cores_subseteq k ctx s ups op s1 ups1 :
  store_keyed s →
  removalStep k ctx (s, ups) op = Ok (s1, ups1) →
  cores s1 ⊆ cores s.
Proof.
  intros Hk H. destruct (removalStep_cores _ _ _ _ _ _ _ Hk H)
    as (v & _ & ->).
  destruct (Tokens v =? 0); [apply delete_subseteq|done].
Qed.

Lemma removalLoop_cons k ctx op rest acc :
  removalLoop k ctx (op :: rest) acc
  = bind (removalStep k ctx acc op) (removalLoop k ctx rest).
Proof. reflexivity. Qed.

(** The updates of the loop: one zero-power record at most per operator, in
    the order of the operators. *)
Lemma removalLoop_updates k ctx ops s ups s' ups' :
  removalLoop k ctx ops (s, ups) = Ok (s', ups') →
  ∃ new, ups' = ups ++ new
    ∧ new.*1 `sublist_of` ops
    ∧ Forall (λ x, upd_Power x.2 = 0) new.
Proof.
  revert s ups. induction ops as [|op rest IH]; intros s ups H;
    [simpl in H | rewrite removalLoop_cons in H].
  - injection H as <- <-. exists []. by rewrite app_nil_r.
  - destruct (removalStep k ctx (s, ups) op) as [[s1 ups1]|] eqn:Hstep;
      simpl in H; [|discriminate].
    destruct (IH _ _ H) as (new & -> & Hsub & Hzero).
    apply removalStep_spec in Hstep.
    destruct Hstep as (v & v1 & _ & _ & _ & _ & ->).
    destruct (ConsPubKey v) as [pk|].
    + exists ((op, ABCIValidatorUpdateZero pk v) :: new). split.
      * by rewrite <- app_assoc.
      * split; [by apply sublist_skip|]. by constructor.
    + exists new. rewrite app_nil_r. split; [done|].
      split; [by apply sublist_cons|done].
Qed.

(** What is left of a record after the loop: it is gone when its operator
    is in the list and it has no tokens. *)
Definition after_removal (ops : list ValAddress)
    (m : gmap N (N * option PubKey * Z * bool)) (op : ValAddress)
  : option (N * option PubKey * Z * bool) :=
  match m !! op with
  | Some c => if bool_decide (op ∈ ops) && (c.1.2 =? 0) then None else Some c
  | None => None
  end.

Lemma removalLoop_cores k ctx ops s ups s' ups' :
  store_keyed s →
  removalLoop k ctx ops (s, ups) = Ok (s', ups') →
  (∀ op, cores s' !! op = after_removal ops (cores s) op)
  ∧ (∀ op, op ∈ ops → is_Some (validators s !! op))
  ∧ ∀ op u, (op, u) ∈ ups' →
      (op, u) ∈ ups
      ∨ ∃ v, validators s !! op = Some v
          ∧ ConsPubKey v = Some (upd_PubKey u).
Proof.
  revert s ups. induction ops as [|a rest IH]; intros s ups Hk H;
    [simpl in H | rewrite removalLoop_cons in H].
  - injection H as <- <-. split; [|split].
    + intros op. unfold after_removal.
      destruct (cores s !! op); [|done].
      rewrite bool_decide_eq_false_2; [done|apply not_elem_of_nil].
    + intros op Hin. by apply elem_of_nil in Hin.
    + intros op u Hin. by left.
  - destruct (removalStep k ctx (s, ups) a) as [[s1 ups1]|] eqn:Hstep;
      simpl in H; [|discriminate].
    pose proof (removalStep_cores_subseteq _ _ _ _ _ _ _ Hk Hstep) as Hsub.
    assert (Hk1 : store_keyed s1) by (by eapply store_keyed_cores).
    destruct (IH _ _ Hk1 H) as (Hc & Hsome & Hupd).
    destruct (removalStep_cores _ _ _ _ _ _ _ Hk Hstep) as (v & Hv & Hc1).
    split; [|split].
    + intros op. rewrite Hc. unfold after_removal. rewrite Hc1.
      destruct (decide (op = a)) as [->|Hne].
      * rewrite (cores_lookup_Some _ _ _ Hv). simpl.
        rewrite (bool_decide_eq_true_2 (a ∈ a :: rest))
          by apply list_elem_of_here.
        destruct (Tokens v =? 0) eqn:Ht; simpl.
        -- by rewrite lookup_delete_eq.
        -- rewrite (cores_lookup_Some _ _ _ Hv). simpl. rewrite Ht.
           by rewrite andb_false_r.
      * assert (Hl : (if Tokens v =? 0 then delete a (cores s) else cores s)
                       !! op = cores s !! op).
        { destruct (Tokens v =? 0); [by rewrite lookup_delete_ne|done]. }
        rewrite Hl. destruct (cores s !! op) as [c|]; [|done].
        assert (Hb : bool_decide (op ∈ a :: rest) = bool_decide (op ∈ rest)).
        { apply bool_decide_ext. rewrite elem_of_cons.
          split; [intros [Heq|Hin]|intros Hin]; [by destruct Hne|done|].
          by right. }
        by rewrite Hb.
    + intros op Hin. apply elem_of_cons in Hin. destruct Hin as [->|Hin].
      * eauto.
      * destruct (Hsome op Hin) as [v' Hv'].
        destruct (cores_transfer s s1 op v' Hsub Hv') as (v0 & Hv0 & _).
        eauto.
    + intros op u Hin. destruct (Hupd op u Hin) as [Hold|(v' & Hv' & Hpk')].
      * apply removalStep_spec in Hstep.
        destruct Hstep as (w & w1 & Hw & _ & _ & _ & ->).
        apply elem_of_app in Hold. destruct Hold as [Hold|Hnew]; [by left|].
        right. destruct (ConsPubKey w) as [pk|] eqn:Hpk.
        -- apply list_elem_of_singleton in Hnew. injection Hnew as -> ->.
           exists w. split; [done|]. by rewrite Hpk.
        -- by apply elem_of_nil in Hnew.
      * right. destruct (cores_transfer s s1 op v' Hsub Hv')
          as (v0 & Hv0 & Hcore0).
        injection Hcore0 as _ Hpk0 _ _. exists v0. split; [done|congruence].
Qed.

(** ** [ApplyAndReturnValidatorSetUpdates] *)

(** A run of the function that returns, by its two loops. *)
Lemma applyUpdatesOver_Ok k ctx it s newVals updates s' :
  applyUpdatesOver k ctx it s = Ok (newVals, updates, s') →
  ∃ ls s1,
    candidateLoop k ctx (MaxValidators (params s)) it
      (mkLoop s (getLastValidatorsByAddr s) [] [] 0%nat 0) = Ok ls
    ∧ removalLoop k ctx (sortNoLongerBonded (ls_last ls))
        (ls_state ls, ls_updates ls) = Ok (s1, updates)
    ∧ newVals = ls_newVals ls
    ∧ validators s' = validators s1.
Proof.
  unfold applyUpdatesOver.
  destruct (candidateLoop k ctx (MaxValidators (params s)) it
              (mkLoop s (getLastValidatorsByAddr s) [] [] 0%nat 0))
    as [ls|] eqn:Hc; simpl; [|discriminate].
  destruct (removalLoop k ctx (sortNoLongerBonded (ls_last ls))
              (ls_state ls, ls_updates ls)) as [[s1 ups]|] eqn:Hr;
    simpl; [|discriminate].
  intros [= <- <- <-]. exists ls, s1. repeat split; try done.
  by destruct (0 <? length ups)%nat.
Qed.

Lemma sortNoLongerBonded_elem last op :
  op ∈ sortNoLongerBonded last ↔ is_Some (last !! op).
Proof.
  unfold sortNoLongerBonded. rewrite merge_sort_Permutation.
  rewrite list_elem_of_fmap. split.
  - intros ([o p] & -> & Hin). apply elem_of_map_to_list in Hin. eauto.
  - intros [p Hp]. exists (op, p). split; [done|].
    by apply elem_of_map_to_list.
Qed.

Lemma sortNoLongerBonded_NoDup last : NoDup (sortNoLongerBonded last).
Proof.
  unfold sortNoLongerBonded. rewrite merge_sort_Permutation.
  apply NoDup_fst_map_to_list.
Qed.

Lemma applyUpdatesOver_distinct k ctx it s newVals updates s' :
  applyUpdatesOver k ctx it s = Ok (newVals, updates, s') →
  (NoDup it → NoDup updates.*1)
  ∧ (length (filter (λ x, upd_Power x.2 ≠ 0%Z) updates)
     ≤ MaxValidators (params s))%nat.
Proof.
  intros H. apply applyUpdatesOver_Ok in H.
  destruct H as (ls & s1 & Hc & Hr & _ & _).
  apply candidateLoop_spec in Hc.
  destruct Hc as (visited & new & Hsub & Hlast & Hupd & Htags & Hcount & Hmax).
  simpl in Hupd, Hcount, Hmax.
  apply removalLoop_updates in Hr.
  destruct Hr as (new2 & -> & Hsub2 & Hzero). rewrite Hupd. split.
  - intros Hnd. rewrite fmap_app. apply NoDup_app. split; [|split].
    + eapply sublist_NoDup; [|exact Htags].
      eapply sublist_NoDup; [exact Hnd|exact Hsub].
    + intros op Hin Hin2.
      pose proof (elem_of_sublist _ _ _ Hin Htags) as Hv.
      pose proof (elem_of_sublist _ _ _ Hin2 Hsub2) as Hs.
      apply sortNoLongerBonded_elem in Hs. rewrite Hlast in Hs.
      rewrite decide_True in Hs by done. by destruct Hs.
    + eapply sublist_NoDup; [|exact Hsub2]. apply sortNoLongerBonded_NoDup.
  - rewrite filter_app, length_app.
    assert (Hz : filter (λ x : N * ValidatorUpdate, upd_Power x.2 ≠ 0%Z) new2
                 = []).
    { clear -Hzero. induction Hzero as [|x l Hx _ IH]; [done|].
      rewrite filter_cons_False by (intros Hn; by apply Hn). exact IH. }
    rewrite Hz. simpl.
    pose proof (length_filter (λ x : N * ValidatorUpdate, upd_Power x.2 ≠ 0%Z)
                  new) as Hf.
    pose proof (sublist_length _ _ Htags) as Hl.
    rewrite length_fmap in Hl.
    assert ((ls_count ls ≤ MaxValidators (params s))%nat) by (apply Hmax; lia).
    lia.
Qed.


Lemma store_keyed_emptyState n : store_keyed (emptyState n).
Proof. apply map_Forall_empty. Qed.

Lemma store_keyed_addValidator v s :
  store_keyed s → store_keyed (addValidator v s).
Proof. intros H. unfold store_keyed. simpl. by apply map_Forall_insert_2. Qed.

Lemma store_keyed_with_lastValidatorPower m s :
  store_keyed s → store_keyed (with_lastValidatorPower m s).
Proof. done. Qed.

Lemma store_keyed_with_validatorsByPower m s :
  store_keyed s → store_keyed (with_validatorsByPower m s).
Proof. done. Qed.

Create HintDb keyed.
Global Hint Resolve store_keyed_emptyState store_keyed_addValidator
  store_keyed_with_lastValidatorPower store_keyed_with_validatorsByPower
  : keyed.

(** Three validators of powers 100, 90 and 80 under a cap of two; the one of
    power 80 was bonded at the last block. *)
Definition threeState : State :=
  with_lastValidatorPower {[ 3%N := 80 ]}
    (addValidator (sampleValidator 1 (Some pkA) Unbonded 100 100)
       (addValidator (sampleValidator 2 (Some pkB) Unbonded 90 90)
          (addValidator (sampleValidator 3 (Some pkC) Bonded 80 80)
             (emptyState 2)))).

(** C1, as the code has it: when the power index holds each operator once,
    no two records of the returned update list are for the same operator;
    and, in every state, the records of non-zero power number at most
    [MaxValidators]. *)
Theorem updates_distinct_and_bounded k ctx s newVals updates s' :
  ApplyAndReturnValidatorSetUpdatesBy k ctx s = Ok (newVals, updates, s') →
  (NoDup (powerIterator s) → NoDup updates.*1)
  ∧ (length (filter (λ x, upd_Power x.2 ≠ 0%Z) updates)
     ≤ MaxValidators (params s))%nat.
Proof. apply applyUpdatesOver_distinct. Qed.

Lemma updates_distinct_and_bounded_witness :
  ∃ newVals updates s',
    ApplyAndReturnValidatorSetUpdatesBy sampleKeeper sampleCtx threeState
      = Ok (newVals, updates, s')
    ∧ updates.*1 = [1%N; 2%N; 3%N]
    ∧ NoDup updates.*1
    ∧ (length (filter (λ x, upd_Power x.2 ≠ 0%Z) updates) ≤ 2)%nat.
Proof.
  destruct (ApplyAndReturnValidatorSetUpdatesBy sampleKeeper sampleCtx
              threeState) as [[[newVals updates] s']|msg] eqn:E.
  - exists newVals, updates, s'. split; [reflexivity|].
    destruct (updates_distinct_and_bounded sampleKeeper sampleCtx threeState
                newVals updates s' E) as [Hnd Hlen].
    split; [|split; [|exact Hlen]].
    + vm_compute in E. by injection E as <- <- <-.
    + apply Hnd. apply (bool_decide_unpack _). vm_compute. exact I.
  - vm_compute in E. discriminate.
Defined.

(** The power index holds two entries for operator 1, one of them stale. *)
Definition dupState : State :=
  with_validatorsByPower {[ (100, 0, 0, 1%N) := 1%N; (50, 0, 0, 1%N) := 1%N ]}
    (addValidator (sampleValidator 1 (Some pkA) Unbonded 100 100)
       (emptyState 2)).

(** C1 as stated fails: it does not hold for every state.  With two index
    entries for one operator the operator is met twice, and the same record
    is returned twice. *)
Lemma duplicate_index_entry_duplicates_update :
  ∃ newVals s',
    ApplyAndReturnValidatorSetUpdatesBy sampleKeeper sampleCtx dupState
      = Ok (newVals, [(1%N, mkUpdate pkA 100); (1%N, mkUpdate pkA 100)], s')
    ∧ ApplyAndReturnValidatorSetUpdates sampleKeeper sampleCtx dupState
      = Ok (newVals, [mkUpdate pkA 100; mkUpdate pkA 100], s')
    ∧ ¬ NoDup [(1%N, mkUpdate pkA 100); (1%N, mkUpdate pkA 100)].*1.
Proof.
  do 2 eexists. split; [vm_compute; reflexivity|].
  split; [vm_compute; reflexivity|].
  intros Hnd. apply NoDup_cons in Hnd. destruct Hnd as [Hnin _].
  apply Hnin. apply list_elem_of_here.
Qed.

(** C2, as the code has it: in a store that files every record under its
    operator address, each operator left in the no-longer-bonded set has a
    record, and after the function the record is gone if and only if the
    validator's tokens are zero. *)
Theorem no_longer_bonded_removed_iff_no_tokens k ctx s newVals updates s' :
  store_keyed s →
  ApplyAndReturnValidatorSetUpdatesBy k ctx s = Ok (newVals, updates, s') →
  ∃ ls,
    candidateLoop k ctx (MaxValidators (params s)) (powerIterator s)
      (mkLoop s (getLastValidatorsByAddr s) [] [] 0%nat 0) = Ok ls
    ∧ ∀ op, op ∈ sortNoLongerBonded (ls_last ls) →
        ∃ v, validators s !! op = Some v
          ∧ (validators s' !! op = None ↔ Tokens v = 0).
Proof.
  intros Hk H. apply applyUpdatesOver_Ok in H.
  destruct H as (ls & s1 & Hc & Hr & _ & Hs'). exists ls. split; [done|].
  assert (Hk0 : store_keyed
                  (ls_state (mkLoop s (getLastValidatorsByAddr s) [] []
                               0%nat 0))) by exact Hk.
  pose proof (candidateLoop_cores _ _ _ _ _ _ Hk0 Hc) as Hcores.
  simpl in Hcores.
  assert (Hk1 : store_keyed (ls_state ls))
    by (by eapply store_keyed_same_cores).
  destruct (removalLoop_cores _ _ _ _ _ _ _ Hk1 Hr) as (Hafter & Hsome & _).
  intros op Hin. destruct (Hsome op Hin) as [v1 Hv1].
  destruct (cores_transfer s (ls_state ls) op v1) as (v & Hv & Hcore);
    [by rewrite Hcores|done|].
  exists v. split; [done|].
  assert (Hnone : validators s' !! op = None ↔ cores s1 !! op = None).
  { unfold cores. rewrite lookup_fmap, Hs'.
    destruct (validators s1 !! op); simpl; split; congruence. }
  rewrite Hnone, Hafter. unfold after_removal.
  rewrite Hcores, (cores_lookup_Some _ _ _ Hv). simpl.
  rewrite (bool_decide_eq_true_2 _ Hin). simpl.
  destruct (Tokens v =? 0) eqn:Ht.
  - apply Z.eqb_eq in Ht. done.
  - apply Z.eqb_neq in Ht. split; [discriminate|done].
Qed.

Lemma threeState_keyed : store_keyed threeState.
Proof. unfold threeState. auto 10 with keyed. Qed.

Lemma no_longer_bonded_removed_iff_no_tokens_witness :
  store_keyed threeState
  ∧ ∃ newVals updates s' ls,
      ApplyAndReturnValidatorSetUpdatesBy sampleKeeper sampleCtx threeState
        = Ok (newVals, updates, s')
      ∧ candidateLoop sampleKeeper sampleCtx 2 (powerIterator threeState)
          (mkLoop threeState (getLastValidatorsByAddr threeState) [] []
             0%nat 0) = Ok ls
      ∧ ∀ op, op ∈ sortNoLongerBonded (ls_last ls) →
          ∃ v, validators threeState !! op = Some v
            ∧ (validators s' !! op = None ↔ Tokens v = 0).
Proof.
  split; [exact threeState_keyed|].
  destruct (ApplyAndReturnValidatorSetUpdatesBy sampleKeeper sampleCtx
              threeState) as [[[newVals updates] s']|msg] eqn:E.
  - destruct (no_longer_bonded_removed_iff_no_tokens sampleKeeper sampleCtx
                threeState newVals updates s' threeState_keyed E)
      as (ls & Hc & Hall).
    exists newVals, updates, s', ls. split; [reflexivity|]. split; assumption.
  - vm_compute in E. discriminate.
Defined.

(** A validator bonded at the last block whose tokens were slashed to zero
    while its delegators still hold shares. *)
Definition slashedState : State :=
  with_lastValidatorPower {[ 3%N := 80 ]}
    (addValidator (sampleValidator 1 (Some pkA) Unbonded 100 100)
       (addValidator (sampleValidator 3 (Some pkC) Bonded 0 80)
          (emptyState 2))).

(** C2 as stated fails: the test is on the tokens, not on the delegator
    shares.  The slashed validator is left in the no-longer-bonded set and
    its record is deleted although its delegator shares are not zero. *)
Lemma record_with_shares_removed :
  ∃ v newVals updates s',
    validators slashedState !! 3%N = Some v
    ∧ DelegatorShares v = 80
    ∧ ApplyAndReturnValidatorSetUpdatesBy sampleKeeper sampleCtx slashedState
      = Ok (newVals, updates, s')
    ∧ updates.*1 = [1%N; 3%N]
    ∧ validators s' !! 3%N = None.
Proof.
  do 4 eexists. split; [vm_compute; reflexivity|]. split; [reflexivity|].
  split; [vm_compute; reflexivity|]. split; vm_compute; reflexivity.
Qed.

(** C5: a candidate met with a zero token balance ends the candidate
    iteration.  Whatever follows it in the iteration, the candidate loop,
    and the whole function with it, give what they give on the iteration
    cut before that candidate; every validator the loop bonds and every
    update it appends belongs to an operator met before. *)
Theorem zero_power_candidate_ends_iteration k ctx s pre z rest v :
  store_keyed s →
  validators s !! z = Some v →
  Jailed v = false →
  Tokens v = 0 →
  candidateLoop k ctx (MaxValidators (params s)) (pre ++ z :: rest)
    (mkLoop s (getLastValidatorsByAddr s) [] [] 0%nat 0)
  = candidateLoop k ctx (MaxValidators (params s)) pre
      (mkLoop s (getLastValidatorsByAddr s) [] [] 0%nat 0)
  ∧ applyUpdatesOver k ctx (pre ++ z :: rest) s = applyUpdatesOver k ctx pre s
  ∧ ∀ ls,
      candidateLoop k ctx (MaxValidators (params s)) (pre ++ z :: rest)
        (mkLoop s (getLastValidatorsByAddr s) [] [] 0%nat 0) = Ok ls →
      Forall (λ w, OperatorAddr w ∈ pre ∧ Status w = Bonded) (ls_newVals ls)
      ∧ Forall (λ x, x.1 ∈ pre) (ls_updates ls).
Proof.
  intros Hk Hv Hj Ht.
  assert (Heq : candidateLoop k ctx (MaxValidators (params s))
                  (pre ++ z :: rest)
                  (mkLoop s (getLastValidatorsByAddr s) [] [] 0%nat 0)
                = candidateLoop k ctx (MaxValidators (params s)) pre
                    (mkLoop s (getLastValidatorsByAddr s) [] [] 0%nat 0)).
  { by apply (candidateLoop_break_at k ctx _ pre z rest _ v). }
  split; [exact Heq|]. split.
  - unfold applyUpdatesOver. by rewrite Heq.
  - intros ls Hls. rewrite Heq in Hls.
    assert (Hk0 : store_keyed
                    (ls_state (mkLoop s (getLastValidatorsByAddr s) [] []
                                 0%nat 0))) by exact Hk.
    destruct (candidateLoop_outputs _ _ _ _ _ _ Hk0 Hls)
      as [(nv & Hnv & Hall) _].
    simpl in Hnv. rewrite Hnv. split; [exact Hall|].
    apply candidateLoop_spec in Hls.
    destruct Hls as (visited & new & Hsub & _ & Hupd & Htags & _).
    simpl in Hupd. rewrite Hupd. apply Forall_forall. intros [op u] Hin.
    simpl. eapply elem_of_sublist; [|exact Hsub].
    eapply elem_of_sublist; [|exact Htags].
    apply list_elem_of_fmap. by exists (op, u).
Qed.

(** The iteration meets validator 1, then validator 2 which has no tokens,
    then validator 3. *)
Definition zeroState : State :=
  addValidator (sampleValidator 1 (Some pkA) Unbonded 100 100)
    (addValidator (sampleValidator 2 (Some pkB) Unbonded 0 0)
       (addValidator (sampleValidator 3 (Some pkC) Unbonded 50 50)
          (emptyState 3))).

Lemma zeroState_keyed : store_keyed zeroState.
Proof. unfold zeroState. auto 10 with keyed. Qed.

Lemma zero_power_candidate_ends_iteration_witness :
  store_keyed zeroState
  ∧ validators zeroState !! 2%N
    = Some (sampleValidator 2 (Some pkB) Unbonded 0 0)
  ∧ applyUpdatesOver sampleKeeper sampleCtx ([1%N] ++ 2%N :: [3%N]) zeroState
    = applyUpdatesOver sampleKeeper sampleCtx [1%N] zeroState.
Proof.
  split; [exact zeroState_keyed|]. split; [reflexivity|].
  exact (proj1 (proj2
    (zero_power_candidate_ends_iteration sampleKeeper sampleCtx zeroState
       [1%N] 2%N [3%N] (sampleValidator 2 (Some pkB) Unbonded 0 0)
       zeroState_keyed eq_refl eq_refl eq_refl))).
Defined.






(** * Further properties of the keeper *)

(** ** What each store operation leaves alone *)

Lemma publish_cases k ctx e s :
  publish k ctx e s = s ∨ publish k ctx e s = emit e s.
Proof. unfold publish. destruct (PbsbServer k && IsDeliverTx ctx); auto. Qed.

Lemma callHook_cases k v side main s s' :
  callHook k v side main s = Ok s' → s' = s ∨ ∃ e, s' = emit e s.
Proof.
  unfold callHook. destruct (hooks k); [|intros [= <-]; by left].
  destruct (IsSideChainValidator v); [intros [= <-]; right; eauto|].
  destruct (ConsAddressOf v); simpl; [|discriminate].
  intros [= <-]. right. eauto.
Qed.

(** The fields of the store other than the validator records and the power
    index. *)
Definition rest_of_store (s : State)
  : gmap N N * gmap N Z * gmap Z (list N) * Z * Z * Params :=
  (validatorsByConsAddr s, lastValidatorPower s, validatorQueue s,
   lastTotalPower s, intraTxCounter s, params s).

Lemma rest_of_store_publish k ctx e s :
  rest_of_store (publish k ctx e s) = rest_of_store s.
Proof. by destruct (publish_cases k ctx e s) as [-> | ->]. Qed.

Lemma rest_of_store_SetValidator k ctx v s :
  rest_of_store (SetValidator k ctx v s) = rest_of_store s.
Proof. unfold SetValidator. by rewrite rest_of_store_publish. Qed.

Lemma rest_of_store_SetValidatorByPowerIndex v s :
  rest_of_store (SetValidatorByPowerIndex v s) = rest_of_store s.
Proof. unfold SetValidatorByPowerIndex. by destruct (Jailed v). Qed.

Lemma rest_of_store_callHook k v side main s s' :
  callHook k v side main s = Ok s' → rest_of_store s' = rest_of_store s.
Proof. intros H. by destruct (callHook_cases _ _ _ _ _ _ H) as [->|[e ->]]. Qed.

Lemma validatorsByPower_callHook k v side main s s' :
  callHook k v side main s = Ok s' → validatorsByPower s' = validatorsByPower s.
Proof. intros H. by destruct (callHook_cases _ _ _ _ _ _ H) as [->|[e ->]]. Qed.

Lemma SetValidatorByPowerIndex_validators v s :
  validators (SetValidatorByPowerIndex v s) = validators s.
Proof. unfold SetValidatorByPowerIndex. by destruct (Jailed v). Qed.

Lemma SetValidatorByPowerIndex_validatorsByPower v s :
  validatorsByPower (SetValidatorByPowerIndex v s)
  = if Jailed v then validatorsByPower s
    else <[GetValidatorsByPowerIndexKey v := OperatorAddr v]>
           (validatorsByPower s).
Proof. unfold SetValidatorByPowerIndex. by destruct (Jailed v). Qed.

(** The store after [bondValidator]. *)
Lemma bondValidator_store k ctx v s v1 s1 :
  bondValidator k ctx v s = Ok (v1, s1) →
  v1 = set_Status Bonded (set_BondHeight (BlockHeight ctx) v)
  ∧ validators s1 = <[OperatorAddr v := v1]> (validators s)
  ∧ validatorsByPower s1
    = (if Jailed v then delete (GetValidatorsByPowerIndexKey v)
                          (validatorsByPower s)
       else <[GetValidatorsByPowerIndexKey v1 := OperatorAddr v]>
              (delete (GetValidatorsByPowerIndexKey v) (validatorsByPower s)))
  ∧ rest_of_store s1 = rest_of_store s.
Proof.
  unfold bondValidator. simpl.
  match goal with
  | |- context [callHook ?k ?w ?a ?b ?st] =>
      destruct (callHook k w a b st) as [s2|] eqn:E
  end; simpl; [|discriminate].
  intros [= <- <-]. split; [reflexivity|].
  rewrite (callHook_validators _ _ _ _ _ _ E),
    (validatorsByPower_callHook _ _ _ _ _ _ E),
    (rest_of_store_callHook _ _ _ _ _ _ E).
  rewrite SetValidatorByPowerIndex_validators,
    SetValidatorByPowerIndex_validatorsByPower,
    rest_of_store_SetValidatorByPowerIndex.
  rewrite SetValidator_validators, SetValidator_validatorsByPower,
    rest_of_store_SetValidator. simpl.
  repeat split.
Qed.

(** The store after [beginUnbondingValidator]. *)
Lemma beginUnbondingValidator_store k ctx v s v1 s1 :
  beginUnbondingValidator k ctx v s = Ok (v1, s1) →
  Status v = Bonded
  ∧ v1 = set_Unbonding (BlockHeight ctx)
           (BlockTime ctx + UnbondingTime (params s))
           (set_Status Unbonding v)
  ∧ validators s1 = <[OperatorAddr v := v1]> (validators s)
  ∧ validatorsByPower s1
    = (if Jailed v then delete (GetValidatorsByPowerIndexKey v)
                          (validatorsByPower s)
       else <[GetValidatorsByPowerIndexKey v := OperatorAddr v]>
              (delete (GetValidatorsByPowerIndexKey v) (validatorsByPower s)))
  ∧ validatorQueue s1
    = <[UnbondingMinTime v1 :=
          GetValidatorQueueTimeSlice s (UnbondingMinTime v1)
          ++ [OperatorAddr v]]> (validatorQueue s)
  ∧ lastValidatorPower s1 = lastValidatorPower s
  ∧ validatorsByConsAddr s1 = validatorsByConsAddr s
  ∧ lastTotalPower s1 = lastTotalPower s
  ∧ intraTxCounter s1 = intraTxCounter s
  ∧ params s1 = params s.
Proof.
  unfold beginUnbondingValidator.
  destruct (Status v) eqn:Hst; try discriminate. simpl.
  match goal with
  | |- context [callHook ?k ?w ?a ?b ?st] =>
      destruct (callHook k w a b st) as [s2|] eqn:E
  end; simpl; [|discriminate].
  intros [= <- <-]. split; [reflexivity|]. split; [reflexivity|].
  pose proof (callHook_validators _ _ _ _ _ _ E) as Hv.
  pose proof (validatorsByPower_callHook _ _ _ _ _ _ E) as Hp.
  pose proof (rest_of_store_callHook _ _ _ _ _ _ E) as Hr.
  unfold rest_of_store in Hr. injection Hr as Hc Hl Hq Ht Hi Hpa.
  rewrite Hv, Hp, Hc, Hl, Hq, Ht, Hi, Hpa. clear E Hv Hp Hc Hl Hq Ht Hi Hpa.
  unfold InsertValidatorQueue, GetValidatorQueueTimeSlice,
    SetValidatorQueueTimeSlice.
  simpl UnbondingMinTime. simpl OperatorAddr.
  set (T := BlockTime ctx + UnbondingTime (params s)).
  assert (Hq : validatorQueue
                 (SetValidatorByPowerIndex
                    (set_Unbonding (BlockHeight ctx) T (set_Status Unbonding v))
                    (SetValidator k ctx
                       (set_Unbonding (BlockHeight ctx) T
                          (set_Status Unbonding v))
                       (with_pool
                          (UpdateStatus v (pool s) Unbonding).2
                          (DeleteValidatorByPowerIndex v s))))
               = validatorQueue s).
  { unfold SetValidatorByPowerIndex, SetValidator, publish. simpl.
    by destruct (Jailed v), (PbsbServer k && IsDeliverTx ctx). }
  unfold UpdateStatus in Hq |- *. rewrite Hst in Hq |- *. simpl in Hq |- *.
  rewrite Hq.
  destruct (validatorQueue s !! T) as [ts|] eqn:HT; simpl.
  - destruct ts as [|a ts]; simpl;
      unfold SetValidatorByPowerIndex, SetValidator, publish; simpl;
      destruct (Jailed v), (PbsbServer k && IsDeliverTx ctx); simpl;
      rewrite ?Hq; repeat split.
  - unfold SetValidatorByPowerIndex, SetValidator, publish; simpl;
      destruct (Jailed v), (PbsbServer k && IsDeliverTx ctx); simpl;
      repeat split.
Qed.

(** ** Consistency of the power index *)

(** Every stored validator that is not jailed has its entry in the power
    index, under its own key. *)
Definition power_index_complete (s : State) : Prop :=
  ∀ op v, validators s !! op = Some v → Jailed v = false →
    validatorsByPower s !! GetValidatorsByPowerIndexKey v = Some op.

(** The power index is consistent with the validator records: the records
    are filed under their operator addresses and the index holds exactly
    one entry for each validator that is not jailed, under its key. *)
Definition index_consistent (s : State) : Prop :=
  store_keyed s ∧ power_index_sound s ∧ power_index_complete s.

(** Replacing the stored record [v] by [v'] and its entry by that of [v']. *)
Lemma index_consistent_reindex s s' v v' :
  index_consistent s →
  validators s !! OperatorAddr v = Some v →
  OperatorAddr v' = OperatorAddr v →
  validators s' = <[OperatorAddr v := v']> (validators s) →
  validatorsByPower s'
  = (if Jailed v' then delete (GetValidatorsByPowerIndexKey v)
                          (validatorsByPower s)
     else <[GetValidatorsByPowerIndexKey v' := OperatorAddr v]>
            (delete (GetValidatorsByPowerIndexKey v) (validatorsByPower s))) →
  index_consistent s'.
Proof.
  intros (Hk & Hs & Hc) Hv Hop Hvals Hidx.
  assert (Hother : ∀ op w, op ≠ OperatorAddr v →
            validators s !! op = Some w →
            GetValidatorsByPowerIndexKey w ≠ GetValidatorsByPowerIndexKey v
            ∧ GetValidatorsByPowerIndexKey w ≠ GetValidatorsByPowerIndexKey v').
  { intros op w Hne Hw. pose proof (Hk op w Hw) as Ho. simpl in Ho.
    unfold GetValidatorsByPowerIndexKey. split; intros [= _ _ _ Heq];
      congruence. }
  split; [|split].
  - unfold store_keyed. rewrite Hvals. by apply map_Forall_insert_2.
  - intros key op Hin. rewrite Hidx in Hin. rewrite Hvals.
    assert (Hold : validatorsByPower s !! key = Some op →
                   key ≠ GetValidatorsByPowerIndexKey v →
                   ∃ w, <[OperatorAddr v := v']> (validators s) !! op = Some w
                     ∧ GetValidatorsByPowerIndexKey w = key
                     ∧ Jailed w = false).
    { intros Hin0 Hne. destruct (Hs key op Hin0) as (w & Hw & Hkey & Hj).
      destruct (decide (op = OperatorAddr v)) as [->|Hne2].
      - assert (w = v) by congruence. subst w. by destruct Hne.
      - exists w. by rewrite lookup_insert_ne. }
    destruct (Jailed v') eqn:Hj'.
    + rewrite lookup_delete in Hin. case_decide; [discriminate|].
      by apply Hold.
    + rewrite lookup_insert in Hin. case_decide as Hk'.
      * injection Hin as <-. exists v'. by rewrite lookup_insert_eq.
      * rewrite lookup_delete in Hin. case_decide; [discriminate|].
        by apply Hold.
  - intros op w Hw Hj. rewrite Hvals in Hw. rewrite Hidx.
    destruct (decide (op = OperatorAddr v)) as [->|Hne].
    + rewrite lookup_insert_eq in Hw. injection Hw as <-. rewrite Hj.
      apply lookup_insert_eq.
    + rewrite lookup_insert_ne in Hw by done.
      destruct (Hother op w Hne Hw) as [Hn1 Hn2].
      pose proof (Hc op w Hw Hj) as Hin.
      destruct (Jailed v').
      * by rewrite lookup_delete_ne.
      * rewrite lookup_insert_ne by done. by rewrite lookup_delete_ne.
Qed.

(** Deleting the stored record [v] together with its entry. *)
Lemma index_consistent_remove s s' v :
  index_consistent s →
  validators s !! OperatorAddr v = Some v →
  validators s' = delete (OperatorAddr v) (validators s) →
  validatorsByPower s'
  = delete (GetValidatorsByPowerIndexKey v) (validatorsByPower s) →
  index_consistent s'.
Proof.
  intros (Hk & Hs & Hc) Hv Hvals Hidx. split; [|split].
  - unfold store_keyed. rewrite Hvals. by apply map_Forall_delete.
  - intros key op Hin. rewrite Hidx in Hin. rewrite Hvals.
    rewrite lookup_delete in Hin. case_decide as Hne; [discriminate|].
    destruct (Hs key op Hin) as (w & Hw & Hkey & Hj).
    destruct (decide (op = OperatorAddr v)) as [->|Hne2].
    + assert (w = v) by congruence. subst w. by destruct Hne.
    + exists w. by rewrite lookup_delete_ne.
  - intros op w Hw Hj. rewrite Hvals in Hw. rewrite Hidx.
    rewrite lookup_delete in Hw. case_decide as Hne; [discriminate|].
    rewrite lookup_delete_ne; [by apply Hc|].
    pose proof (Hk op w Hw) as Ho. simpl in Ho.
    unfold GetValidatorsByPowerIndexKey. intros [= _ _ _ Heq]. congruence.
Qed.

(** Replacing the stored record by one of the same key and flag, the index
    staying as it is. *)
Lemma index_consistent_same_key s s' v v' :
  index_consistent s →
  validators s !! OperatorAddr v = Some v →
  OperatorAddr v' = OperatorAddr v →
  GetValidatorsByPowerIndexKey v' = GetValidatorsByPowerIndexKey v →
  Jailed v' = Jailed v →
  validators s' = <[OperatorAddr v := v']> (validators s) →
  validatorsByPower s' = validatorsByPower s →
  index_consistent s'.
Proof.
  intros Hcons Hv Hop Hkey Hj Hvals Hidx.
  eapply (index_consistent_reindex s s' v v'); try done.
  destruct Hcons as (Hk & Hs & Hc). rewrite Hidx, Hkey, Hj.
  destruct (Jailed v) eqn:Hjv.
  - symmetry. apply delete_id.
    destruct (validatorsByPower s !! GetValidatorsByPowerIndexKey v)
      as [op|] eqn:E; [|done].
    destruct (Hs _ _ E) as (w & Hw & Hkw & Hjw).
    assert (op = OperatorAddr v).
    { pose proof (Hk op w Hw) as Ho. simpl in Ho.
      unfold GetValidatorsByPowerIndexKey in Hkw. injection Hkw as _ _ _ Heq.
      congruence. }
    subst op. congruence.
  - rewrite insert_delete_eq. symmetry. apply insert_id. by apply Hc.
Qed.

Lemma bondValidator_consistent k ctx v s v1 s1 :
  index_consistent s →
  validators s !! OperatorAddr v = Some v →
  bondValidator k ctx v s = Ok (v1, s1) →
  index_consistent s1.
Proof.
  intros Hc Hv H. apply bondValidator_store in H.
  destruct H as (-> & Hvals & Hidx & _).
  by apply (index_consistent_reindex s s1 v
              (set_Status Bonded (set_BondHeight (BlockHeight ctx) v))).
Qed.

Lemma beginUnbondingValidator_consistent k ctx v s v1 s1 :
  index_consistent s →
  validators s !! OperatorAddr v = Some v →
  beginUnbondingValidator k ctx v s = Ok (v1, s1) →
  index_consistent s1.
Proof.
  intros Hc Hv H. apply beginUnbondingValidator_store in H.
  destruct H as (_ & -> & Hvals & Hidx & _).
  by apply (index_consistent_reindex s s1 v
              (set_Unbonding (BlockHeight ctx)
                 (BlockTime ctx + UnbondingTime (params s))
                 (set_Status Unbonding v))).
Qed.

Lemma completeUnbondingValidator_consistent k ctx v s :
  index_consistent s →
  validators s !! OperatorAddr v = Some v →
  index_consistent (completeUnbondingValidator k ctx v s).2.
Proof.
  intros Hc Hv. unfold completeUnbondingValidator. simpl.
  eapply (index_consistent_same_key s _ v (set_Status Unbonded v)); try done.
  - by rewrite SetValidator_validators.
  - by rewrite SetValidator_validatorsByPower.
Qed.

Lemma RemoveValidator_validatorsByPower k ctx address s s' v :
  validators s !! address = Some v →
  RemoveValidator k ctx address s = Ok s' →
  validatorsByPower s'
  = delete (GetValidatorsByPowerIndexKey v) (validatorsByPower s).
Proof.
  intros Hv. unfold RemoveValidator, GetValidator. rewrite Hv.
  destruct (if IsSideChainValidator v then Ok (SideConsAddr v)
            else ConsAddressOf v) as [c|]; simpl; [|discriminate].
  intros [= <-]. by destruct (publish_cases k ctx
    (ValidatorRemovedEvent (HasTx ctx) (OperatorAddr v) (SideChainId v))
    (with_validatorsByPower
       (delete (GetValidatorsByPowerIndexKey v) (validatorsByPower s))
       (with_validatorsByConsAddr (delete c (validatorsByConsAddr s))
          (with_validators (delete address (validators s)) s))))
    as [-> | ->].
Qed.

Lemma RemoveValidator_consistent k ctx address s s' :
  index_consistent s →
  RemoveValidator k ctx address s = Ok s' →
  index_consistent s'.
Proof.
  intros Hc H. destruct (validators s !! address) as [v|] eqn:Hv.
  - pose proof (store_keyed_lookup _ _ _ (proj1 Hc) Hv) as Hop.
    eapply (index_consistent_remove s s' v); try done.
    + by rewrite Hop.
    + rewrite Hop. by eapply RemoveValidator_validators.
    + by eapply RemoveValidator_validatorsByPower.
  - unfold RemoveValidator, GetValidator in H. rewrite Hv in H.
    by injection H as <-.
Qed.

Lemma jailValidator_consistent k ctx v s s1 :
  index_consistent s →
  validators s !! OperatorAddr v = Some v →
  jailValidator k ctx v s = Ok s1 →
  index_consistent s1.
Proof.
  intros Hc Hv. unfold jailValidator.
  destruct (Jailed v); [discriminate|]. intros [= <-].
  apply (index_consistent_reindex s _ v (set_Jailed true v)); try done.
  - simpl. by rewrite SetValidator_validators.
  - simpl. by rewrite SetValidator_validatorsByPower.
Qed.

Lemma unjailValidator_consistent k ctx v s s1 :
  index_consistent s →
  validators s !! OperatorAddr v = Some v →
  unjailValidator k ctx v s = Ok s1 →
  index_consistent s1.
Proof.
  intros Hc Hv. unfold unjailValidator.
  destruct (Jailed v); [|discriminate]. simpl. intros [= <-].
  apply (index_consistent_reindex s _ v (set_Jailed false v)); try done.
  - by rewrite SetValidatorByPowerIndex_validators, SetValidator_validators.
  - rewrite SetValidatorByPowerIndex_validatorsByPower,
      SetValidator_validatorsByPower. simpl.
    symmetry. apply insert_delete_eq.
Qed.

(** X1: the transitions keep the power index consistent with the records.
    Applied to a stored validator in a consistent store, [bondValidator],
    [beginUnbondingValidator], [completeUnbondingValidator],
    [jailValidator] and [unjailValidator] leave a consistent store, and so
    does [RemoveValidator] for any operator. *)
Theorem transitions_keep_index_consistent k ctx s v :
  index_consistent s →
  validators s !! OperatorAddr v = Some v →
  (∀ v1 s1, bondValidator k ctx v s = Ok (v1, s1) → index_consistent s1)
  ∧ (∀ v1 s1, beginUnbondingValidator k ctx v s = Ok (v1, s1) →
       index_consistent s1)
  ∧ index_consistent (completeUnbondingValidator k ctx v s).2
  ∧ (∀ address s1, RemoveValidator k ctx address s = Ok s1 →
       index_consistent s1)
  ∧ (∀ s1, jailValidator k ctx v s = Ok s1 → index_consistent s1)
  ∧ (∀ s1, unjailValidator k ctx v s = Ok s1 → index_consistent s1).
Proof.
  intros Hc Hv. split; [|split; [|split; [|split; [|split]]]].
  - intros v1 s1. by apply bondValidator_consistent.
  - intros v1 s1. by apply beginUnbondingValidator_consistent.
  - by apply completeUnbondingValidator_consistent.
  - intros address s1. by apply RemoveValidator_consistent.
  - intros s1. by apply jailValidator_consistent.
  - intros s1. by apply unjailValidator_consistent.
Qed.

Lemma index_consistent_ext s s' :
  validators s' = validators s →
  validatorsByPower s' = validatorsByPower s →
  index_consistent s → index_consistent s'.
Proof.
  intros Hv Hp (Hk & Hs & Hc). unfold index_consistent, store_keyed,
    power_index_sound, power_index_complete. rewrite Hv, Hp. done.
Qed.

(** A consistent power index holds one entry at most per operator, so the
    iterator meets no operator twice. *)
Lemma index_consistent_NoDup s :
  index_consistent s → NoDup (powerIterator s).
Proof.
  intros (Hk & Hs & _). unfold powerIterator.
  rewrite merge_sort_Permutation.
  apply NoDup_fmap_2_strong; [|apply NoDup_map_to_list].
  intros [k1 op1] [k2 op2] Hin1 Hin2 Heq. simpl in Heq. subst op2.
  apply elem_of_map_to_list in Hin1, Hin2.
  destruct (Hs _ _ Hin1) as (w1 & Hw1 & Hk1 & _).
  destruct (Hs _ _ Hin2) as (w2 & Hw2 & Hk2 & _).
  congruence.
Qed.


(** *** The token mutations *)

Lemma token_mutation_consistent k ctx s v v' :
  index_consistent s →
  validators s !! OperatorAddr v = Some v →
  OperatorAddr v' = OperatorAddr v →
  index_consistent
    (SetValidatorByPowerIndex v'
       (SetValidator k ctx v' (DeleteValidatorByPowerIndex v s))).
Proof.
  intros Hc Hv Hop.
  apply (index_consistent_reindex s _ v v'); try done.
  - rewrite SetValidatorByPowerIndex_validators, SetValidator_validators.
    simpl. by rewrite Hop.
  - rewrite SetValidatorByPowerIndex_validatorsByPower,
      SetValidator_validatorsByPower. simpl. by rewrite Hop.
Qed.

(** X2: the token mutations keep the power index consistent.  In a
    consistent store, adding tokens to a stored validator, removing shares
    or removing tokens from it leaves a consistent store, whatever the
    share conversion computes, as long as it keeps the operator address. *)
Theorem token_mutations_keep_index_consistent (bits : Z)
    (addTokens removeShares : Validator → Pool → Z → Res (Validator * Pool * Z))
    (removeTokens : Validator → Pool → Z → Res (Validator * Pool))
    k ctx s v :
  index_consistent s →
  validators s !! OperatorAddr v = Some v →
  (∀ n v' sh s',
     AddValidatorTokensAndShares bits addTokens k ctx v n s = Ok (v', sh, s') →
     OperatorAddr v' = OperatorAddr v → index_consistent s')
  ∧ (∀ n v' tk s',
     RemoveValidatorTokensAndShares removeShares k ctx v n s
       = Ok (v', tk, s') →
     OperatorAddr v' = OperatorAddr v → index_consistent s')
  ∧ (∀ n v' s',
     RemoveValidatorTokens removeTokens k ctx v n s = Ok (v', s') →
     OperatorAddr v' = OperatorAddr v → index_consistent s').
Proof.
  intros Hc Hv. split; [|split].
  - intros n v' sh s' H Hop. unfold AddValidatorTokensAndShares in H.
    destruct (addTokens v (pool s) n) as [[[v1 p1] sh1]|]; simpl in H;
      [|discriminate].
    injection H as <- <- <-. simpl in Hop.
    set (w := set_BondIntraTxCounter _ v1).
    eapply index_consistent_ext;
      [| |apply (token_mutation_consistent k ctx s v w Hc Hv Hop)].
    + unfold SetValidatorByPowerIndex, SetValidator, publish.
      by destruct (Jailed w), (PbsbServer k && IsDeliverTx ctx).
    + unfold SetValidatorByPowerIndex, SetValidator, publish.
      by destruct (Jailed w), (PbsbServer k && IsDeliverTx ctx).
  - intros n v' tk s' H Hop. unfold RemoveValidatorTokensAndShares in H.
    destruct (removeShares v (pool s) n) as [[[v1 p1] tk1]|]; simpl in H;
      [|discriminate].
    injection H as <- <- <-.
    eapply index_consistent_ext;
      [| |apply (token_mutation_consistent k ctx s v v1 Hc Hv Hop)].
    + unfold SetValidatorByPowerIndex, SetValidator, publish.
      by destruct (Jailed v1), (PbsbServer k && IsDeliverTx ctx).
    + unfold SetValidatorByPowerIndex, SetValidator, publish.
      by destruct (Jailed v1), (PbsbServer k && IsDeliverTx ctx).
  - intros n v' s' H Hop. unfold RemoveValidatorTokens in H.
    destruct (removeTokens v (pool s) n) as [[v1 p1]|]; simpl in H;
      [|discriminate].
    injection H as <- <-.
    eapply index_consistent_ext;
      [| |apply (token_mutation_consistent k ctx s v v1 Hc Hv Hop)].
    + unfold SetValidatorByPowerIndex, SetValidator, publish.
      by destruct (Jailed v1), (PbsbServer k && IsDeliverTx ctx).
    + unfold SetValidatorByPowerIndex, SetValidator, publish.
      by destruct (Jailed v1), (PbsbServer k && IsDeliverTx ctx).
Qed.

(** *** The loops *)

Lemma applyStateChange_cases k ctx v s v1 s1 :
  applyStateChange k ctx v s = Ok (v1, s1) →
  (Status v = Bonded ∧ v1 = v ∧ s1 = s)
  ∨ (Status v ≠ Bonded ∧ bondValidator k ctx v s = Ok (v1, s1)).
Proof.
  unfold applyStateChange, unbondedToBonded, unbondingToBonded.
  destruct (Status v) eqn:Hst; intros H.
  - right. by split.
  - right. by split.
  - left. by injection H as <- <-.
Qed.

(** A turn of the candidate loop that goes on, in full. *)
Lemma candidateStep_inv k ctx ls op ls1 :
  candidateStep k ctx ls op = Ok (Some ls1) →
  ∃ v v1 s1,
    validators (ls_state ls) !! op = Some v
    ∧ Jailed v = false ∧ Tokens v ≠ 0
    ∧ applyStateChange k ctx v (ls_state ls) = Ok (v1, s1)
    ∧ (ls_state ls1 = s1
       ∨ ls_state ls1 = SetLastValidatorPower op (BondedTokensOf v1) s1)
    ∧ lastValidatorPower (ls_state ls1)
      = (if decide (ls_last ls !! op = Some (BondedTokensOf v1))
         then lastValidatorPower s1
         else <[op := BondedTokensOf v1]> (lastValidatorPower s1))
    ∧ ls_last ls1 = delete op (ls_last ls)
    ∧ ls_newVals ls1 = ls_newVals ls ++ [v1]
    ∧ ls_count ls1 = S (ls_count ls)
    ∧ ls_totalPower ls1 = wrap64 (ls_totalPower ls + BondedTokensOf v1).
Proof.
  unfold candidateStep, mustGetValidator, GetValidator.
  destruct (validators (ls_state ls) !! op) as [v|] eqn:Hv; simpl;
    [|discriminate].
  destruct (Jailed v) eqn:Hj; [discriminate|].
  destruct (Tokens v =? 0) eqn:Ht; [discriminate|].
  apply Z.eqb_neq in Ht.
  destruct (applyStateChange k ctx v (ls_state ls)) as [[v1 s1]|] eqn:Ha;
    simpl; [|discriminate].
  intros [= <-]. simpl. exists v, v1, s1.
  do 4 (split; [done|]).
  destruct (ls_last ls !! op) as [old|] eqn:Hl.
  - destruct (old =? BondedTokensOf v1) eqn:He; simpl.
    + apply Z.eqb_eq in He. subst old.
      rewrite decide_True by done. repeat split; auto.
    + apply Z.eqb_neq in He.
      rewrite decide_False by congruence. repeat split; auto.
  - rewrite decide_False by done. repeat split; auto.
Qed.

Lemma candidateStep_consistent k ctx ls op ls1 :
  index_consistent (ls_state ls) →
  candidateStep k ctx ls op = Ok (Some ls1) →
  index_consistent (ls_state ls1).
Proof.
  intros Hc H. apply candidateStep_inv in H.
  destruct H as (v & v1 & s1 & Hv & _ & _ & Ha & Hst & _).
  pose proof (store_keyed_lookup _ _ _ (proj1 Hc) Hv) as Hop.
  assert (Hc1 : index_consistent s1).
  { destruct (applyStateChange_cases _ _ _ _ _ _ Ha)
      as [(_ & _ & ->)|(_ & Hb)]; [done|].
    eapply bondValidator_consistent; [exact Hc| |exact Hb]. by rewrite Hop. }
  destruct Hst as [-> | ->]; [done|].
  by eapply index_consistent_ext; [| |exact Hc1].
Qed.

Lemma candidateLoop_consistent k ctx max it ls ls' :
  index_consistent (ls_state ls) →
  candidateLoop k ctx max it ls = Ok ls' →
  index_consistent (ls_state ls').
Proof.
  revert ls. induction it as [|op rest IH]; intros ls Hc H; simpl in H.
  - by injection H as <-.
  - destruct (ls_count ls <? max)%nat; [|by injection H as <-].
    destruct (candidateStep k ctx ls op) as [[ls1|]|] eqn:Hstep;
      simpl in H; [| |discriminate].
    + apply (IH ls1); [|done]. by eapply candidateStep_consistent.
    + by injection H as <-.
Qed.

(** A turn of the loop over the no-longer-bonded operators, in full. *)
Lemma removalStep_inv k ctx s ups op s' ups' :
  removalStep k ctx (s, ups) op = Ok (s', ups') →
  ∃ v v1 s1 s2,
    validators s !! op = Some v
    ∧ beginUnbondingValidator k ctx v s = Ok (v1, s1)
    ∧ (if Tokens v =? 0
       then RemoveValidator k ctx (OperatorAddr v) s1 = Ok s2
       else s2 = s1)
    ∧ s' = DeleteLastValidatorPower op s2
    ∧ ups' = ups ++ match ConsPubKey v with
                    | Some pk => [(op, ABCIValidatorUpdateZero pk v)]
                    | None => []
                    end.
Proof.
  unfold removalStep, mustGetValidator, GetValidator.
  destruct (validators s !! op) as [v|] eqn:Hv; simpl; [|discriminate].
  unfold bondedToUnbonding.
  destruct (Status v) eqn:Hst; simpl; try discriminate.
  destruct (beginUnbondingValidator k ctx v s) as [[v1 s1]|] eqn:Hb;
    simpl; [|discriminate].
  destruct (Tokens v =? 0) eqn:Ht.
  - destruct (RemoveValidator k ctx (OperatorAddr v) s1) as [s2|] eqn:Hr;
      simpl; [|discriminate].
    intros [= <- <-]. exists v, v1, s1, s2. rewrite Ht.
    repeat split; try done.
    destruct (ConsPubKey v); [done|by rewrite app_nil_r].
  - simpl. intros [= <- <-]. exists v, v1, s1, s1. rewrite Ht.
    repeat split; try done.
    destruct (ConsPubKey v); [done|by rewrite app_nil_r].
Qed.

Lemma removalStep_consistent k ctx s ups op s' ups' :
  index_consistent s →
  removalStep k ctx (s, ups) op = Ok (s', ups') →
  index_consistent s'.
Proof.
  intros Hc H. apply removalStep_inv in H.
  destruct H as (v & v1 & s1 & s2 & Hv & Hb & Hr & -> & _).
  pose proof (store_keyed_lookup _ _ _ (proj1 Hc) Hv) as Hop.
  assert (Hc1 : index_consistent s1).
  { eapply beginUnbondingValidator_consistent; [exact Hc| |exact Hb].
    by rewrite Hop. }
  assert (Hc2 : index_consistent s2).
  { destruct (Tokens v =? 0); [|by subst s2].
    by eapply RemoveValidator_consistent. }
  by eapply index_consistent_ext; [| |exact Hc2].
Qed.

Lemma removalLoop_consistent k ctx ops s ups s' ups' :
  index_consistent s →
  removalLoop k ctx ops (s, ups) = Ok (s', ups') →
  index_consistent s'.
Proof.
  revert s ups. induction ops as [|op rest IH]; intros s ups Hc H;
    [simpl in H | rewrite removalLoop_cons in H].
  - by injection H as <- <-.
  - destruct (removalStep k ctx (s, ups) op) as [[s1 ups1]|] eqn:Hstep;
      simpl in H; [|discriminate].
    apply (IH s1 ups1); [|done]. by eapply removalStep_consistent.
Qed.

Lemma applyUpdatesOver_consistent k ctx it s newVals updates s' :
  index_consistent s →
  applyUpdatesOver k ctx it s = Ok (newVals, updates, s') →
  index_consistent s'.
Proof.
  intros Hc. unfold applyUpdatesOver.
  destruct (candidateLoop k ctx (MaxValidators (params s)) it
              (mkLoop s (getLastValidatorsByAddr s) [] [] 0%nat 0))
    as [ls|] eqn:Hl; simpl; [|discriminate].
  destruct (removalLoop k ctx (sortNoLongerBonded (ls_last ls))
              (ls_state ls, ls_updates ls)) as [[s1 ups]|] eqn:Hr;
    simpl; [|discriminate].
  intros [= <- <- <-].
  assert (Hc1 : index_consistent s1).
  { eapply removalLoop_consistent; [|exact Hr].
    eapply candidateLoop_consistent; [|exact Hl]. exact Hc. }
  destruct (0 <? length ups)%nat; [|done].
  by eapply index_consistent_ext; [| |exact Hc1].
Qed.

(** ** What a run of the candidate loop leaves *)

Lemma applyStateChange_store k ctx v s v1 s1 :
  applyStateChange k ctx v s = Ok (v1, s1) →
  validators s !! OperatorAddr v = Some v →
  Status v1 = Bonded
  ∧ core_of v1 = core_of v
  ∧ validators s1 = <[OperatorAddr v := v1]> (validators s)
  ∧ rest_of_store s1 = rest_of_store s
  ∧ (Status v = Bonded → v1 = v ∧ s1 = s).
Proof.
  intros H Hv. destruct (applyStateChange_cases _ _ _ _ _ _ H)
    as [(Hst & -> & ->)|(Hst & Hb)].
  - repeat split; try done. symmetry. by apply insert_id.
  - apply bondValidator_store in Hb. destruct Hb as (-> & Hvals & _ & Hr).
    repeat split; try done; by destruct Hst.
Qed.

Lemma candidateStep_keeps_bonded k ctx ls op ls1 op' w :
  store_keyed (ls_state ls) →
  candidateStep k ctx ls op = Ok (Some ls1) →
  validators (ls_state ls) !! op' = Some w → Status w = Bonded →
  validators (ls_state ls1) !! op' = Some w.
Proof.
  intros Hk H Hw Hb. apply candidateStep_inv in H.
  destruct H as (v & v1 & s1 & Hv & _ & _ & Ha & Hst & _).
  pose proof (store_keyed_lookup _ _ _ Hk Hv) as Hop.
  apply applyStateChange_store in Ha; [|by rewrite Hop].
  destruct Ha as (_ & _ & Hvals & _ & Hsame).
  assert (Hs1 : validators s1 !! op' = Some w).
  { destruct (decide (op' = op)) as [->|Hne].
    - assert (v = w) by congruence. subst w.
      destruct (Hsame Hb) as [_ ->]. done.
    - rewrite Hvals, Hop. by rewrite lookup_insert_ne. }
  by destruct Hst as [-> | ->].
Qed.

Lemma candidateLoop_keeps_bonded k ctx max it ls ls' op' w :
  store_keyed (ls_state ls) →
  candidateLoop k ctx max it ls = Ok ls' →
  validators (ls_state ls) !! op' = Some w → Status w = Bonded →
  validators (ls_state ls') !! op' = Some w.
Proof.
  revert ls. induction it as [|op rest IH]; intros ls Hk H Hw Hb;
    simpl in H.
  - by injection H as <-.
  - destruct (ls_count ls <? max)%nat; [|by injection H as <-].
    destruct (candidateStep k ctx ls op) as [[ls1|]|] eqn:Hstep;
      simpl in H; [| |discriminate].
    + apply (IH ls1); try done.
      * eapply store_keyed_same_cores; [|exact Hk].
        by eapply candidateStep_cores.
      * by eapply candidateStep_keeps_bonded.
    + by injection H as <-.
Qed.

(** The working copy of the last bonded set agrees with the stored one
    wherever it still has an entry. *)
Definition last_linked (ls : LoopState) : Prop :=
  ∀ op, ls_last ls !! op = None
        ∨ ls_last ls !! op = lastValidatorPower (ls_state ls) !! op.

(** What the loop has done when it returns [ls'] from [ls], having appended
    the validators [nv] to the bonded set. *)
Definition candidate_run (it : list ValAddress) (ls ls' : LoopState)
    (nv : list Validator) : Prop :=
  ls_newVals ls' = ls_newVals ls ++ nv
  ∧ (OperatorAddr <$> nv) `prefix_of` it
  ∧ Forall (λ w, Status w = Bonded ∧ Tokens w ≠ 0 ∧ Jailed w = false
                 ∧ validators (ls_state ls') !! OperatorAddr w = Some w) nv
  ∧ (∀ op, ls_last ls' !! op
           = if decide (op ∈ OperatorAddr <$> nv) then None
             else ls_last ls !! op)
  ∧ (∀ op, lastValidatorPower (ls_state ls') !! op
           = if decide (op ∈ OperatorAddr <$> nv)
             then Tokens <$> validators (ls_state ls') !! op
             else lastValidatorPower (ls_state ls) !! op)
  ∧ (∀ op, op ∉ OperatorAddr <$> nv →
       validators (ls_state ls') !! op = validators (ls_state ls) !! op)
  ∧ ls_count ls' = (ls_count ls + length nv)%nat
  ∧ ls_totalPower ls'
    = foldl (λ acc w, wrap64 (acc + Tokens w)) (ls_totalPower ls) nv
  ∧ validatorQueue (ls_state ls') = validatorQueue (ls_state ls)
  ∧ lastTotalPower (ls_state ls') = lastTotalPower (ls_state ls)
  ∧ params (ls_state ls') = params (ls_state ls).

Lemma candidate_run_nil it ls : candidate_run it ls ls [].
Proof.
  unfold candidate_run. rewrite app_nil_r. simpl.
  repeat split; try done; try apply prefix_nil; lia.
Qed.

Lemma candidateLoop_run k ctx max it ls ls' :
  store_keyed (ls_state ls) → last_linked ls →
  candidateLoop k ctx max it ls = Ok ls' →
  ∃ nv, candidate_run it ls ls' nv.
Proof.
  revert ls. induction it as [|op rest IH]; intros ls Hk Hlink H;
    simpl in H.
  - injection H as <-. exists []. apply candidate_run_nil.
  - destruct (ls_count ls <? max)%nat;
      [|injection H as <-; exists []; apply candidate_run_nil].
    destruct (candidateStep k ctx ls op) as [[ls1|]|] eqn:Hstep;
      simpl in H;
      [|injection H as <-; exists []; apply candidate_run_nil|discriminate].
    pose proof (candidateStep_cores _ _ _ _ _ Hk Hstep) as Hcores.
    assert (Hk1 : store_keyed (ls_state ls1))
      by (by eapply store_keyed_same_cores).
    pose proof (candidateStep_inv _ _ _ _ _ Hstep) as Hinv.
    destruct Hinv as (v & v1 & s1 & Hv & Hj & Ht & Ha & Hst & Hlp & Hl1
                      & Hn1 & Hc1 & Htp).
    pose proof (store_keyed_lookup _ _ _ Hk Hv) as Hop.
    apply applyStateChange_store in Ha; [|by rewrite Hop].
    destruct Ha as (Hb1 & Hcore & Hvals & Hrest & _).
    injection Hcore as Ho1 _ Ht1 Hj1. rewrite Hop in Ho1, Hvals.
    unfold rest_of_store in Hrest. injection Hrest as _ Hlast Hq Htot _ Hpar.
    assert (Hv1 : validators (ls_state ls1) = <[op := v1]>
                                               (validators (ls_state ls))).
    { by destruct Hst as [-> | ->]. }
    assert (Hq1 : validatorQueue (ls_state ls1) = validatorQueue (ls_state ls)
                  ∧ lastTotalPower (ls_state ls1) = lastTotalPower (ls_state ls)
                  ∧ params (ls_state ls1) = params (ls_state ls)).
    { by destruct Hst as [-> | ->]. }
    assert (Hbt : BondedTokensOf v1 = Tokens v1).
    { unfold BondedTokensOf. by rewrite Hb1. }
    rewrite Hbt, Hlast in Hlp.
    assert (Hlp_op : lastValidatorPower (ls_state ls1) !! op
                     = Some (Tokens v1)).
    { rewrite Hlp. case_decide as Hd.
      - destruct (Hlink op) as [Hn|He]; congruence.
      - apply lookup_insert_eq. }
    assert (Hlp_ne : ∀ op', op' ≠ op →
              lastValidatorPower (ls_state ls1) !! op'
              = lastValidatorPower (ls_state ls) !! op').
    { intros op' Hne. rewrite Hlp. case_decide; [done|].
      by rewrite lookup_insert_ne. }
    assert (Hlink1 : last_linked ls1).
    { intros op'. rewrite Hl1. destruct (decide (op' = op)) as [->|Hne].
      - left. apply lookup_delete_eq.
      - rewrite lookup_delete_ne by done. rewrite (Hlp_ne op' Hne).
        apply Hlink. }
    destruct (IH ls1 Hk1 Hlink1 H)
      as (nv & Hnv & Hpre & Hall & Hlst & Hlpw & Hfr & Hcnt & Htot'
          & Hqq & Htt & Hpp).
    assert (Hkeep : validators (ls_state ls') !! op = Some v1).
    { eapply candidateLoop_keeps_bonded; [exact Hk1|exact H| |exact Hb1].
      rewrite Hv1. apply lookup_insert_eq. }
    exists (v1 :: nv). unfold candidate_run.
    rewrite fmap_cons, Ho1. split; [|split; [|split; [|split; [|split;
      [|split; [|split; [|split; [|split; [|split]]]]]]]]].
    + rewrite Hnv, Hn1. by rewrite <- app_assoc.
    + by apply prefix_cons.
    + constructor; [|done]. rewrite Ho1. repeat split; try done; congruence.
    + intros op'. rewrite Hlst, Hl1.
      destruct (decide (op' = op)) as [->|Hne].
      * rewrite lookup_delete_eq.
        rewrite (decide_True (P := op ∈ op :: _)) by apply list_elem_of_here.
        by destruct (decide (op ∈ OperatorAddr <$> nv)).
      * rewrite lookup_delete_ne by done.
        destruct (decide (op' ∈ OperatorAddr <$> nv)) as [Hin|Hnin].
        -- by rewrite decide_True by (by apply list_elem_of_further).
        -- rewrite decide_False; [done|]. rewrite elem_of_cons.
           intros [Heq|Hin2]; [exact (Hne Heq) | exact (Hnin Hin2)].
    + intros op'. rewrite Hlpw.
      destruct (decide (op' ∈ OperatorAddr <$> nv)) as [Hin|Hnin].
      * by rewrite decide_True by (by apply list_elem_of_further).
      * destruct (decide (op' = op)) as [->|Hne].
        -- rewrite (decide_True (P := op ∈ op :: _))
             by apply list_elem_of_here.
           by rewrite Hlp_op, Hkeep.
        -- rewrite decide_False.
           ++ by apply Hlp_ne.
           ++ rewrite elem_of_cons.
              intros [Heq|Hin2]; [exact (Hne Heq) | exact (Hnin Hin2)].
    + intros op' Hnin.
      assert (op' ≠ op) by (intros ->; apply Hnin, list_elem_of_here).
      rewrite Hfr.
      * rewrite Hv1. by rewrite lookup_insert_ne.
      * intros Hin. apply Hnin. by apply list_elem_of_further.
    + rewrite Hcnt, Hc1. simpl. lia.
    + simpl. rewrite Htot', Htp, Hbt. done.
    + rewrite Hqq. apply Hq1.
    + rewrite Htt. apply Hq1.
    + rewrite Hpp. apply Hq1.
Qed.

(** ** What a run of the loop over the no-longer-bonded operators leaves *)

Lemma RemoveValidator_rest k ctx address s s' :
  RemoveValidator k ctx address s = Ok s' →
  lastValidatorPower s' = lastValidatorPower s
  ∧ validatorQueue s' = validatorQueue s
  ∧ lastTotalPower s' = lastTotalPower s
  ∧ params s' = params s.
Proof.
  unfold RemoveValidator. destruct (GetValidator s address) as [v|].
  - destruct (if IsSideChainValidator v then Ok (SideConsAddr v)
              else ConsAddressOf v) as [c|]; simpl; [|discriminate].
    intros [= <-]. unfold publish.
    by destruct (PbsbServer k && IsDeliverTx ctx).
  - by intros [= <-].
Qed.

(** The record an unbonding leaves for [v]. *)
Definition unbondingRecord (ctx : Context) (s : State) (v : Validator)
  : Validator :=
  set_Unbonding (BlockHeight ctx) (BlockTime ctx + UnbondingTime (params s))
    (set_Status Unbonding v).

Lemma removalStep_store k ctx s ups op s' ups' :
  store_keyed s →
  removalStep k ctx (s, ups) op = Ok (s', ups') →
  ∃ v, validators s !! op = Some v
    ∧ Status v = Bonded
    ∧ validators s'
      = (if Tokens v =? 0 then delete op (validators s)
         else <[op := unbondingRecord ctx s v]> (validators s))
    ∧ lastValidatorPower s' = delete op (lastValidatorPower s)
    ∧ validatorQueue s'
      = <[BlockTime ctx + UnbondingTime (params s) :=
            GetValidatorQueueTimeSlice s
              (BlockTime ctx + UnbondingTime (params s)) ++ [op]]>
          (validatorQueue s)
    ∧ lastTotalPower s' = lastTotalPower s
    ∧ params s' = params s.
Proof.
  intros Hk H. apply removalStep_inv in H.
  destruct H as (v & v1 & s1 & s2 & Hv & Hb & Hr & -> & _).
  pose proof (store_keyed_lookup _ _ _ Hk Hv) as Hop.
  apply beginUnbondingValidator_store in Hb.
  destruct Hb as (Hst & -> & Hvals & _ & Hq & Hl & _ & Ht & _ & Hp).
  simpl UnbondingMinTime in Hq. rewrite Hop in Hvals, Hq.
  exists v. split; [done|]. split; [done|].
  unfold DeleteLastValidatorPower. simpl.
  destruct (Tokens v =? 0).
  - pose proof (RemoveValidator_validators _ _ _ _ _ Hr) as Hv2.
    destruct (RemoveValidator_rest _ _ _ _ _ Hr) as (Hl2 & Hq2 & Ht2 & Hp2).
    rewrite Hv2, Hl2, Hq2, Ht2, Hp2, Hvals, Hl, Hq, Ht, Hp, Hop.
    rewrite delete_insert_eq. repeat split.
  - subst s2. rewrite Hvals, Hl, Hq, Ht, Hp. repeat split.
Qed.

Definition removal_run (ctx : Context) (ops : list ValAddress)
    (s s' : State) : Prop :=
  NoDup ops
  ∧ (∀ op, op ∈ ops →
       ∃ v, validators s !! op = Some v
         ∧ Status v = Bonded
         ∧ validators s' !! op
           = if Tokens v =? 0 then None
             else Some (unbondingRecord ctx s v))
  ∧ (∀ op, op ∉ ops → validators s' !! op = validators s !! op)
  ∧ (∀ op, lastValidatorPower s' !! op
           = if decide (op ∈ ops) then None else lastValidatorPower s !! op)
  ∧ GetValidatorQueueTimeSlice s' (BlockTime ctx + UnbondingTime (params s))
    = GetValidatorQueueTimeSlice s (BlockTime ctx + UnbondingTime (params s))
      ++ ops
  ∧ (∀ t, t ≠ BlockTime ctx + UnbondingTime (params s) →
       validatorQueue s' !! t = validatorQueue s !! t)
  ∧ lastTotalPower s' = lastTotalPower s
  ∧ params s' = params s.

Lemma store_keyed_insert s s' op v :
  store_keyed s → OperatorAddr v = op →
  validators s' = <[op := v]> (validators s) → store_keyed s'.
Proof.
  intros Hk Hop Hv. unfold store_keyed. rewrite Hv.
  by apply map_Forall_insert_2.
Qed.

Lemma store_keyed_delete s s' op :
  store_keyed s → validators s' = delete op (validators s) → store_keyed s'.
Proof.
  intros Hk Hv. unfold store_keyed. rewrite Hv. by apply map_Forall_delete.
Qed.

Lemma removalLoop_run k ctx ops s ups s' ups' :
  store_keyed s →
  removalLoop k ctx ops (s, ups) = Ok (s', ups') →
  removal_run ctx ops s s'.
Proof.
  revert s ups. induction ops as [|a rest IH]; intros s ups Hk H;
    [simpl in H | rewrite removalLoop_cons in H].
  - injection H as <- <-. unfold removal_run. rewrite app_nil_r.
    repeat split; try done.
    + constructor.
    + intros op Hin. by apply elem_of_nil in Hin.
  - destruct (removalStep k ctx (s, ups) a) as [[s1 ups1]|] eqn:Hstep;
      simpl in H; [|discriminate].
    destruct (removalStep_store _ _ _ _ _ _ _ Hk Hstep)
      as (v & Hv & Hst & Hvals & Hl & Hq & Ht & Hp).
    pose proof (store_keyed_lookup _ _ _ Hk Hv) as Hop.
    assert (Hk1 : store_keyed s1).
    { destruct (Tokens v =? 0).
      - by eapply store_keyed_delete.
      - eapply store_keyed_insert; [exact Hk| |exact Hvals]. done. }
    destruct (IH s1 ups1 Hk1 H)
      as (Hnd & Hin & Hout & Hlast & Hslice & Hoth & Htot & Hpar).
    rewrite Hp in Hslice, Hoth.
    set (T := BlockTime ctx + UnbondingTime (params s)) in *.
    assert (Ha : validators s1 !! a
                 = if Tokens v =? 0 then None
                   else Some (unbondingRecord ctx s v)).
    { rewrite Hvals. destruct (Tokens v =? 0).
      - apply lookup_delete_eq.
      - apply lookup_insert_eq. }
    assert (Hne : ∀ op, op ≠ a → validators s1 !! op = validators s !! op).
    { intros op Hn. rewrite Hvals. destruct (Tokens v =? 0).
      - by rewrite lookup_delete_ne.
      - by rewrite lookup_insert_ne. }
    assert (Hnot : a ∉ rest).
    { intros Hc. destruct (Hin a Hc) as (w & Hw & Hsw & _).
      rewrite Ha in Hw. destruct (Tokens v =? 0); [discriminate|].
      injection Hw as <-. discriminate. }
    unfold removal_run. fold T.
    split; [|split; [|split; [|split; [|split; [|split; [|split]]]]]].
    + by constructor.
    + intros op Hop'. apply elem_of_cons in Hop'.
      destruct Hop' as [->|Hop'].
      * exists v. split; [done|]. split; [done|].
        rewrite (Hout a Hnot). exact Ha.
      * assert (op ≠ a) by (intros ->; done).
        destruct (Hin op Hop') as (w & Hw & Hsw & Hres).
        exists w. rewrite <- (Hne op) by done. split; [done|].
        split; [done|]. rewrite Hres. unfold unbondingRecord.
        by rewrite Hp.
    + intros op Hnin.
      assert (op ≠ a) by (intros ->; apply Hnin, list_elem_of_here).
      rewrite Hout.
      * by apply Hne.
      * intros Hc. apply Hnin. by apply list_elem_of_further.
    + intros op. rewrite Hlast, Hl.
      destruct (decide (op = a)) as [->|Hn].
      * rewrite lookup_delete_eq.
        rewrite (decide_True (P := a ∈ a :: rest)) by apply list_elem_of_here.
        by destruct (decide (a ∈ rest)).
      * rewrite lookup_delete_ne by done.
        destruct (decide (op ∈ rest)) as [Hi|Hni].
        -- by rewrite decide_True by (by apply list_elem_of_further).
        -- rewrite decide_False; [done|]. rewrite elem_of_cons.
           intros [Heq|Hin2]; [exact (Hn Heq) | exact (Hni Hin2)].
    + rewrite Hslice. unfold GetValidatorQueueTimeSlice at 1.
      rewrite Hq. rewrite lookup_insert_eq. simpl.
      by rewrite <- app_assoc.
    + intros t Hnt. rewrite (Hoth t Hnt), Hq. by rewrite lookup_insert_ne.
    + congruence.
    + congruence.
Qed.

(** ** [ApplyAndReturnValidatorSetUpdates]: what it returns and leaves *)

Lemma candidateLoop_adds k ctx max it ls ls' :
  store_keyed (ls_state ls) →
  candidateLoop k ctx max it ls = Ok ls' →
  ∃ new, ls_updates ls' = ls_updates ls ++ new
    ∧ Forall (λ x, ∃ w pk, w ∈ ls_newVals ls'
                ∧ ConsPubKey w = Some pk
                ∧ x = (OperatorAddr w, mkUpdate pk (Tokens w))) new.
Proof.
  revert ls. induction it as [|op rest IH]; intros ls Hk H; simpl in H.
  - injection H as <-. exists []. by rewrite app_nil_r.
  - destruct (ls_count ls <? max)%nat;
      [|injection H as <-; exists []; by rewrite app_nil_r].
    destruct (candidateStep k ctx ls op) as [[ls1|]|] eqn:Hstep;
      simpl in H;
      [|injection H as <-; exists []; by rewrite app_nil_r|discriminate].
    pose proof (candidateStep_cores _ _ _ _ _ Hk Hstep) as Hcores.
    assert (Hk1 : store_keyed (ls_state ls1))
      by (by eapply store_keyed_same_cores).
    destruct (IH ls1 Hk1 H) as (new & Hnew & Hall).
    destruct (candidateLoop_outputs _ _ _ _ _ _ Hk1 H) as [(nv & Hnv & _) _].
    apply candidateStep_Some in Hstep.
    destruct Hstep as (v & v1 & s1 & new1 & Hv & _ & _ & Ha & _ & _ & _
                       & Hn1 & Hu1 & Hnew1).
    pose proof (store_keyed_lookup _ _ _ Hk Hv) as Hop.
    apply applyStateChange_validators in Ha; [|by rewrite Hop].
    destruct Ha as (Hcore & Hst & _). injection Hcore as Ho1 _ _ _.
    exists (new1 ++ new). split.
    + rewrite Hnew, Hu1. by rewrite app_assoc.
    + apply Forall_app. split; [|done].
      destruct Hnew1 as [->|(pk & Hpk & ->)]; [constructor|].
      constructor; [|constructor].
      exists v1, pk. split; [|split; [done|]].
      * rewrite Hnv, Hn1. apply elem_of_app. left. apply elem_of_app.
        right. apply list_elem_of_here.
      * unfold ABCIValidatorUpdate, BondedTokensOf. rewrite Hst.
        congruence.
Qed.

(** The two loops of a run that returns. *)
Lemma applyUpdatesOver_run k ctx it s newVals updates s' :
  store_keyed s →
  applyUpdatesOver k ctx it s = Ok (newVals, updates, s') →
  ∃ ls s1 adds removals,
    candidate_run it (mkLoop s (getLastValidatorsByAddr s) [] [] 0%nat 0)
      ls newVals
    ∧ (ls_count ls ≤ MaxValidators (params s))%nat
    ∧ removal_run ctx (sortNoLongerBonded (ls_last ls)) (ls_state ls) s1
    ∧ updates = adds ++ removals
    ∧ Forall (λ x, ∃ w pk, w ∈ newVals ∧ ConsPubKey w = Some pk
                ∧ x = (OperatorAddr w, mkUpdate pk (Tokens w))) adds
    ∧ removals.*1 `sublist_of` sortNoLongerBonded (ls_last ls)
    ∧ Forall (λ x, upd_Power x.2 = 0) removals
    ∧ validators s' = validators s1
    ∧ lastValidatorPower s' = lastValidatorPower s1
    ∧ validatorQueue s' = validatorQueue s1
    ∧ lastTotalPower s'
      = (if (0 <? length updates)%nat then ls_totalPower ls
         else lastTotalPower s1).
Proof.
  intros Hk. unfold applyUpdatesOver.
  destruct (candidateLoop k ctx (MaxValidators (params s)) it
              (mkLoop s (getLastValidatorsByAddr s) [] [] 0%nat 0))
    as [ls|] eqn:Hl; simpl; [|discriminate].
  destruct (removalLoop k ctx (sortNoLongerBonded (ls_last ls))
              (ls_state ls, ls_updates ls)) as [[s1 ups]|] eqn:Hr;
    simpl; [|discriminate].
  intros [= <- <- <-].
  assert (Hk0 : store_keyed
                  (ls_state (mkLoop s (getLastValidatorsByAddr s) [] []
                               0%nat 0))) by exact Hk.
  assert (Hlink : last_linked (mkLoop s (getLastValidatorsByAddr s) [] []
                                 0%nat 0)).
  { intros op. by right. }
  destruct (candidateLoop_run _ _ _ _ _ _ Hk0 Hlink Hl) as (nv & Hrun).
  assert (Hnv : ls_newVals ls = nv) by (destruct Hrun as (-> & _); done).
  subst nv.
  pose proof (candidateLoop_cores _ _ _ _ _ _ Hk0 Hl) as Hcores.
  assert (Hk1 : store_keyed (ls_state ls))
    by (by eapply store_keyed_same_cores).
  pose proof (removalLoop_run _ _ _ _ _ _ _ Hk1 Hr) as Hrem.
  destruct (candidateLoop_adds _ _ _ _ _ _ Hk0 Hl) as (adds & Hadds & Hall).
  simpl in Hadds.
  destruct (removalLoop_updates _ _ _ _ _ _ _ Hr) as (rem & -> & Hsub & Hz).
  destruct (candidateLoop_spec _ _ _ _ _ _ Hl) as (_ & _ & _ & _ & _ & _
                                                   & _ & Hmax).
  exists ls, s1, adds, rem. rewrite Hadds.
  split; [done|]. split; [apply Hmax; simpl; lia|]. split; [done|].
  split; [done|]. split; [done|]. split; [done|]. split; [done|].
  by destruct (0 <? length (adds ++ rem))%nat.
Qed.

(** X4: the bonded set that [ApplyAndReturnValidatorSetUpdates] returns has
    at most [MaxValidators] validators; their operators are the first
    entries of the power-index iteration, in its order; each of them is
    bonded, not jailed, has tokens, and is the record stored for its
    operator when the function returns. *)
Theorem returned_bonded_set k ctx s newVals updates s' :
  store_keyed s →
  ApplyAndReturnValidatorSetUpdatesBy k ctx s = Ok (newVals, updates, s') →
  (length newVals ≤ MaxValidators (params s))%nat
  ∧ (OperatorAddr <$> newVals) `prefix_of` powerIterator s
  ∧ Forall (λ w, Status w = Bonded ∧ Tokens w ≠ 0 ∧ Jailed w = false
                 ∧ validators s' !! OperatorAddr w = Some w) newVals.
Proof.
  intros Hk H.
  destruct (applyUpdatesOver_run _ _ _ _ _ _ _ Hk H)
    as (ls & s1 & adds & rem & Hrun & Hmax & Hrem & _ & _ & _ & _ & Hv & _).
  destruct Hrun as (_ & Hpre & Hall & Hlast & _ & _ & Hcnt & _).
  simpl in Hcnt. split; [lia|]. split; [done|].
  destruct Hrem as (_ & _ & Hout & _).
  apply Forall_forall. intros w Hin.
  destruct (proj1 (Forall_forall _ _) Hall w Hin) as (Hb & Ht & Hj & Hw).
  repeat split; try done. rewrite Hv, Hout; [done|].
  intros Hin2. apply sortNoLongerBonded_elem in Hin2. rewrite Hlast in Hin2.
  rewrite decide_True in Hin2.
  - by destruct Hin2.
  - apply list_elem_of_fmap. by exists w.
Qed.

(** X5: when [ApplyAndReturnValidatorSetUpdates] returns, the
    last-validator-power keyspace mirrors the returned bonded set: it holds a
    power for an operator exactly when a validator of the returned set has
    that operator, and the power is that validator's tokens. *)
Theorem last_validator_power_mirrors_bonded_set k ctx s newVals updates s' :
  store_keyed s →
  ApplyAndReturnValidatorSetUpdatesBy k ctx s = Ok (newVals, updates, s') →
  ∀ op power,
    lastValidatorPower s' !! op = Some power
    ↔ ∃ w, w ∈ newVals ∧ OperatorAddr w = op ∧ Tokens w = power.
Proof.
  intros Hk H op power.
  destruct (applyUpdatesOver_run _ _ _ _ _ _ _ Hk H)
    as (ls & s1 & adds & rem & Hrun & _ & Hrem & _ & _ & _ & _ & _ & Hl & _).
  destruct Hrun as (_ & _ & Hall & Hlast & Hlpw & _).
  destruct Hrem as (_ & _ & _ & Hlast1 & _).
  rewrite Hl, Hlast1. simpl in Hlast, Hlpw.
  assert (Hops : iff (op ∈ sortNoLongerBonded (ls_last ls))
                   ((op ∉ OperatorAddr <$> newVals)
                    ∧ is_Some (lastValidatorPower s !! op))).
  { rewrite sortNoLongerBonded_elem, Hlast. unfold getLastValidatorsByAddr.
    case_decide as Hd; split.
    - intros [? [=]].
    - by intros [? _].
    - done.
    - by intros [_ ?]. }
  destruct (decide (op ∈ OperatorAddr <$> newVals)) as [Hin|Hnin].
  - rewrite decide_False by (rewrite Hops; intros [? _]; done).
    rewrite Hlpw, decide_True by done.
    apply list_elem_of_fmap in Hin. destruct Hin as (w & -> & Hw).
    destruct (proj1 (Forall_forall _ _) Hall w Hw) as (_ & _ & _ & Hst).
    rewrite Hst. simpl. split.
    + intros [= <-]. by exists w.
    + intros (w' & Hw' & Hop & <-).
      destruct (proj1 (Forall_forall _ _) Hall w' Hw') as (_ & _ & _ & Hst').
      rewrite Hop, Hst in Hst'. by injection Hst' as <-.
  - split.
    + intros Hsome. exfalso. case_decide as Hd; [discriminate|].
      rewrite Hlpw, decide_False in Hsome by done.
      apply Hd, Hops. split; [done|]. by eexists.
    + intros (w & Hw & <- & _). destruct Hnin.
      apply list_elem_of_fmap. by exists w.
Qed.

(** X6: an operator of the last bonded set whose validator is not in the
    returned bonded set was bonded, and when the function returns its entry
    of the last-validator-power keyspace is gone; its record is gone if it
    had no tokens, and else is unbonding, with the block height as unbonding
    height and the block time plus the unbonding time as minimal unbonding
    time; and the operator is listed in the queue timeslice of that time. *)
Theorem no_longer_bonded_begin_unbonding k ctx s newVals updates s' op :
  store_keyed s →
  ApplyAndReturnValidatorSetUpdatesBy k ctx s = Ok (newVals, updates, s') →
  is_Some (lastValidatorPower s !! op) →
  op ∉ OperatorAddr <$> newVals →
  ∃ v, validators s !! op = Some v
    ∧ Status v = Bonded
    ∧ lastValidatorPower s' !! op = None
    ∧ validators s' !! op
      = (if Tokens v =? 0 then None else Some (unbondingRecord ctx s v))
    ∧ op ∈ GetValidatorQueueTimeSlice s'
             (BlockTime ctx + UnbondingTime (params s)).
Proof.
  intros Hk H Hsome Hnin.
  destruct (applyUpdatesOver_run _ _ _ _ _ _ _ Hk H)
    as (ls & s1 & adds & rem & Hrun & _ & Hrem & _ & _ & _ & _ & Hv & Hl
        & Hq & _).
  destruct Hrun as (_ & _ & _ & Hlast & _ & Hfr & _ & _ & _ & _ & Hpar).
  destruct Hrem as (_ & Hin & _ & Hlast1 & Hslice & _).
  simpl in Hlast, Hfr, Hpar.
  assert (Hop : op ∈ sortNoLongerBonded (ls_last ls)).
  { apply sortNoLongerBonded_elem. rewrite Hlast.
    by rewrite decide_False by done. }
  destruct (Hin op Hop) as (v & Hvl & Hst & Hres).
  exists v. rewrite <- (Hfr op Hnin). split; [done|]. split; [done|].
  split; [|split].
  - rewrite Hl, Hlast1. by rewrite decide_True.
  - rewrite Hv, Hres. unfold unbondingRecord. by rewrite Hpar.
  - unfold GetValidatorQueueTimeSlice in *. rewrite Hq, <- Hpar, Hslice.
    apply elem_of_app. by right.
Qed.

(** X7: the last total power is written only when the update list is not
    empty; it is then the sum, in [int64] arithmetic, of the tokens of the
    returned bonded set. *)
Theorem last_total_power_after_apply k ctx s newVals updates s' :
  store_keyed s →
  ApplyAndReturnValidatorSetUpdatesBy k ctx s = Ok (newVals, updates, s') →
  lastTotalPower s'
  = match updates with
    | [] => lastTotalPower s
    | _ => foldl (λ acc w, wrap64 (acc + Tokens w)) 0 newVals
    end.
Proof.
  intros Hk H.
  destruct (applyUpdatesOver_run _ _ _ _ _ _ _ Hk H)
    as (ls & s1 & adds & rem & Hrun & _ & Hrem & _ & _ & _ & _ & _ & _
        & _ & Ht).
  destruct Hrun as (_ & _ & _ & _ & _ & _ & _ & Htot & _ & Hlt & _).
  destruct Hrem as (_ & _ & _ & _ & _ & _ & Hlt1 & _).
  simpl in Htot, Hlt. rewrite Ht.
  destruct updates; simpl; congruence.
Qed.

Lemma sublist_StronglySorted {A} (R : relation A) (l1 l2 : list A) :
  l1 `sublist_of` l2 → StronglySorted R l2 → StronglySorted R l1.
Proof.
  induction 1 as [|x l1 l2 Hsub IH|x l1 l2 Hsub IH]; intros Hs.
  - constructor.
  - apply StronglySorted_cons in Hs. destruct Hs as [Hall Hs].
    apply StronglySorted_cons. split; [|by apply IH].
    apply Forall_forall. intros y Hy.
    apply (proj1 (Forall_forall _ _) Hall). by eapply elem_of_sublist.
  - apply StronglySorted_cons in Hs. destruct Hs as [_ Hs]. by apply IH.
Qed.

(** The operators left over, in the order of their turns: each key of the
    map once, ascending. *)
Lemma sortNoLongerBonded_sorted last :
  StronglySorted N.lt (sortNoLongerBonded last).
Proof.
  pose proof (sortNoLongerBonded_NoDup last) as Hnd.
  assert (Hs : StronglySorted N.le (sortNoLongerBonded last)).
  { unfold sortNoLongerBonded. apply StronglySorted_merge_sort; apply _. }
  induction Hs as [|x l Hs IH Hall]; [constructor|].
  apply NoDup_cons in Hnd. destruct Hnd as [Hx Hnd].
  constructor; [by apply IH|].
  apply Forall_forall. intros y Hy.
  pose proof (proj1 (Forall_forall _ _) Hall y Hy) as Hle.
  assert (x ≠ y) by (intros ->; done). lia.
Qed.

(** X8: the update list is laid out as the additions and changes followed by
    the removals.  Each record of the first part carries the consensus
    public key and the tokens, not zero, of a validator of the returned
    bonded set; the records of the second part have power zero and come in
    strictly ascending order of operator address. *)
Theorem update_list_layout k ctx s newVals updates s' :
  store_keyed s →
  ApplyAndReturnValidatorSetUpdatesBy k ctx s = Ok (newVals, updates, s') →
  ∃ adds removals,
    updates = adds ++ removals
    ∧ Forall (λ x, upd_Power x.2 ≠ 0
                ∧ ∃ w, w ∈ newVals ∧ OperatorAddr w = x.1
                    ∧ ConsPubKey w = Some (upd_PubKey x.2)
                    ∧ Tokens w = upd_Power x.2) adds
    ∧ Forall (λ x, upd_Power x.2 = 0
                ∧ is_Some (lastValidatorPower s !! x.1)
                ∧ x.1 ∉ OperatorAddr <$> newVals) removals
    ∧ StronglySorted N.lt removals.*1.
Proof.
  intros Hk H.
  destruct (applyUpdatesOver_run _ _ _ _ _ _ _ Hk H)
    as (ls & s1 & adds & rem & Hrun & _ & _ & -> & Hadds & Hsub & Hz & _).
  destruct Hrun as (_ & _ & Hall & Hlast & _).
  exists adds, rem. split; [done|]. split; [|split].
  - eapply Forall_impl; [exact Hadds|].
    intros x (w & pk & Hw & Hpk & ->). simpl.
    destruct (proj1 (Forall_forall _ _) Hall w Hw) as (_ & Ht & _).
    split; [done|]. by exists w.
  - apply Forall_forall. intros x Hx.
    split; [exact (proj1 (Forall_forall _ _) Hz x Hx)|].
    assert (Hin : x.1 ∈ sortNoLongerBonded (ls_last ls)).
    { eapply elem_of_sublist; [|exact Hsub].
      apply list_elem_of_fmap. by exists x. }
    apply sortNoLongerBonded_elem in Hin. rewrite Hlast in Hin.
    simpl in Hin. unfold getLastValidatorsByAddr in Hin.
    case_decide as Hd; [by destruct Hin|]. done.
  - eapply sublist_StronglySorted; [exact Hsub|].
    apply sortNoLongerBonded_sorted.
Qed.

(** *** The update list is the difference to the last bonded set *)

Lemma mustGetValidator_Ok s op v :
  validators s !! op = Some v → mustGetValidator s op = Ok v.
Proof. intros H. unfold mustGetValidator, GetValidator. by rewrite H. Qed.

(** The update record that a turn of the candidate loop appends. *)
Lemma candidateStep_update k ctx ls op ls1 :
  store_keyed (ls_state ls) →
  candidateStep k ctx ls op = Ok (Some ls1) →
  ∃ v1, OperatorAddr v1 = op
    ∧ ls_newVals ls1 = ls_newVals ls ++ [v1]
    ∧ ls_last ls1 = delete op (ls_last ls)
    ∧ ls_updates ls1
      = ls_updates ls
        ++ (if decide (ls_last ls !! op = Some (Tokens v1)) then []
            else match ConsPubKey v1 with
                 | Some pk => [(op, ABCIValidatorUpdate pk v1)]
                 | None => []
                 end).
Proof.
  intros Hk H. pose proof (candidateStep_inv _ _ _ _ _ H) as Hinv.
  destruct Hinv as (v & v1 & s1 & Hv & _ & _ & Ha & _ & _ & Hl1 & Hn1 & _).
  pose proof (store_keyed_lookup _ _ _ Hk Hv) as Hop.
  pose proof Ha as Ha'.
  apply applyStateChange_store in Ha'; [|by rewrite Hop].
  destruct Ha' as (Hb1 & Hcore & _). injection Hcore as Ho1 _ _ _.
  assert (Hbt : BondedTokensOf v1 = Tokens v1).
  { unfold BondedTokensOf. by rewrite Hb1. }
  exists v1. split; [congruence|]. split; [done|]. split; [done|].
  revert H. unfold candidateStep.
  rewrite (mustGetValidator_Ok _ _ _ Hv). simpl.
  destruct (Jailed v); [discriminate|].
  destruct (Tokens v =? 0); [discriminate|].
  rewrite Ha. simpl. intros [= <-]. simpl. rewrite Hbt.
  destruct (ls_last ls !! op) as [old|] eqn:Hl.
  - destruct (old =? Tokens v1) eqn:He; simpl.
    + apply Z.eqb_eq in He. subst old. rewrite decide_True by done.
      by rewrite app_nil_r.
    + apply Z.eqb_neq in He. rewrite decide_False by congruence.
      destruct (ConsPubKey v1); [done|by rewrite app_nil_r].
  - rewrite decide_False by done.
    destruct (ConsPubKey v1); [done|by rewrite app_nil_r].
Qed.

Lemma candidateLoop_changes k ctx max it ls ls' :
  store_keyed (ls_state ls) → NoDup it →
  candidateLoop k ctx max it ls = Ok ls' →
  ∃ nv new,
    ls_newVals ls' = ls_newVals ls ++ nv
    ∧ ls_updates ls' = ls_updates ls ++ new
    ∧ (OperatorAddr <$> nv) `prefix_of` it
    ∧ ∀ op, op ∈ new.*1
            ↔ ∃ w, w ∈ nv ∧ OperatorAddr w = op ∧ ConsPubKey w ≠ None
                ∧ ls_last ls !! op ≠ Some (Tokens w).
Proof.
  assert (Hnil : ∀ ls0 : LoopState, ∃ nv new,
            ls_newVals ls0 = ls_newVals ls0 ++ nv
            ∧ ls_updates ls0 = ls_updates ls0 ++ new
            ∧ (∀ it0, (OperatorAddr <$> nv) `prefix_of` it0)
            ∧ ∀ op, op ∈ new.*1
                    ↔ ∃ w, w ∈ nv ∧ OperatorAddr w = op ∧ ConsPubKey w ≠ None
                        ∧ ls_last ls0 !! op ≠ Some (Tokens w)).
  { intros ls0. exists [], []. rewrite !app_nil_r.
    split; [done|]. split; [done|]. split; [intros; apply prefix_nil|].
    intros op. split.
    - by intros Hin%elem_of_nil.
    - by intros (w & Hin%elem_of_nil & _). }
  assert (Hstay : ∀ it0 ls0, ∃ nv new,
            ls_newVals ls0 = ls_newVals ls0 ++ nv
            ∧ ls_updates ls0 = ls_updates ls0 ++ new
            ∧ (OperatorAddr <$> nv) `prefix_of` it0
            ∧ ∀ op, op ∈ new.*1
                    ↔ ∃ w, w ∈ nv ∧ OperatorAddr w = op ∧ ConsPubKey w ≠ None
                        ∧ ls_last ls0 !! op ≠ Some (Tokens w)).
  { intros it0 ls0. destruct (Hnil ls0) as (nv & new & H1 & H2 & H3 & H4).
    exists nv, new. eauto. }
  clear Hnil.
  revert ls. induction it as [|op rest IH]; intros ls Hk Hnd H; simpl in H.
  - injection H as <-. apply Hstay.
  - destruct (ls_count ls <? max)%nat; [|injection H as <-; apply Hstay].
    destruct (candidateStep k ctx ls op) as [[ls1|]|] eqn:Hstep;
      simpl in H; [|injection H as <-; apply Hstay|discriminate].
    apply NoDup_cons in Hnd. destruct Hnd as [Hnin Hnd].
    pose proof (candidateStep_cores _ _ _ _ _ Hk Hstep) as Hcores.
    assert (Hk1 : store_keyed (ls_state ls1))
      by (by eapply store_keyed_same_cores).
    destruct (candidateStep_update _ _ _ _ _ Hk Hstep)
      as (v1 & Ho1 & Hn1 & Hl1 & Hu1).
    destruct (IH ls1 Hk1 Hnd H) as (nv & new & Hnv & Hnew & Hpre & Hiff).
    set (new1 := if decide (ls_last ls !! op = Some (Tokens v1)) then []
                 else match ConsPubKey v1 with
                      | Some pk => [(op, ABCIValidatorUpdate pk v1)]
                      | None => []
                      end) in *.
    assert (Hnew1 : ∀ op', op' ∈ new1.*1
              ↔ op' = op ∧ ConsPubKey v1 ≠ None
                ∧ ls_last ls !! op ≠ Some (Tokens v1)).
    { intros op'. unfold new1. case_decide as Hd.
      - split; [by intros Hin%elem_of_nil|]. by intros (_ & _ & ?).
      - destruct (ConsPubKey v1) as [pk|]; simpl.
        + rewrite list_elem_of_singleton. split; [|by intros [? _]].
          intros ->. done.
        + split; [by intros Hin%elem_of_nil|]. by intros (_ & ? & _). }
    assert (Hrest : ∀ w, w ∈ nv → OperatorAddr w ≠ op).
    { intros w Hw Heq. apply Hnin.
      eapply elem_of_prefix; [|exact Hpre].
      apply list_elem_of_fmap. by exists w. }
    exists (v1 :: nv), (new1 ++ new). split; [|split; [|split]].
    + rewrite Hnv, Hn1. by rewrite <- app_assoc.
    + rewrite Hnew, Hu1. by rewrite <- app_assoc.
    + rewrite fmap_cons, Ho1. by apply prefix_cons.
    + intros op'. rewrite fmap_app, elem_of_app, Hnew1, Hiff. split.
      * intros [(-> & Hpk & Hch)|(w & Hw & Hop & Hpk & Hch)].
        -- exists v1. split; [apply list_elem_of_here|done].
        -- exists w. split; [by apply list_elem_of_further|].
           split; [done|]. split; [done|].
           rewrite Hl1, lookup_delete_ne in Hch; [done|].
           rewrite <- Hop. intros Heq. by apply (Hrest w).
      * intros (w & Hw & Hop & Hpk & Hch).
        apply elem_of_cons in Hw. destruct Hw as [->|Hw].
        -- left. rewrite Ho1 in Hop. subst op'. done.
        -- right. exists w. split; [done|]. split; [done|].
           split; [done|]. rewrite Hl1, lookup_delete_ne; [done|].
           rewrite <- Hop. intros Heq. by apply (Hrest w).
Qed.

Lemma removalLoop_changes k ctx ops s ups s' ups' :
  store_keyed s → NoDup ops →
  removalLoop k ctx ops (s, ups) = Ok (s', ups') →
  ∃ rem, ups' = ups ++ rem
    ∧ ∀ op, op ∈ rem.*1
            ↔ op ∈ ops ∧ ∃ v, validators s !! op = Some v
                           ∧ ConsPubKey v ≠ None.
Proof.
  revert s ups. induction ops as [|op rest IH]; intros s ups Hk Hnd H;
    [simpl in H | rewrite removalLoop_cons in H].
  - injection H as <- <-. exists []. rewrite app_nil_r. split; [done|].
    intros op. split.
    + by intros Hin%elem_of_nil.
    + by intros [Hin%elem_of_nil _].
  - destruct (removalStep k ctx (s, ups) op) as [[s1 ups1]|] eqn:Hstep;
      simpl in H; [|discriminate].
    apply NoDup_cons in Hnd. destruct Hnd as [Hnin Hnd].
    destruct (removalStep_inv _ _ _ _ _ _ _ Hstep)
      as (v & _ & _ & _ & Hv & _ & _ & _ & Hups).
    destruct (removalStep_store _ _ _ _ _ _ _ Hk Hstep)
      as (v' & Hv' & _ & Hvals & _).
    assert (v' = v) by congruence. subst v'.
    pose proof (store_keyed_lookup _ _ _ Hk Hv) as Hop.
    assert (Hk1 : store_keyed s1).
    { destruct (Tokens v =? 0).
      - by eapply store_keyed_delete.
      - eapply store_keyed_insert; [exact Hk| |exact Hvals]. exact Hop. }
    destruct (IH s1 ups1 Hk1 Hnd H) as (rem & -> & Hiff).
    assert (Hsame : ∀ op', op' ≠ op →
              validators s1 !! op' = validators s !! op').
    { intros op' Hne. rewrite Hvals. destruct (Tokens v =? 0).
      - by rewrite lookup_delete_ne.
      - by rewrite lookup_insert_ne. }
    set (rem1 := match ConsPubKey v with
                 | Some pk => [(op, ABCIValidatorUpdateZero pk v)]
                 | None => []
                 end) in *.
    assert (Hrem1 : ∀ op', op' ∈ rem1.*1 ↔ op' = op ∧ ConsPubKey v ≠ None).
    { intros op'. unfold rem1. destruct (ConsPubKey v) as [pk|]; simpl.
      - rewrite list_elem_of_singleton. split; [|by intros [? _]].
        intros ->. done.
      - split; [by intros Hin%elem_of_nil|]. by intros [_ ?]. }
    exists (rem1 ++ rem). rewrite Hups. split; [by rewrite <- app_assoc|].
    intros op'. rewrite fmap_app, elem_of_app, Hrem1, Hiff, elem_of_cons.
    split.
    + intros [[-> Hpk]|(Hin & w & Hw & Hpk)].
      * split; [by left|]. by exists v.
      * assert (op' ≠ op) by (intros ->; done).
        split; [by right|]. exists w. by rewrite <- Hsame.
    + intros ([->|Hin] & w & Hw & Hpk).
      * left. split; [done|]. congruence.
      * assert (op' ≠ op) by (intros ->; done).
        right. split; [done|]. exists w. by rewrite Hsame.
Qed.

(** X11: the update list is the difference between the bonded set the
    function works out and the last one, no more.  On a store with a
    consistent power index, an operator has a record in the update list
    exactly when its validator is in the new bonded set with tokens other
    than the power the last-validator-power keyspace held for it, or when it
    was in that keyspace and is not in the new bonded set; in both cases only
    if the validator has a consensus public key. *)
Theorem update_list_is_the_difference k ctx s newVals updates s' :
  index_consistent s →
  ApplyAndReturnValidatorSetUpdatesBy k ctx s = Ok (newVals, updates, s') →
  ∀ op,
    op ∈ updates.*1
    ↔ (∃ w, w ∈ newVals ∧ OperatorAddr w = op ∧ ConsPubKey w ≠ None
          ∧ lastValidatorPower s !! op ≠ Some (Tokens w))
      ∨ ((op ∉ OperatorAddr <$> newVals)
         ∧ is_Some (lastValidatorPower s !! op)
         ∧ ∃ v, validators s !! op = Some v ∧ ConsPubKey v ≠ None).
Proof.
  intros Hc H op. pose proof (proj1 Hc) as Hk.
  pose proof (index_consistent_NoDup s Hc) as Hnd.
  revert H. unfold ApplyAndReturnValidatorSetUpdatesBy, applyUpdatesOver.
  set (ls0 := mkLoop s (getLastValidatorsByAddr s) [] [] 0%nat 0).
  destruct (candidateLoop k ctx (MaxValidators (params s)) (powerIterator s)
              ls0) as [ls|] eqn:Hl; simpl; [|discriminate].
  destruct (removalLoop k ctx (sortNoLongerBonded (ls_last ls))
              (ls_state ls, ls_updates ls)) as [[s1 ups]|] eqn:Hr;
    simpl; [|discriminate].
  intros [= <- <- <-].
  assert (Hk0 : store_keyed (ls_state ls0)) by exact Hk.
  assert (Hlink : last_linked ls0) by (intros o; by right).
  destruct (candidateLoop_changes _ _ _ _ _ _ Hk0 Hnd Hl)
    as (nv & new & Hnv & Hnew & _ & Hadd).
  simpl in Hnv, Hnew, Hadd. subst nv.
  destruct (candidateLoop_run _ _ _ _ _ _ Hk0 Hlink Hl) as (nv' & Hrun).
  destruct Hrun as (Hnv' & _ & _ & Hlast & _ & Hframe & _).
  simpl in Hnv', Hlast, Hframe. subst nv'.
  pose proof (candidateLoop_cores _ _ _ _ _ _ Hk0 Hl) as Hcores.
  assert (Hk1 : store_keyed (ls_state ls))
    by (by eapply store_keyed_same_cores).
  destruct (removalLoop_changes _ _ _ _ _ _ _ Hk1
              (sortNoLongerBonded_NoDup _) Hr) as (rem & -> & Hrem).
  rewrite Hnew, fmap_app, elem_of_app, Hadd, Hrem.
  rewrite sortNoLongerBonded_elem, Hlast.
  unfold getLastValidatorsByAddr.
  destruct (decide (op ∈ OperatorAddr <$> ls_newVals ls)) as [Hin|Hnin].
  - split.
    + intros [?|[[? [=]] _]]; by left.
    + intros [?|[? _]]; [by left|done].
  - rewrite (Hframe op Hnin). split.
    + intros [?|[? ?]]; [by left|by right].
    + intros [?|(_ & ? & ?)]; [by left|by right].
Qed.

(** ** The unbonding queue *)

(** [GetAllMatureValidatorQueue]: the timeslices up to the block time of the
    context, concatenated.  The parameter [currTime] is not used by the
    source, and, its comment notwithstanding, it deletes nothing. *)
Definition GetAllMatureValidatorQueue (ctx : Context) (currTime : Time)
    (s : State) : list ValAddress :=
  foldl (λ matureValsAddrs kv, matureValsAddrs ++ kv.2) []
    (ValidatorQueueIterator s (BlockTime ctx)).

Lemma foldl_app_slices (it : list (Z * list N)) (acc : list N) (op : N) :
  op ∈ foldl (λ a kv, a ++ kv.2) acc it
  ↔ op ∈ acc ∨ ∃ kv, kv ∈ it ∧ op ∈ kv.2.
Proof.
  revert acc. induction it as [|kv rest IH]; intros acc; simpl.
  - split; [by left|]. intros [?|(kv & Hin & _)]; [done|].
    by apply elem_of_nil in Hin.
  - rewrite IH, elem_of_app. split.
    + intros [[?|?]|(kv' & Hin & Hop)].
      * by left.
      * right. exists kv. split; [apply list_elem_of_here|done].
      * right. exists kv'. split; [by apply list_elem_of_further|done].
    + intros [?|(kv' & Hin & Hop)].
      * by left; left.
      * apply elem_of_cons in Hin. destruct Hin as [->|Hin].
        -- by left; right.
        -- right. by exists kv'.
Qed.

Lemma ValidatorQueueIterator_elem s endTime t ts :
  (t, ts) ∈ ValidatorQueueIterator s endTime
  ↔ t ≤ endTime ∧ validatorQueue s !! t = Some ts.
Proof.
  unfold ValidatorQueueIterator. rewrite merge_sort_Permutation.
  rewrite list_elem_of_filter, elem_of_map_to_list. done.
Qed.

Lemma GetAllMatureValidatorQueue_elem ctx currTime s op :
  op ∈ GetAllMatureValidatorQueue ctx currTime s
  ↔ ∃ t ts, t ≤ BlockTime ctx ∧ validatorQueue s !! t = Some ts ∧ op ∈ ts.
Proof.
  unfold GetAllMatureValidatorQueue. rewrite foldl_app_slices. split.
  - intros [Hnil|([t ts] & Hin & Hop)]; [by apply elem_of_nil in Hnil|].
    apply ValidatorQueueIterator_elem in Hin. destruct Hin as [Hle Hts].
    by exists t, ts.
  - intros (t & ts & Hle & Hts & Hop). right. exists (t, ts).
    split; [|done]. by apply ValidatorQueueIterator_elem.
Qed.

(** What a drain makes of the record of a listed operator. *)
Definition drained_record (v : Validator) : option Validator :=
  if IsUnbonding v then
    if DelegatorShares v =? 0 then None else Some (set_Status Unbonded v)
  else Some v.

Lemma drained_record_twice (o : option Validator) :
  (o ≫= drained_record) ≫= drained_record = o ≫= drained_record.
Proof.
  destruct o as [v|]; [|done]. simpl. unfold drained_record.
  destruct (IsUnbonding v) eqn:Hu; simpl.
  - destruct (DelegatorShares v =? 0); [done|]. simpl. done.
  - by rewrite Hu.
Qed.

(** The fields a drain of the validators does not write. *)
Definition drain_frame (s : State)
  : gmap N Z * gmap Z (list N) * Z * Z * Params :=
  (lastValidatorPower s, validatorQueue s, lastTotalPower s,
   intraTxCounter s, params s).

Lemma drain_frame_publish k ctx e s :
  drain_frame (publish k ctx e s) = drain_frame s.
Proof. by destruct (publish_cases k ctx e s) as [-> | ->]. Qed.

Lemma RemoveValidator_drain_frame k ctx address s s' :
  RemoveValidator k ctx address s = Ok s' → drain_frame s' = drain_frame s.
Proof.
  unfold RemoveValidator. destruct (GetValidator s address) as [v|].
  - destruct (if IsSideChainValidator v then Ok (SideConsAddr v)
              else ConsAddressOf v) as [c|]; simpl; [|discriminate].
    intros [= <-]. by rewrite drain_frame_publish.
  - by intros [= <-].
Qed.

Lemma unbondMature_unbonding k ctx s valAddr val :
  validators s !! valAddr = Some val →
  IsUnbonding val = true →
  unbondMature k ctx s valAddr
  = if DelegatorShares val =? 0
    then RemoveValidator k ctx (OperatorAddr val)
           (completeUnbondingValidator k ctx val s).2
    else Ok (completeUnbondingValidator k ctx val s).2.
Proof.
  intros Hv Hu. unfold unbondMature, GetValidator. rewrite Hv, Hu.
  cbn [negb]. unfold unbondingToUnbonded.
  assert (Hst : Status val = Unbonding).
  { unfold IsUnbonding in Hu. by destruct (Status val). }
  rewrite Hst. cbn [bind].
  by destruct (completeUnbondingValidator k ctx val s).
Qed.

(** One operator of a timeslice, in full. *)
Lemma unbondMature_inv k ctx s valAddr s' :
  unbondMature k ctx s valAddr = Ok s' →
  (s' = s ∧ validators s !! valAddr ≫= drained_record
            = validators s !! valAddr)
  ∨ ∃ val, validators s !! valAddr = Some val
      ∧ IsUnbonding val = true
      ∧ (if DelegatorShares val =? 0
         then RemoveValidator k ctx (OperatorAddr val)
                (completeUnbondingValidator k ctx val s).2 = Ok s'
         else s' = (completeUnbondingValidator k ctx val s).2).
Proof.
  destruct (validators s !! valAddr) as [val|] eqn:Hv.
  - destruct (IsUnbonding val) eqn:Hu.
    + rewrite (unbondMature_unbonding _ _ _ _ _ Hv Hu).
      intros H. right. exists val. split; [done|]. split; [done|].
      destruct (DelegatorShares val =? 0); [done|]. by injection H as <-.
    + unfold unbondMature, GetValidator. rewrite Hv, Hu. simpl.
      intros [= <-]. left. split; [done|]. unfold drained_record.
      by rewrite Hu.
  - unfold unbondMature, GetValidator. rewrite Hv. intros [= <-]. by left.
Qed.

Lemma unbondMature_store k ctx s valAddr s' :
  store_keyed s →
  unbondMature k ctx s valAddr = Ok s' →
  (∀ op, validators s' !! op
         = if decide (op = valAddr)
           then validators s !! op ≫= drained_record
           else validators s !! op)
  ∧ drain_frame s' = drain_frame s
  ∧ store_keyed s'.
Proof.
  intros Hk H. destruct (unbondMature_inv _ _ _ _ _ H)
    as [[-> Hsame]|(val & Hv & Hu & Hres)].
  - split; [|done]. intros op. case_decide as Hd; [|done]. by subst op.
  - pose proof (store_keyed_lookup _ _ _ Hk Hv) as Hop.
    assert (Hc : validators (completeUnbondingValidator k ctx val s).2
                 = <[valAddr := set_Status Unbonded val]> (validators s)).
    { unfold completeUnbondingValidator. simpl.
      rewrite SetValidator_validators. simpl. by rewrite Hop. }
    assert (Hf : drain_frame (completeUnbondingValidator k ctx val s).2
                 = drain_frame s).
    { unfold completeUnbondingValidator, SetValidator. simpl.
      by rewrite drain_frame_publish. }
    destruct (DelegatorShares val =? 0) eqn:Hsh.
    + pose proof (RemoveValidator_validators _ _ _ _ _ Hres) as Hv'.
      pose proof (RemoveValidator_drain_frame _ _ _ _ _ Hres) as Hf'.
      rewrite Hop, Hc, delete_insert_eq in Hv'.
      split; [|split].
      * intros op. rewrite Hv'. case_decide as Hd.
        -- subst op. rewrite lookup_delete_eq, Hv. simpl.
           unfold drained_record. by rewrite Hu, Hsh.
        -- by rewrite lookup_delete_ne.
      * congruence.
      * by eapply store_keyed_delete.
    + subst s'. split; [|split].
      * intros op. rewrite Hc. case_decide as Hd.
        -- subst op. rewrite lookup_insert_eq, Hv. simpl.
           unfold drained_record. by rewrite Hu, Hsh.
        -- by rewrite lookup_insert_ne.
      * done.
      * eapply store_keyed_insert; [exact Hk| |exact Hc]. done.
Qed.

Lemma unbondTimeslice_store k ctx timeslice s s' :
  store_keyed s →
  unbondTimeslice k ctx timeslice s = Ok s' →
  (∀ op, validators s' !! op
         = if decide (op ∈ timeslice)
           then validators s !! op ≫= drained_record
           else validators s !! op)
  ∧ drain_frame s' = drain_frame s
  ∧ store_keyed s'.
Proof.
  revert s. induction timeslice as [|a rest IH]; intros s Hk H; simpl in H.
  - injection H as <-. split; [|done]. intros op.
    rewrite decide_False; [done|apply not_elem_of_nil].
  - destruct (unbondMature k ctx s a) as [s1|] eqn:E; simpl in H;
      [|discriminate].
    destruct (unbondMature_store _ _ _ _ _ Hk E) as (Hv1 & Hf1 & Hk1).
    destruct (IH s1 Hk1 H) as (Hv & Hf & Hk').
    split; [|split; [congruence|done]].
    intros op. rewrite Hv, Hv1.
    destruct (decide (op = a)) as [->|Hne].
    + rewrite (decide_True (P := a ∈ a :: rest)) by apply list_elem_of_here.
      destruct (decide (a ∈ rest)); [apply drained_record_twice|done].
    + destruct (decide (op ∈ rest)) as [Hin|Hnin].
      * by rewrite decide_True by (by apply list_elem_of_further).
      * rewrite decide_False; [done|]. rewrite elem_of_cons.
        intros [Heq|Hin2]; [exact (Hne Heq) | exact (Hnin Hin2)].
Qed.

Lemma unbondTimeslices_store k ctx it s s' :
  store_keyed s →
  unbondTimeslices k ctx it s = Ok s' →
  (∀ op, validators s' !! op
         = if decide (Exists (λ kv, op ∈ kv.2) it)
           then validators s !! op ≫= drained_record
           else validators s !! op)
  ∧ lastValidatorPower s' = lastValidatorPower s
  ∧ lastTotalPower s' = lastTotalPower s
  ∧ params s' = params s
  ∧ store_keyed s'.
Proof.
  revert s. induction it as [|[key ts] rest IH]; intros s Hk H; simpl in H.
  - injection H as <-. split; [|done]. intros op.
    rewrite decide_False; [done|]. by intros Hex%Exists_nil.
  - destruct (unbondTimeslice k ctx ts s) as [s1|] eqn:E; simpl in H;
      [|discriminate].
    destruct (unbondTimeslice_store _ _ _ _ _ Hk E) as (Hv1 & Hf1 & Hk1).
    unfold drain_frame in Hf1. injection Hf1 as Hl1 _ Ht1 _ Hp1.
    assert (Hk2 : store_keyed
                    (with_validatorQueue (delete key (validatorQueue s1)) s1))
      by exact Hk1.
    destruct (IH _ Hk2 H) as (Hv & Hl & Ht & Hp & Hk').
    simpl in Hv, Hl, Ht, Hp.
    split; [|split; [congruence|split; [congruence|split; [congruence|done]]]].
    intros op. rewrite Hv, Hv1.
    destruct (decide (op ∈ ts)) as [Hin|Hnin].
    + rewrite (decide_True (P := Exists _ ((key, ts) :: rest)))
        by (by apply Exists_cons_hd).
      case_decide; [apply drained_record_twice|done].
    + case_decide as Hd.
      * by rewrite decide_True by (by apply Exists_cons_tl).
      * rewrite decide_False; [done|]. intros Hex.
        apply Exists_cons in Hex. by destruct Hex.
Qed.

Lemma UnbondAllMatureValidatorQueue_validators k ctx s s' currTime :
  store_keyed s →
  UnbondAllMatureValidatorQueue k ctx s = Ok s' →
  ∀ op, validators s' !! op
        = if decide (op ∈ GetAllMatureValidatorQueue ctx currTime s)
          then validators s !! op ≫= drained_record
          else validators s !! op.
Proof.
  intros Hk H op. unfold UnbondAllMatureValidatorQueue in H.
  destruct (unbondTimeslices_store _ _ _ _ _ Hk H) as (Hv & _).
  rewrite Hv. unfold GetAllMatureValidatorQueue.
  destruct (decide (Exists (λ kv : Z * list N, op ∈ kv.2)
                      (ValidatorQueueIterator s (BlockTime ctx))))
    as [Hd|Hd].
  - rewrite decide_True; [done|]. apply foldl_app_slices. right.
    by apply Exists_exists.
  - rewrite decide_False; [done|]. rewrite foldl_app_slices.
    intros [Hnil|Hex]; [by apply elem_of_nil in Hnil|].
    apply Hd. by apply Exists_exists.
Qed.

(** X9: what [UnbondAllMatureValidatorQueue] does to the records.  For an
    operator listed in a timeslice up to the block time, a record that is
    unbonding is deleted when its delegator shares are zero, and becomes
    unbonded otherwise, whatever its own minimal unbonding time; a record
    that is not unbonding is left as it is; so is every record of an
    operator that is not listed. *)
Theorem drained_validators k ctx s s' currTime :
  store_keyed s →
  UnbondAllMatureValidatorQueue k ctx s = Ok s' →
  ∀ op, validators s' !! op
        = if decide (op ∈ GetAllMatureValidatorQueue ctx currTime s)
          then validators s !! op ≫= drained_record
          else validators s !! op.
Proof. apply UnbondAllMatureValidatorQueue_validators. Qed.



Lemma unbondMature_consistent k ctx s valAddr s' :
  index_consistent s →
  unbondMature k ctx s valAddr = Ok s' →
  index_consistent s'.
Proof.
  intros Hc H. destruct (unbondMature_inv _ _ _ _ _ H)
    as [[-> _]|(val & Hv & _ & Hres)]; [done|].
  pose proof (store_keyed_lookup _ _ _ (proj1 Hc) Hv) as Hop.
  assert (Hc1 : index_consistent (completeUnbondingValidator k ctx val s).2).
  { apply completeUnbondingValidator_consistent; [done|]. by rewrite Hop. }
  destruct (DelegatorShares val =? 0); [|by subst s'].
  by eapply RemoveValidator_consistent.
Qed.

Lemma unbondTimeslice_consistent k ctx timeslice s s' :
  index_consistent s →
  unbondTimeslice k ctx timeslice s = Ok s' →
  index_consistent s'.
Proof.
  revert s. induction timeslice as [|a rest IH]; intros s Hc H; simpl in H.
  - by injection H as <-.
  - destruct (unbondMature k ctx s a) as [s1|] eqn:E; simpl in H;
      [|discriminate].
    apply (IH s1); [|done]. by eapply unbondMature_consistent.
Qed.

Lemma unbondTimeslices_consistent k ctx it s s' :
  index_consistent s →
  unbondTimeslices k ctx it s = Ok s' →
  index_consistent s'.
Proof.
  revert s. induction it as [|[key ts] rest IH]; intros s Hc H; simpl in H.
  - by injection H as <-.
  - destruct (unbondTimeslice k ctx ts s) as [s1|] eqn:E; simpl in H;
      [|discriminate].
    eapply IH; [|exact H].
    eapply index_consistent_ext; [| |by eapply unbondTimeslice_consistent];
      done.
Qed.

(** X3: [ApplyAndReturnValidatorSetUpdates] and
    [UnbondAllMatureValidatorQueue] keep the power index consistent with the
    records.  On a consistent store the first meets no operator twice, so
    that no two update records and no two validators of the returned bonded
    set are for the same operator. *)
Theorem block_functions_keep_index_consistent k ctx s :
  index_consistent s →
  (∀ newVals updates s',
     ApplyAndReturnValidatorSetUpdatesBy k ctx s
       = Ok (newVals, updates, s') →
     index_consistent s'
     ∧ NoDup updates.*1
     ∧ NoDup (OperatorAddr <$> newVals))
  ∧ (∀ s', UnbondAllMatureValidatorQueue k ctx s = Ok s' →
           index_consistent s').
Proof.
  intros Hc. split.
  - intros newVals updates s' H.
    split; [by eapply applyUpdatesOver_consistent|].
    pose proof (index_consistent_NoDup s Hc) as Hnd.
    split; [by apply (applyUpdatesOver_distinct _ _ _ _ _ _ _ H)|].
    destruct (applyUpdatesOver_run _ _ _ _ _ _ _ (proj1 Hc) H)
      as (ls & s1 & adds & rem & Hrun & _).
    destruct Hrun as (_ & Hpre & _).
    eapply sublist_NoDup; [exact Hnd|]. destruct Hpre as [rest ->].
    apply sublist_inserts_r. reflexivity.
  - intros s' H. by eapply unbondTimeslices_consistent.
Qed.


(** X13: [bondValidator] does not touch the unbonding queue.  A validator
    bonded again before its unbonding matured stays listed in its timeslice,
    and a later drain passes it over: its record is left as
    [bondValidator] wrote it. *)
Theorem rebonded_validator_passed_over k ctx0 ctx s v v1 s1 s2 :
  store_keyed s →
  validators s !! OperatorAddr v = Some v →
  bondValidator k ctx0 v s = Ok (v1, s1) →
  UnbondAllMatureValidatorQueue k ctx s1 = Ok s2 →
  validatorQueue s1 = validatorQueue s
  ∧ Status v1 = Bonded
  ∧ validators s2 !! OperatorAddr v = Some v1.
Proof.
  intros Hk Hv Hb Hd. apply bondValidator_store in Hb.
  destruct Hb as (-> & Hvals & _ & Hrest).
  unfold rest_of_store in Hrest. injection Hrest as _ _ Hq _ _ _.
  split; [done|]. split; [done|].
  assert (Hk1 : store_keyed s1).
  { eapply store_keyed_insert; [exact Hk| |exact Hvals]. done. }
  rewrite (UnbondAllMatureValidatorQueue_validators k ctx s1 s2 0 Hk1 Hd (OperatorAddr v)).
  rewrite Hvals, lookup_insert_eq. by case_decide.
Qed.

(** X14: [InsertValidatorQueue] appends the operator to the timeslice of the
    validator's minimal unbonding time, an absent timeslice counting as
    empty, and leaves the other timeslices; the operator is then among the
    mature ones at every block time from that time on. *)
Theorem InsertValidatorQueue_appends val s :
  GetValidatorQueueTimeSlice (InsertValidatorQueue val s)
    (UnbondingMinTime val)
  = GetValidatorQueueTimeSlice s (UnbondingMinTime val) ++ [OperatorAddr val]
  ∧ (∀ t, t ≠ UnbondingMinTime val →
       GetValidatorQueueTimeSlice (InsertValidatorQueue val s) t
       = GetValidatorQueueTimeSlice s t)
  ∧ (∀ ctx currTime, UnbondingMinTime val ≤ BlockTime ctx →
       OperatorAddr val
       ∈ GetAllMatureValidatorQueue ctx currTime (InsertValidatorQueue val s)).
Proof.
  assert (Hq : validatorQueue (InsertValidatorQueue val s)
               = <[UnbondingMinTime val :=
                     GetValidatorQueueTimeSlice s (UnbondingMinTime val)
                     ++ [OperatorAddr val]]> (validatorQueue s)).
  { unfold InsertValidatorQueue.
    destruct (GetValidatorQueueTimeSlice s (UnbondingMinTime val))
      as [|a l]; done. }
  split; [|split].
  - unfold GetValidatorQueueTimeSlice at 1. by rewrite Hq, lookup_insert_eq.
  - intros t Hne. unfold GetValidatorQueueTimeSlice.
    by rewrite Hq, lookup_insert_ne.
  - intros ctx currTime Hle. apply GetAllMatureValidatorQueue_elem.
    eexists _, _. split; [exact Hle|]. rewrite Hq, lookup_insert_eq.
    split; [done|]. apply elem_of_app. right. apply list_elem_of_here.
Qed.

(** ** Sample stores for the properties above *)

Lemma index_consistent_emptyState n : index_consistent (emptyState n).
Proof.
  split; [apply store_keyed_emptyState|]. split.
  - intros key op H. simpl in H. by rewrite lookup_empty in H.
  - intros op v H. simpl in H. by rewrite lookup_empty in H.
Qed.

Lemma index_consistent_addValidator v s :
  index_consistent s →
  validators s !! OperatorAddr v = None →
  Jailed v = false →
  index_consistent (addValidator v s).
Proof.
  intros (Hk & Hs & Hc) Hnone Hj. split; [|split].
  - by apply store_keyed_addValidator.
  - intros key op. simpl. rewrite lookup_insert. case_decide as Hd.
    + intros [= <-]. exists v. by rewrite lookup_insert_eq.
    + intros Hin. destruct (Hs key op Hin) as (w & Hw & Hkw & Hjw).
      exists w. rewrite lookup_insert_ne; [done|]. congruence.
  - intros op w. simpl. rewrite lookup_insert. case_decide as Hd.
    + intros [= <-] _. subst op. apply lookup_insert_eq.
    + intros Hw Hjw. rewrite lookup_insert_ne; [by apply Hc|].
      pose proof (Hk op w Hw) as Ho. simpl in Ho.
      unfold GetValidatorsByPowerIndexKey. intros [= _ _ _ Heq]. congruence.
Qed.

Lemma threeState_consistent : index_consistent threeState.
Proof.
  unfold threeState.
  eapply index_consistent_ext; [reflexivity|reflexivity|].
  repeat (apply index_consistent_addValidator;
          [|vm_compute; reflexivity|reflexivity]).
  apply index_consistent_emptyState.
Qed.

(** An unbonding validator without delegator shares, listed in a timeslice
    with an operator that has no record, and an unbonded validator listed in
    a later timeslice. *)
Definition queueState : State :=
  with_validatorQueue {[ 500 := [1%N; 9%N]; 2000 := [2%N] ]}
    (addValidator
       (set_Unbonding 3 500 (sampleValidator 1 (Some pkA) Unbonding 0 0))
       (addValidator (sampleValidator 2 (Some pkB) Unbonded 90 90)
          (emptyState 2))).

Lemma queueState_consistent : index_consistent queueState.
Proof.
  unfold queueState.
  eapply index_consistent_ext; [reflexivity|reflexivity|].
  repeat (apply index_consistent_addValidator;
          [|vm_compute; reflexivity|reflexivity]).
  apply index_consistent_emptyState.
Qed.

Lemma transitions_keep_index_consistent_witness :
  index_consistent threeState
  ∧ validators threeState
      !! OperatorAddr (sampleValidator 3 (Some pkC) Bonded 80 80)
    = Some (sampleValidator 3 (Some pkC) Bonded 80 80)
  ∧ index_consistent
      (completeUnbondingValidator sampleKeeper sampleCtx
         (sampleValidator 3 (Some pkC) Bonded 80 80) threeState).2.
Proof.
  split; [exact threeState_consistent|]. split; [reflexivity|].
  exact (proj1 (proj2 (proj2
    (transitions_keep_index_consistent sampleKeeper sampleCtx threeState
       (sampleValidator 3 (Some pkC) Bonded 80 80)
       threeState_consistent eq_refl)))).
Defined.

Lemma token_mutations_keep_index_consistent_witness :
  index_consistent threeState
  ∧ validators threeState
      !! OperatorAddr (sampleValidator 3 (Some pkC) Bonded 80 80)
    = Some (sampleValidator 3 (Some pkC) Bonded 80 80)
  ∧ ∀ n v' sh s',
      AddValidatorTokensAndShares 16 unitAddTokens sampleKeeper sampleCtx
        (sampleValidator 3 (Some pkC) Bonded 80 80) n threeState
        = Ok (v', sh, s') →
      OperatorAddr v' = OperatorAddr (sampleValidator 3 (Some pkC) Bonded 80 80) →
      index_consistent s'.
Proof.
  split; [exact threeState_consistent|]. split; [reflexivity|].
  exact (proj1
    (token_mutations_keep_index_consistent 16 unitAddTokens unitRemoveShares
       (λ v p n, Ok (v, p)) sampleKeeper sampleCtx threeState
       (sampleValidator 3 (Some pkC) Bonded 80 80)
       threeState_consistent eq_refl)).
Defined.

(** A run of the function on [threeState], for the examples below. *)
Ltac run_threeState E :=
  destruct (ApplyAndReturnValidatorSetUpdatesBy sampleKeeper sampleCtx
              threeState) as [[[newVals updates] s']|msg] eqn:E;
  [exists newVals, updates, s'; split; [reflexivity|]
  |vm_compute in E; discriminate].

Lemma block_functions_keep_index_consistent_witness :
  index_consistent threeState
  ∧ ∃ newVals updates s',
      ApplyAndReturnValidatorSetUpdatesBy sampleKeeper sampleCtx threeState
        = Ok (newVals, updates, s')
      ∧ index_consistent s'
      ∧ NoDup updates.*1
      ∧ NoDup (OperatorAddr <$> newVals).
Proof.
  split; [exact threeState_consistent|]. run_threeState E.
  exact (proj1 (block_functions_keep_index_consistent sampleKeeper sampleCtx
                  threeState threeState_consistent) newVals updates s' E).
Defined.

Lemma update_list_is_the_difference_witness :
  index_consistent threeState
  ∧ ∃ newVals updates s',
      ApplyAndReturnValidatorSetUpdatesBy sampleKeeper sampleCtx threeState
        = Ok (newVals, updates, s')
      ∧ ∀ op,
          op ∈ updates.*1
          ↔ (∃ w, w ∈ newVals ∧ OperatorAddr w = op ∧ ConsPubKey w ≠ None
                ∧ lastValidatorPower threeState !! op ≠ Some (Tokens w))
            ∨ ((op ∉ OperatorAddr <$> newVals)
               ∧ is_Some (lastValidatorPower threeState !! op)
               ∧ ∃ v, validators threeState !! op = Some v
                   ∧ ConsPubKey v ≠ None).
Proof.
  split; [exact threeState_consistent|]. run_threeState E.
  exact (update_list_is_the_difference sampleKeeper sampleCtx threeState
           newVals updates s' threeState_consistent E).
Defined.

Lemma returned_bonded_set_witness :
  store_keyed threeState
  ∧ ∃ newVals updates s',
      ApplyAndReturnValidatorSetUpdatesBy sampleKeeper sampleCtx threeState
        = Ok (newVals, updates, s')
      ∧ (length newVals ≤ 2)%nat
      ∧ (OperatorAddr <$> newVals) `prefix_of` powerIterator threeState
      ∧ Forall (λ w, Status w = Bonded ∧ Tokens w ≠ 0 ∧ Jailed w = false
                     ∧ validators s' !! OperatorAddr w = Some w) newVals.
Proof.
  split; [exact threeState_keyed|]. run_threeState E.
  exact (returned_bonded_set sampleKeeper sampleCtx threeState newVals
           updates s' threeState_keyed E).
Defined.

Lemma last_validator_power_mirrors_bonded_set_witness :
  store_keyed threeState
  ∧ ∃ newVals updates s',
      ApplyAndReturnValidatorSetUpdatesBy sampleKeeper sampleCtx threeState
        = Ok (newVals, updates, s')
      ∧ ∀ op power,
          lastValidatorPower s' !! op = Some power
          ↔ ∃ w, w ∈ newVals ∧ OperatorAddr w = op ∧ Tokens w = power.
Proof.
  split; [exact threeState_keyed|]. run_threeState E.
  exact (last_validator_power_mirrors_bonded_set sampleKeeper sampleCtx
           threeState newVals updates s' threeState_keyed E).
Defined.

Lemma no_longer_bonded_begin_unbonding_witness :
  store_keyed threeState
  ∧ is_Some (lastValidatorPower threeState !! 3%N)
  ∧ ∃ newVals updates s',
      ApplyAndReturnValidatorSetUpdatesBy sampleKeeper sampleCtx threeState
        = Ok (newVals, updates, s')
      ∧ (3%N ∉ OperatorAddr <$> newVals)
      ∧ validators s' !! 3%N
        = Some (unbondingRecord sampleCtx threeState
                  (sampleValidator 3 (Some pkC) Bonded 80 80))
      ∧ (3%N ∈ GetValidatorQueueTimeSlice s' 1100).
Proof.
  split; [exact threeState_keyed|].
  assert (Hsome : is_Some (lastValidatorPower threeState !! 3%N))
    by (by eexists).
  split; [exact Hsome|]. run_threeState E.
  assert (Hnin : 3%N ∉ (OperatorAddr <$> newVals)).
  { vm_compute in E. injection E as <- _ _.
    apply (bool_decide_unpack _). vm_compute. exact I. }
  split; [exact Hnin|].
  destruct (no_longer_bonded_begin_unbonding sampleKeeper sampleCtx
              threeState newVals updates s' 3%N threeState_keyed E Hsome Hnin)
    as (v & Hv & _ & _ & Hrec & Hq).
  assert (v = sampleValidator 3 (Some pkC) Bonded 80 80).
  { vm_compute in Hv. by injection Hv as <-. }
  subst v. split; [exact Hrec|exact Hq].
Defined.

Lemma last_total_power_after_apply_witness :
  store_keyed threeState
  ∧ ∃ newVals updates s',
      ApplyAndReturnValidatorSetUpdatesBy sampleKeeper sampleCtx threeState
        = Ok (newVals, updates, s')
      ∧ lastTotalPower s'
        = match updates with
          | [] => lastTotalPower threeState
          | _ => foldl (λ acc w, wrap64 (acc + Tokens w)) 0 newVals
          end.
Proof.
  split; [exact threeState_keyed|]. run_threeState E.
  exact (last_total_power_after_apply sampleKeeper sampleCtx threeState
           newVals updates s' threeState_keyed E).
Defined.

Lemma update_list_layout_witness :
  store_keyed threeState
  ∧ ∃ newVals updates s',
      ApplyAndReturnValidatorSetUpdatesBy sampleKeeper sampleCtx threeState
        = Ok (newVals, updates, s')
      ∧ ∃ adds removals,
          updates = adds ++ removals
          ∧ Forall (λ x, upd_Power x.2 ≠ 0
                      ∧ ∃ w, w ∈ newVals ∧ OperatorAddr w = x.1
                          ∧ ConsPubKey w = Some (upd_PubKey x.2)
                          ∧ Tokens w = upd_Power x.2) adds
          ∧ Forall (λ x, upd_Power x.2 = 0
                      ∧ is_Some (lastValidatorPower threeState !! x.1)
                      ∧ x.1 ∉ OperatorAddr <$> newVals) removals
          ∧ StronglySorted N.lt removals.*1.
Proof.
  split; [exact threeState_keyed|]. run_threeState E.
  exact (update_list_layout sampleKeeper sampleCtx threeState newVals
           updates s' threeState_keyed E).
Defined.

(** A drain of [queueState] at block time 1000, for the examples below. *)
Ltac run_queueState E :=
  destruct (UnbondAllMatureValidatorQueue sampleKeeper sampleCtx queueState)
    as [s'|msg] eqn:E;
  [exists s'; split; [reflexivity|]|vm_compute in E; discriminate].

Lemma drained_validators_witness :
  store_keyed queueState
  ∧ ∃ s', UnbondAllMatureValidatorQueue sampleKeeper sampleCtx queueState
          = Ok s'
      ∧ ∀ op, validators s' !! op
              = if decide (op ∈ GetAllMatureValidatorQueue sampleCtx 0
                                  queueState)
                then validators queueState !! op ≫= drained_record
                else validators queueState !! op.
Proof.
  split; [exact (proj1 queueState_consistent)|]. run_queueState E.
  exact (drained_validators sampleKeeper sampleCtx queueState s' 0
           (proj1 queueState_consistent) E).
Defined.



Lemma rebonded_validator_passed_over_witness :
  store_keyed queueState
  ∧ ∃ v1 s1 s2,
      bondValidator sampleKeeper sampleCtx
        (set_Unbonding 3 500 (sampleValidator 1 (Some pkA) Unbonding 0 0))
        queueState = Ok (v1, s1)
      ∧ UnbondAllMatureValidatorQueue sampleKeeper sampleCtx s1 = Ok s2
      ∧ validatorQueue s1 = validatorQueue queueState
      ∧ Status v1 = Bonded
      ∧ validators s2 !! 1%N = Some v1.
Proof.
  split; [exact (proj1 queueState_consistent)|].
  destruct (bondValidator sampleKeeper sampleCtx
              (set_Unbonding 3 500
                 (sampleValidator 1 (Some pkA) Unbonding 0 0)) queueState)
    as [[v1 s1]|msg] eqn:Eb; [|vm_compute in Eb; discriminate].
  destruct (UnbondAllMatureValidatorQueue sampleKeeper sampleCtx s1)
    as [s2|msg] eqn:Ed.
  - exists v1, s1, s2. split; [reflexivity|]. split; [exact Ed|].
    exact (rebonded_validator_passed_over sampleKeeper sampleCtx sampleCtx
             queueState
             (set_Unbonding 3 500
                (sampleValidator 1 (Some pkA) Unbonding 0 0))
             v1 s1 s2 (proj1 queueState_consistent) eq_refl Eb Ed).
  - vm_compute in Eb. injection Eb as <- <-. vm_compute in Ed. discriminate.
Defined.

(** ** Invariants of the transitions are invariants of a block *)

(** [ApplyAndReturnValidatorSetUpdates] and [UnbondAllMatureValidatorQueue]
    write the validator records and the two indices through
    [bondValidator], [beginUnbondingValidator], [completeUnbondingValidator]
    and [RemoveValidator] only, each time on the record as it is stored.  A
    property of the records and the indices that these four keep is
    therefore kept by both functions. *)
Section TransitionInvariant.
Variable Inv : State → Prop.
Hypothesis Inv_keyed : ∀ s, Inv s → store_keyed s.
Hypothesis Inv_frame : ∀ s s',
  Inv s →
  validators s' = validators s →
  validatorsByConsAddr s' = validatorsByConsAddr s →
  validatorsByPower s' = validatorsByPower s →
  Inv s'.
Hypothesis Inv_bond : ∀ k ctx s v v1 s1,
  Inv s → validators s !! OperatorAddr v = Some v →
  bondValidator k ctx v s = Ok (v1, s1) → Inv s1.
Hypothesis Inv_begin : ∀ k ctx s v v1 s1,
  Inv s → validators s !! OperatorAddr v = Some v →
  beginUnbondingValidator k ctx v s = Ok (v1, s1) → Inv s1.
Hypothesis Inv_complete : ∀ k ctx s v,
  Inv s → validators s !! OperatorAddr v = Some v →
  Inv (completeUnbondingValidator k ctx v s).2.
Hypothesis Inv_remove : ∀ k ctx s address s',
  Inv s → RemoveValidator k ctx address s = Ok s' → Inv s'.

Lemma candidateStep_keeps k ctx ls op ls1 :
  Inv (ls_state ls) →
  candidateStep k ctx ls op = Ok (Some ls1) →
  Inv (ls_state ls1).
Proof.
  intros Hc H. apply candidateStep_inv in H.
  destruct H as (v & v1 & s1 & Hv & _ & _ & Ha & Hst & _).
  pose proof (store_keyed_lookup _ _ _ (Inv_keyed _ Hc) Hv) as Hop.
  assert (Hc1 : Inv s1).
  { destruct (applyStateChange_cases _ _ _ _ _ _ Ha)
      as [(_ & _ & ->)|(_ & Hb)]; [done|].
    eapply Inv_bond; [exact Hc| |exact Hb]. by rewrite Hop. }
  destruct Hst as [-> | ->]; [done|].
  by apply (Inv_frame s1).
Qed.

Lemma candidateLoop_keeps k ctx max it ls ls' :
  Inv (ls_state ls) →
  candidateLoop k ctx max it ls = Ok ls' →
  Inv (ls_state ls').
Proof.
  revert ls. induction it as [|op rest IH]; intros ls Hc H; simpl in H.
  - by injection H as <-.
  - destruct (ls_count ls <? max)%nat; [|by injection H as <-].
    destruct (candidateStep k ctx ls op) as [[ls1|]|] eqn:Hstep;
      simpl in H; [| |discriminate].
    + apply (IH ls1); [|done]. by eapply candidateStep_keeps.
    + by injection H as <-.
Qed.

Lemma removalStep_keeps k ctx s ups op s' ups' :
  Inv s →
  removalStep k ctx (s, ups) op = Ok (s', ups') →
  Inv s'.
Proof.
  intros Hc H. apply removalStep_inv in H.
  destruct H as (v & v1 & s1 & s2 & Hv & Hb & Hr & -> & _).
  pose proof (store_keyed_lookup _ _ _ (Inv_keyed _ Hc) Hv) as Hop.
  assert (Hc1 : Inv s1).
  { eapply Inv_begin; [exact Hc| |exact Hb]. by rewrite Hop. }
  assert (Hc2 : Inv s2).
  { destruct (Tokens v =? 0); [|by subst s2]. by eapply Inv_remove. }
  by apply (Inv_frame s2).
Qed.

Lemma removalLoop_keeps k ctx ops s ups s' ups' :
  Inv s →
  removalLoop k ctx ops (s, ups) = Ok (s', ups') →
  Inv s'.
Proof.
  revert s ups. induction ops as [|op rest IH]; intros s ups Hc H;
    [simpl in H | rewrite removalLoop_cons in H].
  - by injection H as <- <-.
  - destruct (removalStep k ctx (s, ups) op) as [[s1 ups1]|] eqn:Hstep;
      simpl in H; [|discriminate].
    apply (IH s1 ups1); [|done]. by eapply removalStep_keeps.
Qed.

Lemma applyUpdatesOver_keeps k ctx it s newVals updates s' :
  Inv s →
  applyUpdatesOver k ctx it s = Ok (newVals, updates, s') →
  Inv s'.
Proof.
  intros Hc. unfold applyUpdatesOver.
  destruct (candidateLoop k ctx (MaxValidators (params s)) it
              (mkLoop s (getLastValidatorsByAddr s) [] [] 0%nat 0))
    as [ls|] eqn:Hl; simpl; [|discriminate].
  destruct (removalLoop k ctx (sortNoLongerBonded (ls_last ls))
              (ls_state ls, ls_updates ls)) as [[s1 ups]|] eqn:Hr;
    simpl; [|discriminate].
  intros [= <- <- <-].
  assert (Hc1 : Inv s1).
  { eapply removalLoop_keeps; [|exact Hr].
    eapply candidateLoop_keeps; [|exact Hl]. exact Hc. }
  destruct (0 <? length ups)%nat; [|done].
  by apply (Inv_frame s1).
Qed.

Lemma unbondMature_keeps k ctx s valAddr s' :
  Inv s → unbondMature k ctx s valAddr = Ok s' → Inv s'.
Proof.
  intros Hc H. destruct (unbondMature_inv _ _ _ _ _ H)
    as [[-> _]|(val & Hv & _ & Hres)]; [done|].
  pose proof (store_keyed_lookup _ _ _ (Inv_keyed _ Hc) Hv) as Hop.
  assert (Hc1 : Inv (completeUnbondingValidator k ctx val s).2).
  { apply Inv_complete; [done|]. by rewrite Hop. }
  destruct (DelegatorShares val =? 0); [|by subst s'].
  by eapply Inv_remove.
Qed.

Lemma unbondTimeslice_keeps k ctx timeslice s s' :
  Inv s → unbondTimeslice k ctx timeslice s = Ok s' → Inv s'.
Proof.
  revert s. induction timeslice as [|a rest IH]; intros s Hc H; simpl in H.
  - by injection H as <-.
  - destruct (unbondMature k ctx s a) as [s1|] eqn:E; simpl in H;
      [|discriminate].
    apply (IH s1); [|done]. by eapply unbondMature_keeps.
Qed.

Lemma unbondTimeslices_keeps k ctx it s s' :
  Inv s → unbondTimeslices k ctx it s = Ok s' → Inv s'.
Proof.
  revert s. induction it as [|[key ts] rest IH]; intros s Hc H; simpl in H.
  - by injection H as <-.
  - destruct (unbondTimeslice k ctx ts s) as [s1|] eqn:E; simpl in H;
      [|discriminate].
    eapply IH; [|exact H].
    apply (Inv_frame s1); [by eapply unbondTimeslice_keeps|done..].
Qed.

(** X15: a property of the validator records, the by-consensus-address index
    and the power index that the three transitions and [RemoveValidator]
    keep, each applied to a record as it is stored, is kept by
    [ApplyAndReturnValidatorSetUpdates] and by
    [UnbondAllMatureValidatorQueue]. *)
Theorem block_functions_keep_transition_invariants k ctx s :
  Inv s →
  (∀ newVals updates s',
     ApplyAndReturnValidatorSetUpdates k ctx s = Ok (newVals, updates, s') →
     Inv s')
  ∧ (∀ s', UnbondAllMatureValidatorQueue k ctx s = Ok s' → Inv s').
Proof.
  intros Hc. split.
  - intros newVals updates s'. unfold ApplyAndReturnValidatorSetUpdates,
      ApplyAndReturnValidatorSetUpdatesBy.
    destruct (applyUpdatesOver k ctx (powerIterator s) s)
      as [[[nv ups] s1]|] eqn:E; simpl; [|discriminate].
    intros [= _ _ <-]. by eapply applyUpdatesOver_keeps.
  - intros s' H. by eapply unbondTimeslices_keeps.
Qed.

End TransitionInvariant.

(** ** The by-consensus-address index *)

(** The index is consistent with the records when every entry names a stored
    validator with that consensus address, and every stored validator that
    has a consensus address has its entry. *)
Definition cons_index_sound (s : State) : Prop :=
  ∀ c op, validatorsByConsAddr s !! c = Some op →
    ∃ v, validators s !! op = Some v ∧ consKeyOf v = Some c.

Definition cons_index_complete (s : State) : Prop :=
  ∀ op v c, validators s !! op = Some v → consKeyOf v = Some c →
    validatorsByConsAddr s !! c = Some op.

Definition cons_index_consistent (s : State) : Prop :=
  store_keyed s ∧ cons_index_sound s ∧ cons_index_complete s.

Lemma cons_index_consistent_keyed s :
  cons_index_consistent s → store_keyed s.
Proof. by intros [H _]. Qed.

Lemma cons_index_consistent_frame s s' :
  cons_index_consistent s →
  validators s' = validators s →
  validatorsByConsAddr s' = validatorsByConsAddr s →
  validatorsByPower s' = validatorsByPower s →
  cons_index_consistent s'.
Proof.
  intros (Hk & Hs & Hc) Hv Hi _.
  unfold cons_index_consistent, store_keyed, cons_index_sound,
    cons_index_complete. rewrite Hv, Hi. done.
Qed.

(** Storing another record for the operator of [v], with the consensus
    address of [v]. *)
Lemma cons_index_consistent_update s s' v v' :
  cons_index_consistent s →
  validators s !! OperatorAddr v = Some v →
  OperatorAddr v' = OperatorAddr v →
  consKeyOf v' = consKeyOf v →
  validators s' = <[OperatorAddr v := v']> (validators s) →
  validatorsByConsAddr s' = validatorsByConsAddr s →
  cons_index_consistent s'.
Proof.
  intros (Hk & Hs & Hc) Hv Hop Hkey Hv' Hi. split; [|split].
  - by eapply store_keyed_insert.
  - intros c op. rewrite Hi, Hv'. intros Hin.
    destruct (Hs c op Hin) as (w & Hw & Hcw).
    destruct (decide (op = OperatorAddr v)) as [->|Hne].
    + exists v'. rewrite lookup_insert_eq. split; [done|]. congruence.
    + exists w. by rewrite lookup_insert_ne.
  - intros op w c. rewrite Hi, Hv'.
    destruct (decide (op = OperatorAddr v)) as [->|Hne].
    + rewrite lookup_insert_eq. intros [= <-] Hcw. apply (Hc _ v); congruence.
    + rewrite lookup_insert_ne by done. apply Hc.
Qed.

Lemma rest_of_store_cons s s' :
  rest_of_store s' = rest_of_store s →
  validatorsByConsAddr s' = validatorsByConsAddr s.
Proof. unfold rest_of_store. by intros [= -> _ _ _ _ _]. Qed.

Lemma bondValidator_cons_consistent k ctx s v v1 s1 :
  cons_index_consistent s →
  validators s !! OperatorAddr v = Some v →
  bondValidator k ctx v s = Ok (v1, s1) →
  cons_index_consistent s1.
Proof.
  intros Hc Hv H.
  destruct (bondValidator_store _ _ _ _ _ _ H) as (-> & Hv1 & _ & Hr).
  eapply (cons_index_consistent_update s s1 v
            (set_Status Bonded (set_BondHeight (BlockHeight ctx) v)));
    try done.
  by apply rest_of_store_cons.
Qed.

Lemma beginUnbondingValidator_cons_consistent k ctx s v v1 s1 :
  cons_index_consistent s →
  validators s !! OperatorAddr v = Some v →
  beginUnbondingValidator k ctx v s = Ok (v1, s1) →
  cons_index_consistent s1.
Proof.
  intros Hc Hv H.
  destruct (beginUnbondingValidator_store _ _ _ _ _ _ H)
    as (_ & -> & Hv1 & _ & _ & _ & Hi & _).
  by eapply (cons_index_consistent_update s s1 v
               (set_Unbonding (BlockHeight ctx)
                  (BlockTime ctx + UnbondingTime (params s))
                  (set_Status Unbonding v))).
Qed.

Lemma completeUnbondingValidator_cons_consistent k ctx s v :
  cons_index_consistent s →
  validators s !! OperatorAddr v = Some v →
  cons_index_consistent (completeUnbondingValidator k ctx v s).2.
Proof.
  intros Hc Hv. unfold completeUnbondingValidator. simpl.
  eapply (cons_index_consistent_update s _ v (set_Status Unbonded v));
    try done.
  - by rewrite SetValidator_validators.
  - apply rest_of_store_cons. by rewrite rest_of_store_SetValidator.
Qed.

(** The store after [RemoveValidator] of a stored validator. *)
Lemma RemoveValidator_store k ctx address s s' v :
  validators s !! address = Some v →
  RemoveValidator k ctx address s = Ok s' →
  ∃ c, consKeyOf v = Some c
    ∧ validators s' = delete address (validators s)
    ∧ validatorsByConsAddr s' = delete c (validatorsByConsAddr s).
Proof.
  intros Hv. unfold RemoveValidator, GetValidator. rewrite Hv.
  unfold consKeyOf, ConsAddressOf.
  destruct (IsSideChainValidator v); simpl.
  - intros [= <-]. exists (SideConsAddr v).
    by destruct (publish_cases k ctx
      (ValidatorRemovedEvent (HasTx ctx) (OperatorAddr v) (SideChainId v))
      (with_validatorsByPower
         (delete (GetValidatorsByPowerIndexKey v) (validatorsByPower s))
         (with_validatorsByConsAddr
            (delete (SideConsAddr v) (validatorsByConsAddr s))
            (with_validators (delete address (validators s)) s))))
      as [-> | ->].
  - destruct (ConsPubKey v) as [pk|]; simpl; [|discriminate].
    intros [= <-]. exists (pk_address pk).
    by destruct (publish_cases k ctx
      (ValidatorRemovedEvent (HasTx ctx) (OperatorAddr v) (SideChainId v))
      (with_validatorsByPower
         (delete (GetValidatorsByPowerIndexKey v) (validatorsByPower s))
         (with_validatorsByConsAddr
            (delete (pk_address pk) (validatorsByConsAddr s))
            (with_validators (delete address (validators s)) s))))
      as [-> | ->].
Qed.

Lemma RemoveValidator_cons_consistent k ctx s address s' :
  cons_index_consistent s →
  RemoveValidator k ctx address s = Ok s' →
  cons_index_consistent s'.
Proof.
  intros Hcon H.
  destruct (validators s !! address) as [v|] eqn:Hv.
  - destruct (RemoveValidator_store _ _ _ _ _ _ Hv H) as (c & Hcv & Hv' & Hi).
    destruct Hcon as (Hk & Hs & Hc). split; [|split].
    + by eapply store_keyed_delete.
    + intros c' op. rewrite Hi, Hv'. rewrite lookup_delete.
      case_decide as Hd; [done|]. intros Hin.
      destruct (Hs c' op Hin) as (w & Hw & Hcw).
      exists w. split; [|done]. rewrite lookup_delete_ne; [done|].
      intros <-. congruence.
    + intros op w c'. rewrite Hi, Hv'. rewrite lookup_delete.
      case_decide as Hd; [done|]. intros Hw Hcw.
      rewrite lookup_delete_ne; [by eapply Hc|].
      intros <-. pose proof (Hc _ _ _ Hw Hcw) as H1.
      pose proof (Hc _ _ _ Hv Hcv) as H2. congruence.
  - unfold RemoveValidator, GetValidator in H. rewrite Hv in H.
    by injection H as <-.
Qed.

(** X16: the transitions, [RemoveValidator],
    [ApplyAndReturnValidatorSetUpdates] and [UnbondAllMatureValidatorQueue]
    keep the by-consensus-address index consistent with the records: none of
    them changes the consensus address of a record, and [RemoveValidator]
    deletes the entry together with the record. *)
Theorem consensus_address_index_kept k ctx s :
  cons_index_consistent s →
  (∀ v, validators s !! OperatorAddr v = Some v →
     (∀ v1 s1, bondValidator k ctx v s = Ok (v1, s1) →
               cons_index_consistent s1)
     ∧ (∀ v1 s1, beginUnbondingValidator k ctx v s = Ok (v1, s1) →
                 cons_index_consistent s1)
     ∧ cons_index_consistent (completeUnbondingValidator k ctx v s).2)
  ∧ (∀ address s', RemoveValidator k ctx address s = Ok s' →
                   cons_index_consistent s')
  ∧ (∀ newVals updates s',
       ApplyAndReturnValidatorSetUpdatesBy k ctx s
         = Ok (newVals, updates, s') →
       cons_index_consistent s')
  ∧ (∀ s', UnbondAllMatureValidatorQueue k ctx s = Ok s' →
           cons_index_consistent s').
Proof.
  intros Hc. split; [|split; [|split]].
  - intros v Hv. split; [|split].
    + intros v1 s1. by apply bondValidator_cons_consistent.
    + intros v1 s1. by apply beginUnbondingValidator_cons_consistent.
    + by apply completeUnbondingValidator_cons_consistent.
  - intros address s'. by apply RemoveValidator_cons_consistent.
  - intros newVals updates s' H.
    apply (applyUpdatesOver_keeps cons_index_consistent
             cons_index_consistent_keyed cons_index_consistent_frame
             bondValidator_cons_consistent
             beginUnbondingValidator_cons_consistent
             RemoveValidator_cons_consistent k ctx _ _ _ _ _ Hc H).
  - intros s' H.
    apply (unbondTimeslices_keeps cons_index_consistent
             cons_index_consistent_keyed cons_index_consistent_frame
             completeUnbondingValidator_cons_consistent
             RemoveValidator_cons_consistent k ctx _ _ _ Hc H).
Qed.

Lemma GetValidatorByConsAddr_consistent s c v :
  cons_index_consistent s →
  iff (GetValidatorByConsAddr s c = Some v)
      (validators s !! OperatorAddr v = Some v ∧ consKeyOf v = Some c).
Proof.
  intros (Hk & Hs & Hc). unfold GetValidatorByConsAddr, GetValidator. split.
  - destruct (validatorsByConsAddr s !! c) as [op|] eqn:Hi; [|discriminate].
    intros Hv. destruct (Hs c op Hi) as (w & Hw & Hcw).
    assert (w = v) by congruence. subst w.
    rewrite (store_keyed_lookup _ _ _ Hk Hv). done.
  - intros [Hv Hcv]. by rewrite (Hc _ _ _ Hv Hcv).
Qed.

(** X17: with a consistent by-consensus-address index,
    [GetValidatorByConsAddr] finds a validator under a consensus address
    exactly when that validator is stored and has this consensus address: the
    side-chain consensus address of a side-chain validator, the address of
    the consensus public key otherwise. *)
Theorem GetValidatorByConsAddr_finds_stored s c v :
  cons_index_consistent s →
  iff (GetValidatorByConsAddr s c = Some v)
      (GetValidator s (OperatorAddr v) = Some v
       ∧ (if IsSideChainValidator v then SideConsAddr v = c
          else ∃ pk, ConsPubKey v = Some pk ∧ pk_address pk = c)).
Proof.
  intros Hc. rewrite (GetValidatorByConsAddr_consistent s c v Hc).
  unfold GetValidator, consKeyOf.
  destruct (IsSideChainValidator v).
  - split; intros [H1 H2]; (split; [done|]); congruence.
  - destruct (ConsPubKey v) as [pk|]; simpl.
    + split; intros [H1 H2]; (split; [done|]).
      * exists pk. split; congruence.
      * destruct H2 as (pk' & [= <-] & <-). done.
    + split; intros [H1 H2]; [discriminate|].
      by destruct H2 as (pk' & ? & _).
Qed.

Lemma SetValidatorByConsAddr_Ok v c s :
  consKeyOf v = Some c →
  SetValidatorByConsAddr v s
  = Ok (with_validatorsByConsAddr
          (<[c := OperatorAddr v]> (validatorsByConsAddr s)) s).
Proof.
  unfold consKeyOf, SetValidatorByConsAddr, ConsAddressOf.
  destruct (IsSideChainValidator v); [by intros [= <-]|].
  destruct (ConsPubKey v); simpl; [by intros [= <-]|discriminate].
Qed.

(** Storing a new validator and its by-consensus-address entry. *)
Lemma new_validator_cons_consistent s s0 v c :
  cons_index_consistent s →
  validators s !! OperatorAddr v = None →
  consKeyOf v = Some c →
  validatorsByConsAddr s !! c = None →
  validators s0 = <[OperatorAddr v := v]> (validators s) →
  validatorsByConsAddr s0 = validatorsByConsAddr s →
  cons_index_consistent
    (with_validatorsByConsAddr
       (<[c := OperatorAddr v]> (validatorsByConsAddr s0)) s0).
Proof.
  intros (Hk & Hs & Hc) Hnone Hcv Hfree Hv0 Hi0. split; [|split].
  - unfold store_keyed. simpl. rewrite Hv0. by apply map_Forall_insert_2.
  - intros c' op. simpl. rewrite Hv0, Hi0, lookup_insert.
    case_decide as Hd.
    + intros [= <-]. subst c'. exists v. by rewrite lookup_insert_eq.
    + intros Hin. destruct (Hs c' op Hin) as (w & Hw & Hcw).
      exists w. split; [|done]. rewrite lookup_insert_ne; [done|].
      intros <-. congruence.
  - intros op w c'. simpl. rewrite Hv0, Hi0, lookup_insert.
    case_decide as Hd.
    + intros [= <-] Hcw. subst op.
      assert (c' = c) by congruence. subst c'. apply lookup_insert_eq.
    + intros Hw Hcw. rewrite lookup_insert_ne; [by eapply Hc|].
      intros <-. pose proof (Hc _ _ _ Hw Hcw). congruence.
Qed.

(** X18: a new validator, stored with [SetValidator] and entered with
    [SetValidatorByConsAddr] under a consensus address that is free, is found
    by [GetValidatorByConsAddr], and the index stays consistent;
    [RemoveValidator] then takes both the record and the entry away again,
    which leaves the records and the index as they were before. *)
Theorem new_validator_indexed_and_removed k ctx s v c :
  cons_index_consistent s →
  GetValidator s (OperatorAddr v) = None →
  consKeyOf v = Some c →
  validatorsByConsAddr s !! c = None →
  ∃ s1 s2,
    SetValidatorByConsAddr v (SetValidator k ctx v s) = Ok s1
    ∧ cons_index_consistent s1
    ∧ GetValidatorByConsAddr s1 c = Some v
    ∧ RemoveValidator k ctx (OperatorAddr v) s1 = Ok s2
    ∧ validators s2 = validators s
    ∧ validatorsByConsAddr s2 = validatorsByConsAddr s
    ∧ GetValidatorByConsAddr s2 c = None.
Proof.
  intros Hcon Hnone Hcv Hfree. unfold GetValidator in Hnone.
  rewrite (SetValidatorByConsAddr_Ok v c _ Hcv).
  set (s1 := with_validatorsByConsAddr _ _).
  assert (Hv1 : validators s1 = <[OperatorAddr v := v]> (validators s)).
  { unfold s1. simpl. apply SetValidator_validators. }
  assert (Hi1 : validatorsByConsAddr s1
                = <[c := OperatorAddr v]> (validatorsByConsAddr s)).
  { unfold s1. simpl. f_equal. apply rest_of_store_cons.
    apply rest_of_store_SetValidator. }
  assert (Hcon1 : cons_index_consistent s1).
  { apply (new_validator_cons_consistent s (SetValidator k ctx v s) v c
             Hcon Hnone Hcv Hfree).
    - apply SetValidator_validators.
    - apply rest_of_store_cons, rest_of_store_SetValidator. }
  assert (Hget : validators s1 !! OperatorAddr v = Some v)
    by (rewrite Hv1; apply lookup_insert_eq).
  destruct (RemoveValidator_found k ctx s1 (OperatorAddr v) v c Hget Hcv)
    as (s2 & Hrem & _).
  destruct (RemoveValidator_store _ _ _ _ _ _ Hget Hrem)
    as (c' & Hc' & Hv2 & Hi2).
  assert (c' = c) by congruence. subst c'.
  exists s1, s2. split; [done|]. split; [done|].
  split; [by apply GetValidatorByConsAddr_consistent|].
  split; [done|].
  assert (Hv2' : validators s2 = validators s)
    by (rewrite Hv2, Hv1; by apply delete_insert_id).
  assert (Hi2' : validatorsByConsAddr s2 = validatorsByConsAddr s)
    by (rewrite Hi2, Hi1; by apply delete_insert_id).
  split; [done|]. split; [done|].
  unfold GetValidatorByConsAddr. by rewrite Hi2', Hfree.
Qed.

(** X19: a validator of the main chain whose consensus public key is nil has
    no consensus address.  [SetValidatorByConsAddr] panics on it, and so
    does [RemoveValidator] once its record is stored: the record cannot be
    removed. *)
Theorem nil_consensus_key_panics k ctx s v :
  IsSideChainValidator v = false →
  ConsPubKey v = None →
  (∃ msg, SetValidatorByConsAddr v s = Panic msg)
  ∧ (GetValidator s (OperatorAddr v) = Some v →
     ∃ msg, RemoveValidator k ctx (OperatorAddr v) s = Panic msg).
Proof.
  intros Hside Hnil. split.
  - unfold SetValidatorByConsAddr, ConsAddressOf. rewrite Hside, Hnil.
    simpl. eauto.
  - intros Hget. unfold RemoveValidator, ConsAddressOf.
    rewrite Hget, Hside, Hnil. simpl. eauto.
Qed.

(** Storing a validator with its power-index entry and its
    by-consensus-address entry. *)
Definition registerValidator (v : Validator) (s : State) : State :=
  match SetValidatorByConsAddr v (addValidator v s) with
  | Ok s' => s'
  | Panic _ => addValidator v s
  end.

Lemma registerValidator_cons_consistent v c s :
  cons_index_consistent s →
  validators s !! OperatorAddr v = None →
  consKeyOf v = Some c →
  validatorsByConsAddr s !! c = None →
  cons_index_consistent (registerValidator v s).
Proof.
  intros Hcon Hnone Hcv Hfree. unfold registerValidator.
  rewrite (SetValidatorByConsAddr_Ok v c _ Hcv).
  by apply (new_validator_cons_consistent s (addValidator v s) v c).
Qed.

Lemma cons_index_consistent_emptyState n :
  cons_index_consistent (emptyState n).
Proof.
  split; [apply store_keyed_emptyState|]. split.
  - intros c op H. simpl in H. by rewrite lookup_empty in H.
  - intros op v c H. simpl in H. by rewrite lookup_empty in H.
Qed.

(** The three validators of [threeState], each with its entry in the
    by-consensus-address index. *)
Definition indexedState : State :=
  with_lastValidatorPower {[ 3%N := 80 ]}
    (registerValidator (sampleValidator 1 (Some pkA) Unbonded 100 100)
       (registerValidator (sampleValidator 2 (Some pkB) Unbonded 90 90)
          (registerValidator (sampleValidator 3 (Some pkC) Bonded 80 80)
             (emptyState 2)))).

Lemma indexedState_cons_consistent : cons_index_consistent indexedState.
Proof.
  unfold indexedState.
  eapply cons_index_consistent_frame; [|reflexivity..].
  apply (registerValidator_cons_consistent _ 111%N);
    [|vm_compute; reflexivity..].
  apply (registerValidator_cons_consistent _ 222%N);
    [|vm_compute; reflexivity..].
  apply (registerValidator_cons_consistent _ 333%N);
    [|vm_compute; reflexivity..].
  apply cons_index_consistent_emptyState.
Qed.

Lemma block_functions_keep_transition_invariants_witness :
  cons_index_consistent indexedState
  ∧ (∀ newVals updates s',
       ApplyAndReturnValidatorSetUpdates sampleKeeper sampleCtx indexedState
         = Ok (newVals, updates, s') →
       cons_index_consistent s')
  ∧ (∀ s', UnbondAllMatureValidatorQueue sampleKeeper sampleCtx indexedState
           = Ok s' →
           cons_index_consistent s').
Proof.
  split; [exact indexedState_cons_consistent|].
  exact (block_functions_keep_transition_invariants cons_index_consistent
           cons_index_consistent_keyed cons_index_consistent_frame
           bondValidator_cons_consistent
           beginUnbondingValidator_cons_consistent
           completeUnbondingValidator_cons_consistent
           RemoveValidator_cons_consistent
           sampleKeeper sampleCtx indexedState indexedState_cons_consistent).
Defined.

Lemma consensus_address_index_kept_witness :
  cons_index_consistent indexedState
  ∧ ∃ newVals updates s',
      ApplyAndReturnValidatorSetUpdatesBy sampleKeeper sampleCtx indexedState
        = Ok (newVals, updates, s')
      ∧ cons_index_consistent s'.
Proof.
  split; [exact indexedState_cons_consistent|].
  destruct (ApplyAndReturnValidatorSetUpdatesBy sampleKeeper sampleCtx
              indexedState) as [[[newVals updates] s']|msg] eqn:E;
    [|vm_compute in E; discriminate].
  exists newVals, updates, s'. split; [reflexivity|].
  exact (proj1 (proj2 (proj2
    (consensus_address_index_kept sampleKeeper sampleCtx indexedState
       indexedState_cons_consistent))) newVals updates s' E).
Defined.

Lemma GetValidatorByConsAddr_finds_stored_witness :
  cons_index_consistent indexedState
  ∧ GetValidatorByConsAddr indexedState 222%N
    = Some (sampleValidator 2 (Some pkB) Unbonded 90 90).
Proof.
  split; [exact indexedState_cons_consistent|].
  apply (GetValidatorByConsAddr_finds_stored indexedState 222%N
           (sampleValidator 2 (Some pkB) Unbonded 90 90)
           indexedState_cons_consistent).
  split; [vm_compute; reflexivity|]. exists pkB. split; reflexivity.
Defined.

Lemma new_validator_indexed_and_removed_witness :
  cons_index_consistent indexedState
  ∧ GetValidator indexedState 4%N = None
  ∧ validatorsByConsAddr indexedState !! 444%N = None
  ∧ ∃ s1 s2,
      SetValidatorByConsAddr
        (sampleValidator 4 (Some (mkPubKey 44 444)) Unbonded 10 10)
        (SetValidator sampleKeeper sampleCtx
           (sampleValidator 4 (Some (mkPubKey 44 444)) Unbonded 10 10)
           indexedState) = Ok s1
      ∧ cons_index_consistent s1
      ∧ GetValidatorByConsAddr s1 444%N
        = Some (sampleValidator 4 (Some (mkPubKey 44 444)) Unbonded 10 10)
      ∧ RemoveValidator sampleKeeper sampleCtx 4%N s1 = Ok s2
      ∧ validators s2 = validators indexedState
      ∧ validatorsByConsAddr s2 = validatorsByConsAddr indexedState
      ∧ GetValidatorByConsAddr s2 444%N = None.
Proof.
  split; [exact indexedState_cons_consistent|].
  split; [vm_compute; reflexivity|]. split; [vm_compute; reflexivity|].
  exact (new_validator_indexed_and_removed sampleKeeper sampleCtx
           indexedState
           (sampleValidator 4 (Some (mkPubKey 44 444)) Unbonded 10 10)
           444%N indexedState_cons_consistent eq_refl eq_refl eq_refl).
Defined.

Lemma nil_consensus_key_panics_witness :
  (∃ msg, SetValidatorByConsAddr (sampleValidator 5 None Unbonded 10 10)
            (addValidator (sampleValidator 5 None Unbonded 10 10)
               (emptyState 2)) = Panic msg)
  ∧ ∃ msg, RemoveValidator sampleKeeper sampleCtx 5%N
             (addValidator (sampleValidator 5 None Unbonded 10 10)
                (emptyState 2)) = Panic msg.
Proof.
  destruct (nil_consensus_key_panics sampleKeeper sampleCtx
              (addValidator (sampleValidator 5 None Unbonded 10 10)
                 (emptyState 2))
              (sampleValidator 5 None Unbonded 10 10) eq_refl eq_refl)
    as [H1 H2].
  split; [exact H1|]. apply H2. reflexivity.
Defined.

(** ** The groups of validators *)

Global Instance BondStatus_eq_dec : EqDecision BondStatus.
Proof. solve_decision. Defined.

(** [sdk.KVStorePrefixIterator(store, ValidatorsKey)]: the records in
    ascending order of their keys. *)
Definition record_before (a b : ValAddress * Validator) : Prop :=
  (a.1 ≤ b.1)%N.

Global Instance record_before_dec a b : Decision (record_before a b).
Proof. unfold record_before. apply _. Defined.

Definition validatorsIterator (s : State) : list (ValAddress * Validator) :=
  merge_sort record_before (map_to_list (validators s)).

Definition GetAllValidators (s : State) : list Validator :=
  foldl (λ validators kv, validators ++ [kv.2]) [] (validatorsIterator s).

(** The loop of [GetValidators]: [acc] is [validators[:i]]. *)
Fixpoint getValidatorsLoop (maxRetrieve : nat)
    (it : list (ValAddress * Validator)) (acc : list Validator)
  : list Validator :=
  match it with
  | [] => acc
  | kv :: rest =>
      if (length acc <? maxRetrieve)%nat
      then getValidatorsLoop maxRetrieve rest (acc ++ [kv.2])
      else acc
  end.

Definition GetValidators (s : State) (maxRetrieve : nat) : list Validator :=
  getValidatorsLoop maxRetrieve (validatorsIterator s) [].

(** [sdk.KVStorePrefixIterator(store, LastValidatorPowerKey)]: the operators
    of the last-validator-power keyspace in ascending order. *)
Definition lastValidatorPowerIterator (s : State) : list ValAddress :=
  merge_sort N.le (map_to_list (lastValidatorPower s)).*1.

(** The loop of [GetLastValidators]. *)
Fixpoint getLastValidatorsLoop (s : State) (maxValidators : nat)
    (it : list ValAddress) (acc : list Validator) : Res (list Validator) :=
  match it with
  | [] => Ok acc
  | address :: rest =>
      if (maxValidators <=? length acc)%nat
      then Panic "more validators than maxValidators found"
      else
        let* validator := mustGetValidator s address in
        getLastValidatorsLoop s maxValidators rest (acc ++ [validator])
  end.

Definition GetLastValidators (s : State) : Res (list Validator) :=
  getLastValidatorsLoop s (MaxValidators (params s))
    (lastValidatorPowerIterator s) [].

(** The loop of [GetBondedValidatorsByPower]. *)
Fixpoint getBondedValidatorsLoop (s : State) (maxValidators : nat)
    (it : list ValAddress) (acc : list Validator) : Res (list Validator) :=
  match it with
  | [] => Ok acc
  | address :: rest =>
      if (length acc <? maxValidators)%nat
      then
        let* validator := mustGetValidator s address in
        getBondedValidatorsLoop s maxValidators rest
          (match Status validator with
           | Bonded => acc ++ [validator]
           | _ => acc
           end)
      else Ok acc
  end.

Definition GetBondedValidatorsByPower (s : State) : Res (list Validator) :=
  getBondedValidatorsLoop s (MaxValidators (params s)) (powerIterator s) [].

Lemma foldl_snoc_values (it : list (ValAddress * Validator)) acc :
  foldl (λ validators kv, validators ++ [kv.2]) acc it = acc ++ it.*2.
Proof.
  revert acc. induction it as [|kv rest IH]; intros acc; simpl.
  - by rewrite app_nil_r.
  - rewrite IH. by rewrite <- app_assoc.
Qed.

Lemma GetAllValidators_values s :
  GetAllValidators s = (validatorsIterator s).*2.
Proof. unfold GetAllValidators. by rewrite foldl_snoc_values. Qed.

Lemma getValidatorsLoop_take n it acc :
  (length acc ≤ n)%nat →
  getValidatorsLoop n it acc = take n (acc ++ it.*2).
Proof.
  revert acc. induction it as [|kv rest IH]; intros acc Hle; simpl.
  - rewrite app_nil_r. by rewrite take_ge.
  - destruct (length acc <? n)%nat eqn:Hlt.
    + apply Nat.ltb_lt in Hlt. rewrite IH.
      * by rewrite <- app_assoc.
      * rewrite length_app. simpl. lia.
    + apply Nat.ltb_ge in Hlt. rewrite take_app_le by lia.
      by rewrite take_ge.
Qed.

(** X20: [GetAllValidators] returns the stored records, each once, in
    ascending order of their keys; [GetValidators] returns the first
    [maxRetrieve] of them, or all of them when there are fewer. *)
Theorem GetValidators_first_records s maxRetrieve :
  GetValidators s maxRetrieve = take maxRetrieve (GetAllValidators s)
  ∧ length (GetValidators s maxRetrieve)
    = min maxRetrieve (size (validators s))
  ∧ (∀ v, v ∈ GetAllValidators s ↔ ∃ op, validators s !! op = Some v)
  ∧ StronglySorted N.lt (validatorsIterator s).*1.
Proof.
  assert (Hlen : length (GetAllValidators s) = size (validators s)).
  { rewrite GetAllValidators_values, length_fmap.
    unfold validatorsIterator. rewrite merge_sort_Permutation.
    apply length_map_to_list. }
  assert (Htake : GetValidators s maxRetrieve
                  = take maxRetrieve (GetAllValidators s)).
  { unfold GetValidators. rewrite getValidatorsLoop_take by (simpl; lia).
    by rewrite GetAllValidators_values. }
  split; [done|]. split; [by rewrite Htake, length_take, Hlen|]. split.
  - intros v. rewrite GetAllValidators_values. unfold validatorsIterator.
    rewrite merge_sort_Permutation, list_elem_of_fmap. split.
    + intros ([op w] & -> & Hin). apply elem_of_map_to_list in Hin. eauto.
    + intros [op Hop]. exists (op, v). split; [done|].
      by apply elem_of_map_to_list.
  - assert (Hnd : NoDup (validatorsIterator s).*1).
    { unfold validatorsIterator. rewrite merge_sort_Permutation.
      apply NoDup_fst_map_to_list. }
    assert (Hs : StronglySorted record_before (validatorsIterator s)).
    { unfold validatorsIterator. apply StronglySorted_merge_sort.
      - intros a b c. unfold record_before. lia.
      - intros a b. unfold record_before. lia. }
    induction Hs as [|x l Hs IH Hall]; [constructor|].
    rewrite fmap_cons in Hnd |- *.
    apply NoDup_cons in Hnd. destruct Hnd as [Hx Hnd].
    constructor; [by apply IH|].
    apply Forall_forall. intros y Hy.
    apply list_elem_of_fmap in Hy. destruct Hy as (kv & -> & Hkv).
    pose proof (proj1 (Forall_forall _ _) Hall kv Hkv) as Hle.
    unfold record_before in Hle.
    assert (x.1 ≠ kv.1).
    { intros Heq. apply Hx. rewrite Heq. apply list_elem_of_fmap. eauto. }
    lia.
Qed.

(** *** [GetBondedValidatorsByPower] *)

Lemma omap_cons_Some {A B} (f : A → option B) x l y :
  f x = Some y → omap f (x :: l) = y :: omap f l.
Proof. intros H. simpl. by rewrite H. Qed.

Lemma getBondedValidatorsLoop_take s n it acc :
  (∀ op, op ∈ it → is_Some (validators s !! op)) →
  (length acc ≤ n)%nat →
  getBondedValidatorsLoop s n it acc
  = Ok (take n (acc ++ filter (λ v, Status v = Bonded)
                         (omap (GetValidator s) it))).
Proof.
  revert acc. induction it as [|op rest IH]; intros acc Hall Hle.
  - simpl. rewrite app_nil_r. by rewrite take_ge.
  - cbn [getBondedValidatorsLoop].
    destruct (length acc <? n)%nat eqn:Hlt.
    + apply Nat.ltb_lt in Hlt.
      destruct (Hall op) as [v Hv]; [apply list_elem_of_here|].
      rewrite (mustGetValidator_Ok _ _ _ Hv).
      rewrite (omap_cons_Some (GetValidator s) op rest v Hv).
      unfold bind.
      assert (Hall' : ∀ op', op' ∈ rest → is_Some (validators s !! op'))
        by (intros op' Hin; apply Hall; by apply list_elem_of_further).
      destruct (Status v) eqn:Hst.
      * rewrite filter_cons_False by congruence. by apply IH.
      * rewrite filter_cons_False by congruence. by apply IH.
      * rewrite filter_cons_True by done. rewrite IH; [|done|].
        -- by rewrite <- app_assoc.
        -- rewrite length_app. simpl. lia.
    + apply Nat.ltb_ge in Hlt. rewrite take_app_le by lia.
      by rewrite take_ge.
Qed.

(** X21: when every entry of the power index names a stored validator,
    [GetBondedValidatorsByPower] does not panic and returns the first
    [MaxValidators] bonded validators of the power index, in the order of the
    iteration: highest power first.  An entry whose validator is not bonded
    is passed over and does not count against the cap. *)
Theorem GetBondedValidatorsByPower_sound_index s :
  power_index_sound s →
  GetBondedValidatorsByPower s
  = Ok (take (MaxValidators (params s))
          (filter (λ v, Status v = Bonded)
             (omap (GetValidator s) (powerIterator s)))).
Proof.
  intros Hs. unfold GetBondedValidatorsByPower.
  rewrite getBondedValidatorsLoop_take; [done| |simpl; lia].
  intros op Hin. unfold powerIterator in Hin.
  rewrite merge_sort_Permutation in Hin.
  apply list_elem_of_fmap in Hin. destruct Hin as ([key o] & -> & Hin).
  apply elem_of_map_to_list in Hin.
  destruct (Hs _ _ Hin) as (w & Hw & _). by exists w.
Qed.

(** *** [GetLastValidators] *)

Lemma getLastValidatorsLoop_Ok s n it acc :
  (∀ op, op ∈ it → is_Some (validators s !! op)) →
  (length acc + length it ≤ n)%nat →
  getLastValidatorsLoop s n it acc = Ok (acc ++ omap (GetValidator s) it).
Proof.
  revert acc. induction it as [|op rest IH]; intros acc Hall Hle.
  - simpl. by rewrite app_nil_r.
  - cbn [getLastValidatorsLoop]. simpl in Hle.
    rewrite (proj2 (Nat.leb_gt _ _)) by lia.
    destruct (Hall op) as [v Hv]; [apply list_elem_of_here|].
    rewrite (mustGetValidator_Ok _ _ _ Hv).
    rewrite (omap_cons_Some (GetValidator s) op rest v Hv).
    unfold bind. rewrite IH.
    + by rewrite <- app_assoc.
    + intros op' Hin. apply Hall. by apply list_elem_of_further.
    + rewrite length_app. simpl. lia.
Qed.

Lemma getLastValidatorsLoop_Panic s n it acc :
  (length acc ≤ n)%nat →
  (n < length acc + length it)%nat →
  ∃ msg, getLastValidatorsLoop s n it acc = Panic msg.
Proof.
  revert acc. induction it as [|op rest IH]; intros acc Hle Hlt; simpl.
  - simpl in Hlt. lia.
  - destruct (n <=? length acc)%nat eqn:Hn; [eauto|].
    apply Nat.leb_gt in Hn.
    destruct (mustGetValidator s op) as [v|msg]; simpl; [|eauto].
    apply IH; rewrite length_app; simpl in *; lia.
Qed.

Lemma lastValidatorPowerIterator_elem s op :
  op ∈ lastValidatorPowerIterator s ↔ is_Some (lastValidatorPower s !! op).
Proof. apply sortNoLongerBonded_elem. Qed.

Lemma lastValidatorPowerIterator_length s :
  length (lastValidatorPowerIterator s) = size (lastValidatorPower s).
Proof.
  unfold lastValidatorPowerIterator. rewrite merge_sort_Permutation.
  rewrite length_fmap. apply length_map_to_list.
Qed.

Lemma GetLastValidators_Ok s :
  (size (lastValidatorPower s) ≤ MaxValidators (params s))%nat →
  (∀ op, is_Some (lastValidatorPower s !! op) →
         is_Some (validators s !! op)) →
  GetLastValidators s
  = Ok (omap (GetValidator s) (lastValidatorPowerIterator s)).
Proof.
  intros Hle Hall. unfold GetLastValidators.
  rewrite getLastValidatorsLoop_Ok; [done| |].
  - intros op Hin. by apply Hall, lastValidatorPowerIterator_elem.
  - simpl. by rewrite lastValidatorPowerIterator_length.
Qed.

(** X22: [GetLastValidators] panics when the last-validator-power keyspace
    holds more operators than [MaxValidators], and when it holds an operator
    without a validator record.  Otherwise it returns the records of the
    operators of the keyspace, in ascending order of operator address. *)
Theorem GetLastValidators_cases s :
  ((MaxValidators (params s) < size (lastValidatorPower s))%nat →
   ∃ msg, GetLastValidators s = Panic msg)
  ∧ ((∃ op, is_Some (lastValidatorPower s !! op)
            ∧ validators s !! op = None) →
     ∃ msg, GetLastValidators s = Panic msg)
  ∧ ((size (lastValidatorPower s) ≤ MaxValidators (params s))%nat →
     (∀ op, is_Some (lastValidatorPower s !! op) →
            is_Some (validators s !! op)) →
     GetLastValidators s
     = Ok (omap (GetValidator s) (lastValidatorPowerIterator s))).
Proof.
  split; [|split].
  - intros Hlt. apply getLastValidatorsLoop_Panic; simpl; [lia|].
    by rewrite lastValidatorPowerIterator_length.
  - intros (op & Hin & Hnone).
    apply lastValidatorPowerIterator_elem in Hin.
    unfold GetLastValidators.
    generalize (@nil Validator) as acc.
    induction (lastValidatorPowerIterator s) as [|a rest IH]; intros acc.
    + by apply elem_of_nil in Hin.
    + simpl. destruct (MaxValidators (params s) <=? length acc)%nat;
        [eauto|].
      unfold mustGetValidator, GetValidator.
      destruct (validators s !! a) as [v|] eqn:Hv; simpl; [|eauto].
      apply IH. apply elem_of_cons in Hin. destruct Hin as [->|Hin]; [|done].
      congruence.
  - apply GetLastValidators_Ok.
Qed.

Lemma applyUpdatesOver_params k ctx it s newVals updates s' :
  store_keyed s →
  applyUpdatesOver k ctx it s = Ok (newVals, updates, s') →
  params s' = params s.
Proof.
  intros Hk. unfold applyUpdatesOver.
  destruct (candidateLoop k ctx (MaxValidators (params s)) it
              (mkLoop s (getLastValidatorsByAddr s) [] [] 0%nat 0))
    as [ls|] eqn:Hl; simpl; [|discriminate].
  destruct (removalLoop k ctx (sortNoLongerBonded (ls_last ls))
              (ls_state ls, ls_updates ls)) as [[s1 ups]|] eqn:Hr;
    simpl; [|discriminate].
  intros [= <- <- <-].
  assert (Hk0 : store_keyed
                  (ls_state (mkLoop s (getLastValidatorsByAddr s) [] []
                               0%nat 0))) by exact Hk.
  assert (Hlink : last_linked (mkLoop s (getLastValidatorsByAddr s) [] []
                                 0%nat 0)).
  { intros op. by right. }
  destruct (candidateLoop_run _ _ _ _ _ _ Hk0 Hlink Hl) as (nv & Hrun).
  destruct Hrun as (_ & _ & _ & _ & _ & _ & _ & _ & _ & _ & Hp).
  simpl in Hp.
  pose proof (candidateLoop_cores _ _ _ _ _ _ Hk0 Hl) as Hcores.
  assert (Hk1 : store_keyed (ls_state ls))
    by (by eapply store_keyed_same_cores).
  destruct (removalLoop_run _ _ _ _ _ _ _ Hk1 Hr)
    as (_ & _ & _ & _ & _ & _ & _ & Hp1).
  rewrite <- Hp, <- Hp1. by destruct (0 <? length ups)%nat.
Qed.

(** The operators of the last-validator-power keyspace after a run are the
    operators of the returned bonded set. *)
Lemma applyUpdatesOver_last_operators k ctx it s newVals updates s' :
  store_keyed s →
  applyUpdatesOver k ctx it s = Ok (newVals, updates, s') →
  (∀ op, is_Some (lastValidatorPower s' !! op)
         ↔ op ∈ OperatorAddr <$> newVals)
  ∧ Forall (λ w, Status w = Bonded
                 ∧ validators s' !! OperatorAddr w = Some w) newVals
  ∧ (length newVals ≤ MaxValidators (params s))%nat
  ∧ (OperatorAddr <$> newVals) `prefix_of` it.
Proof.
  intros Hk H.
  destruct (applyUpdatesOver_run _ _ _ _ _ _ _ Hk H)
    as (ls & s1 & adds & rem & Hrun & Hmax & Hrem & _ & _ & _ & _ & Hv
        & Hl & _).
  destruct Hrun as (_ & Hpre & Hall & Hlast & Hlpw & _ & Hcnt & _).
  destruct Hrem as (_ & _ & Hout & Hlast1 & _).
  simpl in Hlast, Hlpw, Hcnt.
  assert (Hops : ∀ op, iff (op ∈ sortNoLongerBonded (ls_last ls))
                   ((op ∉ OperatorAddr <$> newVals)
                    ∧ is_Some (lastValidatorPower s !! op))).
  { intros op. rewrite sortNoLongerBonded_elem, Hlast.
    unfold getLastValidatorsByAddr.
    case_decide as Hd; split.
    - intros [? [=]].
    - by intros [? _].
    - done.
    - by intros [_ ?]. }
  assert (Hst : Forall (λ w, Status w = Bonded
                             ∧ validators s' !! OperatorAddr w = Some w)
                  newVals).
  { apply Forall_forall. intros w Hin.
    destruct (proj1 (Forall_forall _ _) Hall w Hin) as (Hb & _ & _ & Hw).
    split; [done|]. rewrite Hv, Hout; [done|]. rewrite Hops. intros [Hnin _].
    apply Hnin, list_elem_of_fmap. by exists w. }
  split; [|split; [done|split; [lia|done]]].
  intros op. rewrite Hl, Hlast1.
  destruct (decide (op ∈ OperatorAddr <$> newVals)) as [Hin|Hnin].
  - rewrite decide_False by (rewrite Hops; intros [? _]; done).
    rewrite Hlpw, decide_True by done. split; [done|]. intros _.
    apply list_elem_of_fmap in Hin. destruct Hin as (w & -> & Hw).
    destruct (proj1 (Forall_forall _ _) Hall w Hw) as (_ & _ & _ & Hsw).
    rewrite Hsw. by eexists.
  - split; [|done]. intros Hsome. exfalso.
    case_decide as Hd; [by destruct Hsome|].
    rewrite Hlpw, decide_False in Hsome by done.
    apply Hd, Hops. done.
Qed.

Lemma omap_stored_records s (nv : list Validator) :
  Forall (λ w, validators s !! OperatorAddr w = Some w) nv →
  omap (GetValidator s) (OperatorAddr <$> nv) = nv.
Proof.
  induction 1 as [|w nv Hw _ IH]; [done|].
  rewrite fmap_cons.
  rewrite (omap_cons_Some (GetValidator s) (OperatorAddr w) _ w Hw).
  by rewrite IH.
Qed.

Lemma omap_records_operators s (ops : list ValAddress) :
  (∀ op, op ∈ ops →
         ∃ w, validators s !! op = Some w ∧ OperatorAddr w = op) →
  OperatorAddr <$> omap (GetValidator s) ops = ops.
Proof.
  induction ops as [|op rest IH]; intros Hall; [done|].
  destruct (Hall op) as (w & Hw & Hop); [apply list_elem_of_here|].
  rewrite (omap_cons_Some (GetValidator s) op rest w Hw), fmap_cons, Hop,
    IH; [done|].
  intros op' Hin. apply Hall. by apply list_elem_of_further.
Qed.

(** X23: after [ApplyAndReturnValidatorSetUpdates] on a store with a
    consistent power index, [GetLastValidators] does not panic and returns
    the validators of the bonded set that the function returned, in ascending
    order of operator address instead of descending order of power. *)
Theorem GetLastValidators_after_apply k ctx s newVals updates s' :
  index_consistent s →
  ApplyAndReturnValidatorSetUpdatesBy k ctx s = Ok (newVals, updates, s') →
  ∃ l, GetLastValidators s' = Ok l
    ∧ l ≡ₚ newVals
    ∧ StronglySorted N.lt (OperatorAddr <$> l).
Proof.
  intros Hc H. pose proof (proj1 Hc) as Hk.
  destruct (applyUpdatesOver_last_operators _ _ _ _ _ _ _ Hk H)
    as (Hkeys & Hst0 & Hlen & Hpre).
  assert (Hst : Forall (λ w, validators s' !! OperatorAddr w = Some w)
                  newVals).
  { eapply Forall_impl; [exact Hst0|]. by intros w [_ ?]. }
  pose proof (applyUpdatesOver_params _ _ _ _ _ _ _ Hk H) as Hp.
  assert (Hnd : NoDup (OperatorAddr <$> newVals)).
  { eapply sublist_NoDup; [exact (index_consistent_NoDup s Hc)|].
    destruct Hpre as [rest ->]. apply sublist_inserts_r. reflexivity. }
  assert (Hperm : lastValidatorPowerIterator s' ≡ₚ OperatorAddr <$> newVals).
  { apply NoDup_Permutation; [apply sortNoLongerBonded_NoDup|done|].
    intros op. by rewrite lastValidatorPowerIterator_elem, Hkeys. }
  assert (Hrec : ∀ op, op ∈ lastValidatorPowerIterator s' →
            ∃ w, validators s' !! op = Some w ∧ OperatorAddr w = op).
  { intros op Hin. rewrite Hperm in Hin. apply list_elem_of_fmap in Hin.
    destruct Hin as (w & -> & Hw). exists w. split; [|done].
    exact (proj1 (Forall_forall _ _) Hst w Hw). }
  exists (omap (GetValidator s') (lastValidatorPowerIterator s')).
  split; [|split].
  - apply GetLastValidators_Ok.
    + rewrite <- lastValidatorPowerIterator_length, Hperm, length_fmap.
      by rewrite Hp.
    + intros op Hin. apply lastValidatorPowerIterator_elem in Hin.
      destruct (Hrec op Hin) as (w & Hw & _). by exists w.
  - rewrite Hperm. by rewrite omap_stored_records.
  - rewrite (omap_records_operators s' _ Hrec).
    apply sortNoLongerBonded_sorted.
Qed.

Lemma GetBondedValidatorsByPower_sound_index_witness :
  power_index_sound threeState
  ∧ GetBondedValidatorsByPower threeState
    = Ok [sampleValidator 3 (Some pkC) Bonded 80 80].
Proof.
  split; [exact (proj1 (proj2 threeState_consistent))|].
  rewrite (GetBondedValidatorsByPower_sound_index threeState
             (proj1 (proj2 threeState_consistent))).
  vm_compute. reflexivity.
Defined.

Lemma GetLastValidators_after_apply_witness :
  index_consistent threeState
  ∧ ∃ newVals updates s',
      ApplyAndReturnValidatorSetUpdatesBy sampleKeeper sampleCtx threeState
        = Ok (newVals, updates, s')
      ∧ ∃ l, GetLastValidators s' = Ok l
          ∧ l ≡ₚ newVals
          ∧ StronglySorted N.lt (OperatorAddr <$> l).
Proof.
  split; [exact threeState_consistent|]. run_threeState E.
  exact (GetLastValidators_after_apply sampleKeeper sampleCtx threeState
           newVals updates s' threeState_consistent E).
Defined.

(** Three operators in the last bonded set under a cap of two. *)
Definition overfullState : State :=
  with_lastValidatorPower {[ 1%N := 100; 2%N := 90; 3%N := 80 ]} threeState.

Lemma GetLastValidators_cases_witness :
  (MaxValidators (params overfullState)
   < size (lastValidatorPower overfullState))%nat
  ∧ ∃ msg, GetLastValidators overfullState = Panic msg.
Proof.
  assert (H : (MaxValidators (params overfullState)
               < size (lastValidatorPower overfullState))%nat)
    by (vm_compute; lia).
  split; [exact H|].
  exact (proj1 (GetLastValidators_cases overfullState) H).
Defined.

(** ** The block functions do not panic on a store that is ready *)












(** *** The transitions return *)













(** ** The validators stored by height *)

(** The keyspace of [ValidatorsByHeightKey] holds a list of validators per
    height; no other function of the keeper reads or writes it, so it is a
    map of its own here.

    Modelled from the spec: [GetValidatorHeightKey] is not among the sources
    and the specification does not describe it.  [GetHeightValidatorsByIndex]
    reads the height back from the eight bytes that follow the prefix as a
    big-endian unsigned integer, so the key of a height is modelled as that
    integer: the height as a [uint64].  Keys of one length are iterated in
    the order of these integers. *)
Definition GetValidatorHeightKey (height : Z) : Z := height mod 2 ^ 64.

(** [int64(binary.BigEndian.Uint64(key[len(ValidatorsByHeightKey):]))]. *)
Definition heightOfKey (key : Z) : Z := wrap64 key.

Abbreviation HeightStore := (gmap Z (list Validator)) (only parsing).

Definition GetValidatorsByHeight (hs : HeightStore) (height : Z)
  : option (list Validator) :=
  hs !! GetValidatorHeightKey height.

Definition height_entry_before (a b : Z * list Validator) : Prop :=
  a.1 ≤ b.1.

Global Instance height_entry_before_dec a b :
  Decision (height_entry_before a b).
Proof. unfold height_entry_before. apply _. Defined.

(** [sdk.KVStorePrefixIterator(store, ValidatorsByHeightKey)]. *)
Definition heightIterator (hs : HeightStore) : list (Z * list Validator) :=
  merge_sort height_entry_before (map_to_list hs).

(** The loop of [GetHeightValidatorsByIndex] over the reverse iterator. *)
Fixpoint heightIndexLoop (it : list (Z * list Validator))
    (index indexCountBackwards : Z) : option (list Validator * Z) :=
  match it with
  | [] => None
  | (key, validators) :: rest =>
      if index =? indexCountBackwards
      then Some (validators, heightOfKey key)
      else heightIndexLoop rest (index + 1) indexCountBackwards
  end.

Definition GetHeightValidatorsByIndex (hs : HeightStore)
    (indexCountBackwards : Z) : option (list Validator * Z) :=
  heightIndexLoop (reverse (heightIterator hs)) 1 indexCountBackwards.

Definition GetEarliestValidatorsWithHeight (hs : HeightStore)
  : option (list Validator) :=
  match heightIterator hs with
  | [] => None
  | (_, validators) :: _ => Some validators
  end.

Definition ExistValidatorsWithHeight (hs : HeightStore) (height : Z) : bool :=
  bool_decide (is_Some (hs !! GetValidatorHeightKey height)).

Definition ExistHeightValidators (hs : HeightStore) : bool :=
  match heightIterator hs with [] => false | _ :: _ => true end.

Definition SetValidatorsByHeight (height : Z) (validators : list Validator)
    (hs : HeightStore) : HeightStore :=
  <[GetValidatorHeightKey height := validators]> hs.

Definition RemoveValidatorsByHeight (height : Z) (hs : HeightStore)
  : HeightStore :=
  if negb (ExistValidatorsWithHeight hs height) then hs
  else delete (GetValidatorHeightKey height) hs.

(** A height of the source is an [int64]. *)
Definition is_int64 (z : Z) : Prop := - 2 ^ 63 ≤ z < 2 ^ 63.

(** Every key of the keyspace is eight bytes. *)
Definition height_keys_ok (hs : HeightStore) : Prop :=
  ∀ key validators, hs !! key = Some validators → 0 ≤ key < 2 ^ 64.

Lemma GetValidatorHeightKey_range height :
  0 ≤ GetValidatorHeightKey height < 2 ^ 64.
Proof. unfold GetValidatorHeightKey. apply Z.mod_pos_bound. lia. Qed.

Lemma GetValidatorHeightKey_inj h1 h2 :
  is_int64 h1 → is_int64 h2 →
  GetValidatorHeightKey h1 = GetValidatorHeightKey h2 → h1 = h2.
Proof.
  unfold is_int64, GetValidatorHeightKey. intros H1 H2 Heq.
  assert (E1 : h1 = 2 ^ 64 * (h1 / 2 ^ 64) + h1 mod 2 ^ 64)
    by (apply Z.div_mod; lia).
  assert (E2 : h2 = 2 ^ 64 * (h2 / 2 ^ 64) + h2 mod 2 ^ 64)
    by (apply Z.div_mod; lia).
  assert (B1 : 0 ≤ h1 mod 2 ^ 64 < 2 ^ 64) by (apply Z.mod_pos_bound; lia).
  assert (B2 : 0 ≤ h2 mod 2 ^ 64 < 2 ^ 64) by (apply Z.mod_pos_bound; lia).
  lia.
Qed.

Lemma heightOfKey_key key :
  0 ≤ key < 2 ^ 64 →
  is_int64 (heightOfKey key) ∧ GetValidatorHeightKey (heightOfKey key) = key.
Proof.
  intros Hk. unfold heightOfKey, wrap64, GetValidatorHeightKey, is_int64.
  assert (B : 0 ≤ (key + 2 ^ 63) mod 2 ^ 64 < 2 ^ 64)
    by (apply Z.mod_pos_bound; lia).
  assert (E : key + 2 ^ 63
              = 2 ^ 64 * ((key + 2 ^ 63) / 2 ^ 64)
                + (key + 2 ^ 63) mod 2 ^ 64)
    by (apply Z.div_mod; lia).
  split; [lia|].
  set (a := (key + 2 ^ 63) mod 2 ^ 64) in *.
  assert (B' : 0 ≤ (a - 2 ^ 63) mod 2 ^ 64 < 2 ^ 64)
    by (apply Z.mod_pos_bound; lia).
  assert (E' : a - 2 ^ 63
               = 2 ^ 64 * ((a - 2 ^ 63) / 2 ^ 64) + (a - 2 ^ 63) mod 2 ^ 64)
    by (apply Z.div_mod; lia).
  lia.
Qed.

Lemma height_keys_ok_Set height validators hs :
  height_keys_ok hs →
  height_keys_ok (SetValidatorsByHeight height validators hs).
Proof.
  intros Hok key vs. unfold SetValidatorsByHeight.
  rewrite lookup_insert. case_decide as Hd.
  - intros _. subst key. apply GetValidatorHeightKey_range.
  - apply Hok.
Qed.

(** X25: the validators stored for a height are found under that height
    again, and storing or removing them changes what is found under no other
    height; heights are [int64], negative ones included.  Removing a height
    that has no entry changes nothing. *)
Theorem validators_by_height_round_trip hs height validators other :
  is_int64 height → is_int64 other → other ≠ height →
  GetValidatorsByHeight (SetValidatorsByHeight height validators hs) height
  = Some validators
  ∧ GetValidatorsByHeight (SetValidatorsByHeight height validators hs) other
    = GetValidatorsByHeight hs other
  ∧ GetValidatorsByHeight (RemoveValidatorsByHeight height hs) height = None
  ∧ GetValidatorsByHeight (RemoveValidatorsByHeight height hs) other
    = GetValidatorsByHeight hs other
  ∧ ExistValidatorsWithHeight
      (SetValidatorsByHeight height validators hs) height = true
  ∧ ExistValidatorsWithHeight (RemoveValidatorsByHeight height hs) height
    = false
  ∧ (GetValidatorsByHeight hs height = None →
     RemoveValidatorsByHeight height hs = hs).
Proof.
  intros Hh Ho Hne.
  assert (Hkey : GetValidatorHeightKey height ≠ GetValidatorHeightKey other).
  { intros Heq. apply Hne. symmetry. by apply GetValidatorHeightKey_inj. }
  unfold GetValidatorsByHeight, SetValidatorsByHeight,
    RemoveValidatorsByHeight, ExistValidatorsWithHeight.
  split; [apply lookup_insert_eq|].
  split; [by apply lookup_insert_ne|].
  assert (Hrem : (if negb (bool_decide (is_Some
                       (hs !! GetValidatorHeightKey height)))
                  then hs else delete (GetValidatorHeightKey height) hs)
                 = delete (GetValidatorHeightKey height) hs).
  { case_bool_decide as Hd; simpl; [done|].
    symmetry. apply delete_id.
    by apply eq_None_not_Some. }
  rewrite Hrem.
  split; [apply lookup_delete_eq|].
  split; [by apply lookup_delete_ne|].
  split; [apply bool_decide_eq_true; rewrite lookup_insert_eq; by eexists|].
  split.
  - apply bool_decide_eq_false. rewrite lookup_delete_eq. by intros [? ?].
  - intros Hnone. by apply delete_id.
Qed.

(** *** The iterators *)

Lemma heightIndexLoop_lookup it index i :
  heightIndexLoop it index i
  = if decide (index ≤ i)
    then (λ kv, (kv.2, heightOfKey kv.1)) <$> it !! Z.to_nat (i - index)
    else None.
Proof.
  revert index. induction it as [|[key vs] rest IH]; intros index; simpl.
  - by case_decide.
  - destruct (index =? i) eqn:He.
    + apply Z.eqb_eq in He. subst i. rewrite decide_True by lia.
      by rewrite Z.sub_diag.
    + apply Z.eqb_neq in He. rewrite IH.
      destruct (decide (index + 1 ≤ i)) as [Hle|Hgt].
      * rewrite decide_True by lia.
        replace (Z.to_nat (i - index)) with (S (Z.to_nat (i - (index + 1))))
          by lia.
        done.
      * by rewrite decide_False by lia.
Qed.

Lemma heightIterator_elem hs key validators :
  (key, validators) ∈ heightIterator hs ↔ hs !! key = Some validators.
Proof.
  unfold heightIterator. rewrite merge_sort_Permutation.
  apply elem_of_map_to_list.
Qed.

Lemma heightIterator_length hs : length (heightIterator hs) = size hs.
Proof.
  unfold heightIterator. rewrite merge_sort_Permutation.
  apply length_map_to_list.
Qed.

Lemma heightIterator_sorted hs :
  StronglySorted height_entry_before (heightIterator hs).
Proof.
  unfold heightIterator. apply StronglySorted_merge_sort.
  - intros a b c. unfold height_entry_before. lia.
  - intros a b. unfold height_entry_before. lia.
Qed.

(** X26: [GetHeightValidatorsByIndex] counts the stored heights backwards
    from the greatest key, starting at one: it finds an entry exactly for an
    index from one up to the number of stored heights, the entry of index one
    has the greatest key, and the height it returns is the one under which
    [GetValidatorsByHeight] finds the same validators. *)
Theorem GetHeightValidatorsByIndex_counts_backwards hs i :
  height_keys_ok hs →
  (is_Some (GetHeightValidatorsByIndex hs i) ↔ 1 ≤ i ≤ Z.of_nat (size hs))
  ∧ (∀ validators height,
       GetHeightValidatorsByIndex hs i = Some (validators, height) →
       is_int64 height
       ∧ GetValidatorsByHeight hs height = Some validators
       ∧ (i = 1 → ∀ key, is_Some (hs !! key) →
                         key ≤ GetValidatorHeightKey height)).
Proof.
  intros Hok. unfold GetHeightValidatorsByIndex.
  rewrite heightIndexLoop_lookup. split.
  - case_decide as Hd.
    + rewrite fmap_is_Some, lookup_lt_is_Some, length_reverse,
        heightIterator_length. lia.
    + split; [by intros [? ?]|lia].
  - intros vs h. case_decide as Hd; [|discriminate].
    destruct (reverse (heightIterator hs) !! Z.to_nat (i - 1))
      as [[key vs']|] eqn:Hl; [|discriminate].
    simpl. intros [= <- <-].
    assert (Hin : (key, vs') ∈ heightIterator hs).
    { apply elem_of_reverse. by eapply list_elem_of_lookup_2. }
    apply heightIterator_elem in Hin.
    destruct (heightOfKey_key key (Hok _ _ Hin)) as [Hint Hkey].
    split; [done|]. unfold GetValidatorsByHeight. rewrite Hkey.
    split; [done|]. intros -> key' [vs'' Hk'].
    apply heightIterator_elem in Hk'.
    change (Z.to_nat (1 - 1)) with 0%nat in Hl.
    pose proof (lookup_lt_Some _ _ _ Hl) as Hlen.
    rewrite length_reverse in Hlen.
    rewrite reverse_lookup in Hl by done.
    pose proof (take_drop_middle _ _ _ Hl) as Hsplit.
    rewrite drop_ge in Hsplit by lia.
    pose proof (heightIterator_sorted hs) as Hs.
    rewrite <- Hsplit in Hs, Hk'.
    apply elem_of_app in Hk'. destruct Hk' as [Hin1|Hin1].
    + exact (StronglySorted_app_1_elem_of _ _ _ _ _ Hs Hin1
               (list_elem_of_here _ _)).
    + apply list_elem_of_singleton in Hin1. injection Hin1 as -> _. lia.
Qed.

(** X27: [ExistHeightValidators] tells whether any height is stored;
    [GetEarliestValidatorsWithHeight] then returns the validators of the
    least key, which are the ones [GetHeightValidatorsByIndex] finds when
    the index is the number of stored heights. *)
Theorem GetEarliestValidatorsWithHeight_least hs :
  (ExistHeightValidators hs = true ↔ hs ≠ ∅)
  ∧ (is_Some (GetEarliestValidatorsWithHeight hs)
     ↔ ExistHeightValidators hs = true)
  ∧ (∀ validators,
       GetEarliestValidatorsWithHeight hs = Some validators →
       (∃ key, hs !! key = Some validators
          ∧ ∀ key', is_Some (hs !! key') → key ≤ key')
       ∧ fst <$> GetHeightValidatorsByIndex hs (Z.of_nat (size hs))
         = Some validators).
Proof.
  unfold ExistHeightValidators, GetEarliestValidatorsWithHeight,
    GetHeightValidatorsByIndex.
  pose proof (heightIterator_length hs) as Hlen.
  pose proof (heightIterator_sorted hs) as Hs.
  assert (Helem : ∀ key vs, (key, vs) ∈ heightIterator hs
                            ↔ hs !! key = Some vs)
    by apply heightIterator_elem.
  rewrite heightIndexLoop_lookup.
  destruct (heightIterator hs) as [|[key vs] rest] eqn:Hit; simpl in Hlen.
  - split; [|split].
    + split; [discriminate|]. intros Hne. destruct Hne.
      by apply map_size_empty_iff.
    + split; [by intros [? ?]|discriminate].
    + discriminate.
  - split; [|split].
    + split; [|done]. intros _ ->. by rewrite map_size_empty in Hlen.
    + split; [done|by eexists].
    + intros validators [= <-]. split.
      * exists key. split; [apply Helem, list_elem_of_here|].
        intros key' [vs' Hk']. apply Helem in Hk'.
        apply StronglySorted_cons in Hs. destruct Hs as [Hall _].
        apply elem_of_cons in Hk'. destruct Hk' as [[= -> _]|Hin]; [lia|].
        exact (proj1 (Forall_forall _ _) Hall _ Hin).
      * rewrite decide_True by lia. rewrite <- Hlen.
        rewrite reverse_lookup by (simpl; lia).
        replace (length ((key, vs) :: rest)
                 - S (Z.to_nat (Z.of_nat (S (length rest)) - 1)))%nat
          with 0%nat by (simpl; lia).
        done.
Qed.

(** Two stored heights, one of them negative. *)
Definition sampleHeights : gmap Z (list Validator) :=
  SetValidatorsByHeight 5 [sampleValidator 1 (Some pkA) Bonded 100 100]
    (SetValidatorsByHeight (-1) [] ∅).

Lemma sampleHeights_ok : height_keys_ok sampleHeights.
Proof.
  unfold sampleHeights. do 2 apply height_keys_ok_Set.
  intros key vs H. by rewrite lookup_empty in H.
Qed.

Lemma validators_by_height_round_trip_witness :
  is_int64 (-1) ∧ is_int64 5
  ∧ GetValidatorsByHeight
      (SetValidatorsByHeight (-1)
         [sampleValidator 2 (Some pkB) Bonded 90 90] sampleHeights) (-1)
    = Some [sampleValidator 2 (Some pkB) Bonded 90 90]
  ∧ GetValidatorsByHeight (RemoveValidatorsByHeight (-1) sampleHeights) 5
    = GetValidatorsByHeight sampleHeights 5.
Proof.
  assert (H1 : is_int64 (-1)) by (unfold is_int64; lia).
  assert (H2 : is_int64 5) by (unfold is_int64; lia).
  assert (H3 : 5 ≠ -1) by lia.
  split; [exact H1|]. split; [exact H2|].
  destruct (validators_by_height_round_trip sampleHeights (-1)
              [sampleValidator 2 (Some pkB) Bonded 90 90] 5 H1 H2 H3)
    as (Hget & _ & _ & Hother & _).
  split; [exact Hget|exact Hother].
Defined.

Lemma GetHeightValidatorsByIndex_counts_backwards_witness :
  height_keys_ok sampleHeights
  ∧ (is_Some (GetHeightValidatorsByIndex sampleHeights 2)
     ↔ 1 ≤ 2 ≤ Z.of_nat (size sampleHeights))
  ∧ ∀ validators height,
      GetHeightValidatorsByIndex sampleHeights 2 = Some (validators, height) →
      is_int64 height
      ∧ GetValidatorsByHeight sampleHeights height = Some validators
      ∧ (2 = 1 → ∀ key, is_Some (sampleHeights !! key) →
                        key ≤ GetValidatorHeightKey height).
Proof.
  split; [exact sampleHeights_ok|].
  exact (GetHeightValidatorsByIndex_counts_backwards sampleHeights 2
           sampleHeights_ok).
Defined.

(** * The cross-chain channel registry *)

Module CrossChain.

(** [ChannelID] is a [uint8] and [CrossChainID] a [uint16]; both are
    integers here, with the wrap-around of [nextChannelID++] written out. *)
Record CrossChainChannelConfig := mkConfig {
  sourceChainID : Z;
  nameToChannelID : gmap string Z;
  channelIDToName : gmap Z string;
  nextChannelID : Z
}.

Definition newCrossChainChannelHub : CrossChainChannelConfig :=
  mkConfig 0 ∅ ∅ 1.

(** The functions work on the package variable [CrossChainChannelHub]; it is
    passed and returned here.  An error is [Some] of its text. *)
Definition RegisterNewCrossChainChannel (name : string)
    (hub : CrossChainChannelConfig)
  : CrossChainChannelConfig * option string :=
  match nameToChannelID hub !! name with
  | Some _ => (hub, Some "duplicated channel name")
  | None =>
      (mkConfig (sourceChainID hub)
         (<[name := nextChannelID hub]> (nameToChannelID hub))
         (<[nextChannelID hub := name]> (channelIDToName hub))
         ((nextChannelID hub + 1) mod 256),
       None)
  end.

Definition GetChannelID (channelName : string)
    (hub : CrossChainChannelConfig) : Z * option string :=
  match nameToChannelID hub !! channelName with
  | Some id => (id, None)
  | None => (0, Some "non-existing channel")
  end.

Definition InitCrossChainID (id : Z) (hub : CrossChainChannelConfig)
  : CrossChainChannelConfig :=
  mkConfig id (nameToChannelID hub) (channelIDToName hub)
    (nextChannelID hub).

Definition GetSourceChainID (hub : CrossChainChannelConfig) : Z :=
  sourceChainID hub.

(** The method [String] of [ChannelID]; a map of Go answers the zero value
    for a key it does not hold. *)
Definition ChannelID_String (channelID : Z) (hub : CrossChainChannelConfig)
  : string :=
  default "" (channelIDToName hub !! channelID).

Section Parse.
(** [strconv.Atoi] of the Go library: an [int] or an error. *)
Variable Atoi : string → Z + string.

Definition ParseCrossChainID (input : string) : Z * option string :=
  match Atoi input with
  | inr err => (0, Some err)
  | inl chainID =>
      if (chainID >? 65535) || (chainID <? 0)
      then (0, Some "cross chainID must be in [0, 1<<16 - 1]")
      else (chainID mod 65536, None)
  end.

End Parse.

(** The hubs that the functions of the package produce. *)
Inductive reachable : CrossChainChannelConfig → Prop :=
| reachable_new : reachable newCrossChainChannelHub
| reachable_register name hub :
    reachable hub → reachable (RegisterNewCrossChainChannel name hub).1
| reachable_init id hub :
    reachable hub → reachable (InitCrossChainID id hub).

(** While no more than 255 names are registered, the two maps are inverse
    to each other, the IDs given out are 1 up to the number of names, and the
    next ID follows. *)
Definition registry_ok (hub : CrossChainChannelConfig) : Prop :=
  (∀ name id, nameToChannelID hub !! name = Some id
              ↔ channelIDToName hub !! id = Some name)
  ∧ (∀ id, is_Some (channelIDToName hub !! id)
           ↔ 1 ≤ id ≤ Z.of_nat (size (nameToChannelID hub)))
  ∧ nextChannelID hub
    = (Z.of_nat (size (nameToChannelID hub)) + 1) mod 256.

Lemma registry_ok_new : registry_ok newCrossChainChannelHub.
Proof.
  split; [|split]; simpl.
  - intros name id. by rewrite !lookup_empty.
  - intros id. rewrite lookup_empty, map_size_empty. split.
    + by intros [? ?].
    + simpl. lia.
  - by rewrite map_size_empty.
Qed.

Lemma registry_ok_register name hub :
  registry_ok hub →
  nameToChannelID hub !! name = None →
  (size (nameToChannelID hub) < 255)%nat →
  nextChannelID hub = Z.of_nat (size (nameToChannelID hub)) + 1
  ∧ registry_ok (RegisterNewCrossChainChannel name hub).1.
Proof.
  intros (Hinv & Hids & Hnext) Hfresh Hsize.
  assert (Hn : nextChannelID hub = Z.of_nat (size (nameToChannelID hub)) + 1).
  { rewrite Hnext. apply Z.mod_small. lia. }
  split; [done|].
  unfold RegisterNewCrossChainChannel. rewrite Hfresh. simpl.
  assert (Hfree : channelIDToName hub !! nextChannelID hub = None).
  { apply eq_None_not_Some. rewrite Hids. lia. }
  split; [|split]; simpl.
  - intros n id. rewrite !lookup_insert.
    destruct (decide (name = n)) as [->|Hne];
      destruct (decide (nextChannelID hub = id)) as [<-|Hne'].
    + done.
    + split; [intros [= ?]; congruence|].
      intros H. apply Hinv in H. congruence.
    + split; [|intros [= ?]; congruence].
      intros H. apply Hinv in H. congruence.
    + apply Hinv.
  - intros id. rewrite lookup_insert.
    rewrite map_size_insert_None by done.
    destruct (decide (nextChannelID hub = id)) as [<-|Hne].
    + split; [lia|by eexists].
    + rewrite Hids. lia.
  - rewrite map_size_insert_None by done. rewrite Hn. f_equal. lia.
Qed.

Lemma register_size name hub :
  (size (nameToChannelID hub)
   ≤ size (nameToChannelID (RegisterNewCrossChainChannel name hub).1))%nat.
Proof.
  unfold RegisterNewCrossChainChannel.
  destruct (nameToChannelID hub !! name) eqn:E; simpl; [done|].
  rewrite map_size_insert_None by done. lia.
Qed.

Lemma reachable_registry_ok hub :
  reachable hub →
  (size (nameToChannelID hub) ≤ 255)%nat →
  registry_ok hub.
Proof.
  induction 1 as [|name hub Hr IH|id hub Hr IH]; intros Hsize.
  - apply registry_ok_new.
  - destruct (nameToChannelID hub !! name) as [id|] eqn:E.
    + unfold RegisterNewCrossChainChannel in *. rewrite E in *. simpl in *.
      by apply IH.
    + pose proof (register_size name hub) as Hle.
      assert (Hlt : (size (nameToChannelID hub) < 255)%nat).
      { unfold RegisterNewCrossChainChannel in Hsize. rewrite E in Hsize.
        simpl in Hsize. rewrite map_size_insert_None in Hsize by done. lia. }
      apply registry_ok_register; [apply IH; lia|done|done].
  - apply IH in Hsize. exact Hsize.
Qed.

End CrossChain.

Import CrossChain.

(** X28: in a hub that the package functions have produced, with no more
    than 255 channel names registered, a name has the ID that names it:
    [GetChannelID] and the method [String] are inverse to each other, and no
    two names share an ID.  Registering a new name while fewer than 255 are
    registered gives it the number of names plus one. *)
Theorem channel_ids_name_their_channels hub :
  reachable hub →
  (size (nameToChannelID hub) ≤ 255)%nat →
  (∀ name id, GetChannelID name hub = (id, None) →
     ChannelID_String id hub = name ∧ 1 ≤ id ≤ 255)
  ∧ (∀ n1 n2 id, GetChannelID n1 hub = (id, None) →
       GetChannelID n2 hub = (id, None) → n1 = n2)
  ∧ (∀ name, (size (nameToChannelID hub) < 255)%nat →
       nameToChannelID hub !! name = None →
       GetChannelID name (RegisterNewCrossChainChannel name hub).1
       = (Z.of_nat (size (nameToChannelID hub)) + 1, None)).
Proof.
  intros Hr Hsize.
  destruct (reachable_registry_ok hub Hr Hsize) as (Hinv & Hids & Hnext).
  assert (Hget : ∀ name id, GetChannelID name hub = (id, None) →
                   nameToChannelID hub !! name = Some id).
  { intros name id. unfold GetChannelID.
    destruct (nameToChannelID hub !! name); [|discriminate].
    by intros [= ->]. }
  split; [|split].
  - intros name id H. apply Hget in H. pose proof H as H'.
    apply Hinv in H. unfold ChannelID_String. rewrite H. split; [done|].
    assert (Hs : is_Some (channelIDToName hub !! id)) by (by eexists).
    apply Hids in Hs. lia.
  - intros n1 n2 id H1 H2. apply Hget, Hinv in H1. apply Hget, Hinv in H2.
    congruence.
  - intros name Hlt Hfresh.
    destruct (registry_ok_register name hub (conj Hinv (conj Hids Hnext))
                Hfresh Hlt) as [Hn _].
    unfold GetChannelID, RegisterNewCrossChainChannel. rewrite Hfresh.
    simpl. by rewrite lookup_insert_eq, Hn.
Qed.

(** X29: [nextChannelID] is a [uint8] and wraps.  Once 255 names are
    registered, the next new name is given the ID 0, which is also what
    [GetChannelID] returns beside its error for a name that is not
    registered; the new name after that is given the ID 1 again, so that two
    registered names share this ID and [String] names only the later one. *)
Theorem channel_id_wraps_after_255 hub a b :
  reachable hub →
  size (nameToChannelID hub) = 255%nat →
  nameToChannelID hub !! a = None →
  nameToChannelID hub !! b = None →
  a ≠ b →
  ∃ hub2,
    (RegisterNewCrossChainChannel b
       (RegisterNewCrossChainChannel a hub).1) = (hub2, None)
    ∧ GetChannelID a hub2 = (0, None)
    ∧ GetChannelID b hub2 = (1, None)
    ∧ ChannelID_String 1 hub2 = b
    ∧ ∃ first, first ≠ b ∧ GetChannelID first hub2 = (1, None).
Proof.
  intros Hr Hsize Ha Hb Hab.
  destruct (reachable_registry_ok hub Hr ltac:(lia)) as (Hinv & Hids & Hnext).
  rewrite Hsize in Hnext. change ((Z.of_nat 255 + 1) mod 256) with 0 in Hnext.
  assert (Hfirst : is_Some (channelIDToName hub !! 1)).
  { apply Hids. lia. }
  destruct Hfirst as [first Hfirst]. pose proof Hfirst as Hf.
  apply Hinv in Hf.
  unfold RegisterNewCrossChainChannel at 2. rewrite Ha, Hnext.
  unfold RegisterNewCrossChainChannel. simpl.
  rewrite lookup_insert_ne by done. rewrite Hb.
  change ((0 + 1) mod 256) with 1. eexists. split; [reflexivity|].
  unfold GetChannelID, ChannelID_String. simpl.
  assert (first ≠ b) by congruence.
  assert (first ≠ a) by congruence.
  split; [by rewrite lookup_insert_ne, lookup_insert_eq|].
  split; [by rewrite lookup_insert_eq|].
  split; [by rewrite lookup_insert_eq|].
  exists first. split; [done|].
  by rewrite !lookup_insert_ne, Hf by done.
Qed.

(** X30: [ParseCrossChainID] returns without an error exactly when
    [strconv.Atoi] reads a number from 0 to 65535, and then returns that
    number; with an error the ID it returns is 0. *)
Theorem ParseCrossChainID_range Atoi input id :
  (ParseCrossChainID Atoi input = (id, None)
   ↔ Atoi input = inl id ∧ 0 ≤ id ≤ 65535)
  ∧ (∀ err, ParseCrossChainID Atoi input = (id, Some err) → id = 0).
Proof.
  unfold ParseCrossChainID. split.
  - destruct (Atoi input) as [chainID|err].
    + destruct (chainID >? 65535) eqn:H1; simpl.
      * split; [discriminate|]. intros [[= ->] ?]. lia.
      * destruct (chainID <? 0) eqn:H2; simpl.
        -- split; [discriminate|]. intros [[= ->] ?]. lia.
        -- assert (0 ≤ chainID ≤ 65535) by lia.
           rewrite Z.mod_small by lia. split.
           ++ by intros [= ->].
           ++ by intros [[= ->] _].
    + split; [discriminate|]. by intros [? _].
  - intros err. destruct (Atoi input) as [chainID|e].
    + destruct ((chainID >? 65535) || (chainID <? 0)); [|discriminate].
      by intros [= <- _].
    + by intros [= <- _].
Qed.


(** Registering the names of a list, one after the other. *)
Definition registerAll (names : list string)
    (hub : CrossChainChannelConfig) : CrossChainChannelConfig :=
  foldl (λ h name, (RegisterNewCrossChainChannel name h).1) hub names.

Lemma reachable_registerAll names hub :
  reachable hub → reachable (registerAll names hub).
Proof.
  revert hub. induction names as [|name rest IH]; intros hub Hr; [done|].
  simpl. apply IH. by constructor.
Qed.

(** A hub with 255 names of one character each. *)
Definition fullHub : CrossChainChannelConfig :=
  registerAll
    ((λ i, String (Ascii.ascii_of_nat i) EmptyString) <$> seq 0 255)
    newCrossChainChannelHub.

Lemma channel_ids_name_their_channels_witness :
  reachable (registerAll ["bind"; "transfer"] newCrossChainChannelHub)
  ∧ (∀ name id,
       GetChannelID name
         (registerAll ["bind"; "transfer"] newCrossChainChannelHub)
       = (id, None) →
       ChannelID_String id
         (registerAll ["bind"; "transfer"] newCrossChainChannelHub) = name
       ∧ 1 ≤ id ≤ 255).
Proof.
  assert (Hr : reachable
                 (registerAll ["bind"; "transfer"] newCrossChainChannelHub))
    by (apply reachable_registerAll; constructor).
  split; [exact Hr|].
  refine (proj1 (channel_ids_name_their_channels _ Hr _)).
  vm_compute. lia.
Defined.

Lemma channel_id_wraps_after_255_witness :
  size (nameToChannelID fullHub) = 255%nat
  ∧ ∃ hub2,
      RegisterNewCrossChainChannel "transfer"
        (RegisterNewCrossChainChannel "bind" fullHub).1 = (hub2, None)
      ∧ GetChannelID "bind" hub2 = (0, None)
      ∧ GetChannelID "transfer" hub2 = (1, None)
      ∧ ChannelID_String 1 hub2 = "transfer"
      ∧ ∃ first, first ≠ "transfer" ∧ GetChannelID first hub2 = (1, None).
Proof.
  assert (Hsize : size (nameToChannelID fullHub) = 255%nat)
    by (vm_compute; reflexivity).
  split; [exact Hsize|].
  apply (channel_id_wraps_after_255 fullHub "bind" "transfer").
  - apply reachable_registerAll. constructor.
  - exact Hsize.
  - vm_compute. reflexivity.
  - vm_compute. reflexivity.
  - discriminate.
Defined.
